(** * google-sheet-mcp: the resilience and addressing layer

    A shallow embedding of [src/utils/sheets-utils.ts] (A1 notation),
    [src/utils/retry-utils.ts] (retry executor and rate limiter) and of the
    search / smart-replace loops of [src/services/google-sheets-service.ts].

    Conventions of the embedding.
    - A JavaScript [number] is an IEEE 754 double. Where the code uses it
      as an integer (rows, columns, attempt counters, delays and timestamps
      in milliseconds) the embedding computes on [Z] with exact arithmetic:
      [%] is [Z.rem], [Math.floor (a / b)] is [Z.div], [String(n)] writes
      all the digits of [n]. That is what the code computes as long as every
      number involved is an integer of magnitude at most [2^53]; the
      positions of the cells of a grid are array indices, below [2^32]. The
      statements that depend on exact arithmetic for other numbers carry the
      bound as a hypothesis. Module [Doubles] gives [a1ToRowCol] and
      [rowColToA1] with every operation rounded to a double; within the
      bound the two embeddings are proved to agree.
    - A JavaScript string is a [string] of 8-bit characters: the texts of
      the embedding are the texts whose code units lie in Latin-1 (U+0000 to
      U+00FF), and the statements about lower case and the [i] flag of
      regular expressions are statements about such texts. [charCodeAt] is
      [charCode], [String.fromCharCode] is [fromCharCode].
    - A function that throws returns a [result]; the thrown value is the
      error carried by [Err].
    - An asynchronous operation is the function from the number of earlier
      invocations to the outcome of the next one; the runs of the executor
      record how often it was invoked and which delays were slept.
    - Time is the list of the successive readings of [Date.now()]; a sleep
      ends at one of the later readings.
    - A grid cell is a string, an integer number, a boolean, or nothing. *)

From Stdlib Require Import ZArith List String Ascii Bool Lia.
From Equations Require Import Equations.
Import ListNotations.
Open Scope string_scope.
Open Scope Z_scope.

(** ** Results of code that may throw *)

Inductive result (E A : Type) : Type :=
| Ok (a : A)
| Err (e : E).
Arguments Ok {E A} a.
Arguments Err {E A} e.

Definition bind {E A B} (r : result E A) (k : A -> result E B) : result E B :=
  match r with
  | Ok a => k a
  | Err e => Err e
  end.

Notation "'do' x <- r ; k" := (bind r (fun x => k))
  (at level 10, x name, r at level 100, k at level 200).

(** ** Characters and strings *)

Definition charCode (c : ascii) : Z := Z.of_N (N_of_ascii c).
Definition fromCharCode (n : Z) : ascii := ascii_of_N (Z.to_N n).

(** The character classes [[A-Z]] and [[0-9]] of the regular expressions. *)
Definition isUpper (c : ascii) : bool := (65 <=? charCode c) && (charCode c <=? 90).
Definition isDigit (c : ascii) : bool := (48 <=? charCode c) && (charCode c <=? 57).

Fixpoint forallb_string (p : ascii -> bool) (s : string) : bool :=
  match s with
  | EmptyString => true
  | String c s' => p c && forallb_string p s'
  end.

(** The longest prefix whose characters satisfy [p], and what follows it. *)
Fixpoint span (p : ascii -> bool) (s : string) : string * string :=
  match s with
  | EmptyString => (EmptyString, EmptyString)
  | String c s' =>
      if p c then let (a, b) := span p s' in (String c a, b)
      else (EmptyString, s)
  end.

Definition isEmptyString (s : string) : bool :=
  match s with EmptyString => true | _ => false end.

(** [String(n)] for an integer [n]: its decimal digits, most significant
    first, after a minus sign when it is negative. This is the text the
    code writes for the integers of magnitude up to [2^53]; for the other
    doubles (shortest numeral, exponent form from [10^21]) see
    [Doubles.numberToString]. *)
Equations? digitsOf (n : Z) (acc : string) : string by wf (Z.to_nat n) lt :=
  digitsOf n acc with Z_lt_dec n 10 => {
    | left _ := String (fromCharCode (48 + n)) acc;
    | right _ := digitsOf (n / 10) (String (fromCharCode (48 + Z.rem n 10)) acc) }.
Proof.
  assert (0 <= n / 10 < n) by (split; [apply Z.div_pos | apply Z.div_lt]; lia).
  lia.
Qed.

Definition numberToString (n : Z) : string :=
  if n <? 0 then String "-" (digitsOf (- n) "") else digitsOf n "".

(** [parseInt(s, 10)] on a string of decimal digits (the only strings the
    code passes to it: the second group of the A1 pattern), in exact
    arithmetic. The code returns this integer rounded to a double
    ([Doubles.parseInt10]): the same number up to [2^53]. *)
Fixpoint parseDigits (s : string) (acc : Z) : Z :=
  match s with
  | EmptyString => acc
  | String c s' => parseDigits s' (acc * 10 + (charCode c - 48))
  end.

Definition parseInt10 (s : string) : Z := parseDigits s 0.

Module SheetsUtils.

(** The two [Error]s the coordinate functions throw, told apart by their
    message: [`Invalid A1 notation: ${a1}`] and
    [`Invalid range format: ${range}`]. *)
Inductive Error : Type :=
| InvalidA1Notation (a1 : string)
| InvalidRangeFormat (range : string).

Record RowCol : Type := mkRowCol { row : Z; col : Z }.

(** [a1.match(/^([A-Z]+)([0-9]+)$/)]: the two groups when the whole string
    is one or more capitals followed by one or more digits. The classes are
    disjoint, so the first group is the longest run of capitals. *)
Definition matchA1 (a1 : string) : option (string * string) :=
  let (colStr, rowStr) := span isUpper a1 in
  if negb (isEmptyString colStr) && negb (isEmptyString rowStr)
     && forallb_string isDigit rowStr
  then Some (colStr, rowStr) else None.

(** The loop [col = col * 26 + (colStr.charCodeAt(i) - 64)], in exact
    arithmetic: what the code computes as long as the column stays within
    [2^53] ([Doubles.colOfLetters] rounds each step). *)
Fixpoint colOfLetters (colStr : string) (col : Z) : Z :=
  match colStr with
  | EmptyString => col
  | String c rest => colOfLetters rest (col * 26 + (charCode c - 64))
  end.

Definition a1ToRowCol (a1 : string) : result Error RowCol :=
  match matchA1 a1 with
  | None => Err (InvalidA1Notation a1)
  | Some (colStr, rowStr) =>
      Ok {| row := parseInt10 rowStr; col := colOfLetters colStr 0 |}
  end.

(** The loop [while (col > 0) { col--; colStr = letter + colStr;
    col = Math.floor(col / 26) }], in exact arithmetic: what the code
    computes for a column up to [2^53] ([Doubles.lettersOfCol] rounds each
    step). *)
Equations? lettersOfCol (col : Z) (colStr : string) : string by wf (Z.to_nat col) lt :=
  lettersOfCol col colStr with Z_gt_dec col 0 => {
    | left _ :=
        lettersOfCol ((col - 1) / 26)
          (String (fromCharCode (65 + Z.rem (col - 1) 26)) colStr);
    | right _ := colStr }.
Proof.
  match goal with
  | |- context [ ?a / 26 ] =>
      assert (0 <= a / 26 <= a)
        by (split; [apply Z.div_pos | apply Z.div_le_upper_bound]; lia)
  end.
  lia.
Qed.

Definition rowColToA1 (row col : Z) : string :=
  (lettersOfCol col "" ++ numberToString row)%string.

(** [range.split(':')]: the pieces between the separators; never empty. *)
Fixpoint split (sep : ascii) (s : string) : list string :=
  match s with
  | EmptyString => [EmptyString]
  | String c s' =>
      if Ascii.eqb c sep then EmptyString :: split sep s'
      else match split sep s' with
           | piece :: pieces => String c piece :: pieces
           | [] => [String c EmptyString]
           end
  end.

(** How many times the separator occurs. *)
Fixpoint countChar (sep : ascii) (s : string) : nat :=
  match s with
  | EmptyString => 0
  | String c s' => (if Ascii.eqb c sep then 1 else 0) + countChar sep s'
  end.

Record Range : Type :=
  mkRange { startRow : Z; endRow : Z; startCol : Z; endCol : Z }.

Definition parseRange (range : string) : result Error Range :=
  match split ":" range with
  | [part0; part1] =>
      if isEmptyString part0 || isEmptyString part1
      then Err (InvalidRangeFormat range)
      else
        do start <- a1ToRowCol part0;
        do end_ <- a1ToRowCol part1;
        Ok {| startRow := row start; endRow := row end_;
              startCol := col start; endCol := col end_ |}
  | _ => Err (InvalidRangeFormat range)
  end.

Definition isValidRange (range : string) : bool :=
  match parseRange range with Ok _ => true | Err _ => false end.

(** [createSheetRange(sheetName, range?)]: [if (range)] holds for a string
    that is present and not empty. *)
Definition createSheetRange (sheetName : string) (range : option string) : string :=
  match range with
  | Some (String c r) => (sheetName ++ "!" ++ String c r)%string
  | Some EmptyString | None => sheetName
  end.

Definition notBang (c : ascii) : bool := negb (Ascii.eqb c "!").

(** [range.match(/^([^!]+)!/)] and then [match?.[1] || null]: the longest
    run of characters other than ['!'] at the start, when it is not empty
    and a ['!'] follows it. *)
Definition extractSheetName (range : string) : option string :=
  match span notBang range with
  | (String c name, String "!" _) => Some (String c name)
  | _ => None
  end.

End SheetsUtils.

(** [s.includes(sub)]: [sub] occurs in [s] at some position. *)
Fixpoint includes (s sub : string) : bool :=
  prefix sub s ||
  match s with
  | EmptyString => false
  | String _ s' => includes s' sub
  end.

(** ** Retry executor ([src/utils/retry-utils.ts]) *)

Module RetryUtil.

Record RetryConfig : Type := mkRetryConfig {
  maxRetries : Z;
  baseDelay : Z;
  maxDelay : Z;
  backoffMultiplier : Z
}.

Definition DEFAULT_RETRY_CONFIG : RetryConfig :=
  {| maxRetries := 3; baseDelay := 1000; maxDelay := 10000; backoffMultiplier := 2 |}.

(** What [isRetryableError] reads of a thrown value: its [code], [status],
    [statusCode] and [message] properties when present, and whether it is an
    instance of [RetryableError]. *)
Record JsError : Type := mkJsError {
  code : option string;
  status : option Z;
  statusCode : option Z;
  message : option string;
  instanceofRetryableError : bool
}.

(** Truthiness of a numeric property: present and not [0]. *)
Definition truthyNumber (n : option Z) : bool :=
  match n with
  | Some z => negb (z =? 0)
  | None => false
  end.

(** [a || b] on numeric properties. *)
Definition orNumber (a b : option Z) : option Z :=
  if truthyNumber a then a else b.

Definition codeIs (error : JsError) (c : string) : bool :=
  match code error with
  | Some c' => String.eqb c' c
  | None => false
  end.

(** [error.message?.includes(sub)]; [undefined] is falsy. *)
Definition messageIncludes (error : JsError) (sub : string) : bool :=
  match message error with
  | Some m => includes m sub
  | None => false
  end.

Definition isRetryableError (error : JsError) : bool :=
  if codeIs error "ECONNRESET" || codeIs error "ENOTFOUND" || codeIs error "ETIMEDOUT"
  then true
  else if truthyNumber (orNumber (status error) (statusCode error))
  then match orNumber (status error) (statusCode error) with
       | Some status => (status >=? 500) || (status =? 429)
       | None => false
       end
  else if messageIncludes error "quota" || messageIncludes error "rate limit"
  then true
  else if instanceofRetryableError error
  then true
  else false.

(** The errors that carry none of the retry signals: no transient network
    code, no status (under either property name) that is a server error
    ([>= 500], as the code reads 5xx) or 429, no quota or rate-limit
    message, and not a [RetryableError]. *)
Definition noRetrySignal (error : JsError) : Prop :=
  code error <> Some "ECONNRESET"
  /\ code error <> Some "ENOTFOUND"
  /\ code error <> Some "ETIMEDOUT"
  /\ (forall s, status error = Some s \/ statusCode error = Some s ->
                s < 500 /\ s <> 429)
  /\ messageIncludes error "quota" = false
  /\ messageIncludes error "rate limit" = false
  /\ instanceofRetryableError error = false.

(** [Math.min(baseDelay * Math.pow(backoffMultiplier, attempt), maxDelay)],
    in exact arithmetic. *)
Definition calculateDelay (attempt : Z) (config : RetryConfig) : Z :=
  let delay := baseDelay config * Z.pow (backoffMultiplier config) attempt in
  Z.min delay (maxDelay config).

(** [calculateDelay] computes in doubles: [Math.pow] returns the power
    itself when that is an integer a double holds exactly, and so does the
    product with [baseDelay]. Up to [2^53] in magnitude every integer is
    such a double, and there the exact arithmetic of the embedding is the
    code's. *)
Definition exactDelay (config : RetryConfig) (attempt : Z) : Prop :=
  Z.abs (backoffMultiplier config ^ attempt) <= 2 ^ 53
  /\ Z.abs (baseDelay config * backoffMultiplier config ^ attempt) <= 2 ^ 53.

(** How a call of [executeWithRetry] ends: it returns the operation's
    value, or throws an error, or ([throw lastError!] with [lastError] never
    assigned) throws [undefined]. *)
Inductive Outcome (T : Type) : Type :=
| Returned (v : T)
| Thrown (e : JsError)
| ThrownUndefined.
Arguments Returned {T} v.
Arguments Thrown {T} e.
Arguments ThrownUndefined {T}.

(** A finished run: the outcome, how many times the operation was invoked,
    and the delays passed to [sleep], in order. *)
Record Run (T : Type) : Type := mkRun {
  outcome : Outcome T;
  invocations : nat;
  sleeps : list Z
}.
Arguments mkRun {T}.
Arguments outcome {T}.
Arguments invocations {T}.
Arguments sleeps {T}.

Definition throwLast {T} (lastError : option JsError) : Outcome T :=
  match lastError with
  | Some e => Thrown e
  | None => ThrownUndefined
  end.

Section Executor.
Context {T : Type}.
(** The operation: what its [k]-th invocation (counting from 0) does. *)
Variable fn : nat -> result JsError T.
Variable retryConfig : RetryConfig.

(** The [for (attempt = 0; attempt <= maxRetries; attempt++)] loop, from
    an arbitrary [attempt]; [calls] and [slept] record what has happened
    so far. *)
Equations? retryLoop (attempt : Z) (lastError : option JsError)
    (calls : nat) (slept : list Z) : Run T
    by wf (Z.to_nat (maxRetries retryConfig + 1 - attempt)) lt :=
  retryLoop attempt lastError calls slept
    with Z_le_dec attempt (maxRetries retryConfig) => {
    | right _ := mkRun (throwLast lastError) calls slept;
    | left _ with fn calls => {
      | Ok v := mkRun (Returned v) (S calls) slept;
      | Err error with Z.eq_dec attempt (maxRetries retryConfig) => {
        | left _ := mkRun (throwLast (Some error)) (S calls) slept;
        | right _ with isRetryableError error => {
          | false := mkRun (Thrown error) (S calls) slept;
          | true :=
              retryLoop (attempt + 1) (Some error) (S calls)
                (slept ++ [calculateDelay attempt retryConfig]) } } } }.
Proof. lia. Qed.

Definition executeWithRetry : Run T := retryLoop 0 None 0%nat [].
End Executor.

(** Sample errors and configurations, used in the examples below. *)
Definition serverError : JsError :=
  {| code := None; status := Some 503; statusCode := None;
     message := Some "Service Unavailable"; instanceofRetryableError := false |}.

Definition twoRetries : RetryConfig :=
  {| maxRetries := 2; baseDelay := 1000; maxDelay := 10000; backoffMultiplier := 2 |}.

Definition validationError : JsError :=
  {| code := Some "VALIDATION_ERROR"; status := None; statusCode := Some 400;
     message := Some "Validation error: bad input"; instanceofRetryableError := false |}.

Definition zeroMultiplier : RetryConfig :=
  {| maxRetries := 3; baseDelay := 1000; maxDelay := 10000; backoffMultiplier := 0 |}.

(** ** Rate limiter *)

Record RateLimiter : Type := mkRateLimiter {
  requests : list Z;
  maxRequests : Z;
  windowMs : Z
}.

(** [Math.min(...xs)]; [None] stands for [Infinity], the minimum of no
    numbers. *)
Fixpoint minimum (xs : list Z) : option Z :=
  match xs with
  | [] => None
  | x :: xs' =>
      match minimum xs' with
      | None => Some x
      | Some m => Some (Z.min x m)
      end
  end.

(** One pass of [checkRateLimit] at clock reading [now]: either the request
    is recorded, or the caller sleeps and the check is run again. *)
Inductive Step : Type :=
| Recorded (rl : RateLimiter)
| Sleep (waitTime : option Z) (rl : RateLimiter).

(** The predicate of the filter: [time => now - time < this.windowMs]. *)
Definition keep (windowMs now : Z) (time : Z) : bool := now - time <? windowMs.

Definition checkOnce (rl : RateLimiter) (now : Z) : Step :=
  let kept := filter (keep (windowMs rl) now) (requests rl) in
  let rl' := {| requests := kept; maxRequests := maxRequests rl; windowMs := windowMs rl |} in
  let recorded :=
    Recorded {| requests := kept ++ [now];
                maxRequests := maxRequests rl; windowMs := windowMs rl |} in
  if Z.of_nat (List.length kept) >=? maxRequests rl then
    match minimum kept with
    | None => Sleep None rl'
    | Some oldestRequest =>
        let waitTime := windowMs rl - (now - oldestRequest) in
        if waitTime >? 0 then Sleep (Some waitTime) rl' else recorded
    end
  else recorded.

(** [checkRateLimit]: [clock] lists the successive readings of [Date.now()],
    one per pass. The result is the limiter after the admission, the
    admission time, the sleeps of this call and the readings not consumed;
    [None] when the readings run out with the caller still suspended. *)
Fixpoint checkRateLimit (rl : RateLimiter) (clock : list Z)
    : option (RateLimiter * Z * list (option Z) * list Z) :=
  match clock with
  | [] => None
  | now :: later =>
      match checkOnce rl now with
      | Recorded rl' => Some (rl', now, [], later)
      | Sleep waitTime rl' =>
          match checkRateLimit rl' later with
          | Some (rl'', t, waits, rest) => Some (rl'', t, waitTime :: waits, rest)
          | None => None
          end
      end
  end.

(** [new RateLimiter(maxRequests, windowMs)]. *)
Definition newRateLimiter (maxRequests windowMs : Z) : RateLimiter :=
  {| requests := []; maxRequests := maxRequests; windowMs := windowMs |}.

(** [n] calls of [checkRateLimit] on one limiter, one after the other (each
    check runs to its admission before the next starts), reading the clock
    in turn. The result is the limiter and the admission times, in order;
    the calls stop early if the readings run out. *)
Fixpoint serve (n : nat) (rl : RateLimiter) (clock : list Z) : RateLimiter * list Z :=
  match n with
  | O => (rl, [])
  | S n' =>
      match checkRateLimit rl clock with
      | None => (rl, [])
      | Some (rl', t, _, rest) =>
          let (rl'', admitted) := serve n' rl' rest in (rl'', t :: admitted)
      end
  end.

(** The clock never runs backwards: the readings, none before [lo], are
    non-decreasing. *)
Fixpoint nondecreasingFrom (lo : Z) (clock : list Z) : Prop :=
  match clock with
  | [] => True
  | t :: later => lo <= t /\ nondecreasingFrom t later
  end.

(** A rolling window of length [windowMs], as the set of instants it
    covers: any two of them are less than [windowMs] apart. *)
Definition rollingWindow (windowMs : Z) (covers : Z -> bool) : Prop :=
  forall x y, covers x = true -> covers y = true -> y - x < windowMs.

(** The windows (s - windowMs, s] and [s, s + windowMs). *)
Definition windowUpTo (windowMs s : Z) (t : Z) : bool :=
  (s - windowMs <? t) && (t <=? s).

Definition windowFrom (windowMs s : Z) (t : Z) : bool :=
  (s <=? t) && (t <? s + windowMs).

(** How many of the admissions [admitted] fall in a window. *)
Definition admissionsIn (covers : Z -> bool) (admitted : list Z) : nat :=
  List.length (filter covers admitted).

(** The invariant of a limiter configured with [maxReq] and [window]: what
    it remembers agrees, for every clock reading from [lo] on, with the whole
    history of its admissions, and no rolling window holds more than
    [maxReq] admissions of the history. *)
Definition coherent (maxReq window : Z) (rl : RateLimiter) (history : list Z)
    (lo : Z) : Prop :=
  maxRequests rl = maxReq /\ windowMs rl = window
  /\ (forall now, lo <= now ->
        filter (keep window now) (requests rl) = filter (keep window now) history)
  /\ (forall covers, rollingWindow window covers ->
        Z.of_nat (admissionsIn covers history) <= maxReq).

End RetryUtil.

(** ** Cell values and their text *)

(** A cell of the grid returned by the Sheets API ([any] in the source):
    a string, a number (integers here), a boolean, or nothing. *)
Inductive CellValue : Type :=
| VUndefined
| VNull
| VString (s : string)
| VNumber (n : Z)
| VBoolean (b : bool).

(** JavaScript truthiness, as tested by [cellValue &&] and [!cellValue]. *)
Definition truthy (v : CellValue) : bool :=
  match v with
  | VUndefined | VNull => false
  | VString s => negb (isEmptyString s)
  | VNumber n => negb (n =? 0)
  | VBoolean b => b
  end.

(** [String(v)]. *)
Definition toText (v : CellValue) : string :=
  match v with
  | VUndefined => "undefined"
  | VNull => "null"
  | VString s => s
  | VNumber n => numberToString n
  | VBoolean true => "true"
  | VBoolean false => "false"
  end.

(** [toLowerCase] on one character: the capitals A-Z and, in the Latin-1
    supplement, U+00C0-U+00DE except the multiplication sign. *)
Definition lowerChar (c : ascii) : ascii :=
  let n := charCode c in
  if ((65 <=? n) && (n <=? 90))
     || ((192 <=? n) && (n <=? 222) && negb (n =? 215))
  then fromCharCode (n + 32) else c.

Fixpoint toLowerCase (s : string) : string :=
  match s with
  | EmptyString => EmptyString
  | String c s' => String (lowerChar c) (toLowerCase s')
  end.

(** ** Literal regular expressions and [String.prototype.replace] *)

(** The characters of the class [[.*+?^${}()|[\]\\]]. *)
Definition isRegExpSpecial (c : ascii) : bool :=
  existsb (Ascii.eqb c)
    ["."; "*"; "+"; "?"; "^"; "$"; "{"; "}"; "("; ")"; "|"; "["; "]"; "\"]%char.

(** [findText.replace(/[.*+?^${}()|[\]\\]/g, '\\$&')]: a backslash before
    every special character. *)
Fixpoint escapeRegExp (s : string) : string :=
  match s with
  | EmptyString => EmptyString
  | String c s' =>
      if isRegExpSpecial c then String "\" (String c (escapeRegExp s'))
      else String c (escapeRegExp s')
  end.

(** A pattern in which every special character is escaped is a sequence of
    atoms, each matching one character: [\c] matches [c], any other
    character matches itself. [patternAtoms] lists the characters to match. *)
Fixpoint patternAtoms (source : string) : string :=
  match source with
  | EmptyString => EmptyString
  | String "\" (String c rest) => String c (patternAtoms rest)
  | String c rest => String c (patternAtoms rest)
  end.

(** Canonicalization of the [i] flag (no [u] flag): the upper-case mapping
    of a code unit when that is a single code unit; the result may lie
    outside Latin-1 (micro sign, y with diaeresis). *)
Definition canonicalize (c : ascii) : Z :=
  let n := charCode c in
  if ((97 <=? n) && (n <=? 122))
     || ((224 <=? n) && (n <=? 254) && negb (n =? 247))
  then n - 32
  else if n =? 181 then 924
  else if n =? 255 then 376
  else n.

Definition charMatches (ignoreCase : bool) (p c : ascii) : bool :=
  if ignoreCase then canonicalize p =? canonicalize c else Ascii.eqb p c.

(** Does the literal [atoms] match at the start of [s]? *)
Fixpoint matchesAtStart (ignoreCase : bool) (atoms s : string) : bool :=
  match atoms, s with
  | EmptyString, _ => true
  | String p atoms', String c s' =>
      charMatches ignoreCase p c && matchesAtStart ignoreCase atoms' s'
  | String _ _, EmptyString => false
  end.

(** The replacement text of one match (GetSubstitution, for a pattern
    without capture groups): [$$] is a dollar, [$&] the match, [$`] the text
    before the match and [$'] the text after it; anything else is literal. *)
Fixpoint getSubstitution (replacement matched before after : string) : string :=
  match replacement with
  | EmptyString => EmptyString
  | String "$" (String "$" rest) =>
      String "$" (getSubstitution rest matched before after)
  | String "$" (String "&" rest) =>
      (matched ++ getSubstitution rest matched before after)%string
  | String "$" (String "`" rest) =>
      (before ++ getSubstitution rest matched before after)%string
  | String "$" (String "'" rest) =>
      (after ++ getSubstitution rest matched before after)%string
  | String c rest => String c (getSubstitution rest matched before after)
  end.

(** [s.replace(re, replacement)] for a global literal [re]: scanning from
    the left, each match found after the end of the previous one is
    replaced by its substitution; an empty match is followed by a step of one
    character. [before] is the text already scanned and [skip] the number of
    characters of the current match still to pass over. *)
Fixpoint replaceFrom (ignoreCase : bool) (atoms replacement : string)
    (before : string) (skip : nat) (s : string) {struct s} : string :=
  match skip with
  | S k =>
      match s with
      | EmptyString => EmptyString
      | String c s' =>
          replaceFrom ignoreCase atoms replacement (before ++ String c "") k s'
      end
  | O =>
      if matchesAtStart ignoreCase atoms s then
        let n := String.length atoms in
        let matched := substring 0 n s in
        let after := substring n (String.length s - n) s in
        (getSubstitution replacement matched before after ++
         match s with
         | EmptyString => EmptyString
         | String c s' =>
             ((if Nat.eqb n 0 then String c "" else "") ++
              replaceFrom ignoreCase atoms replacement (before ++ String c "")
                (n - 1) s')
         end)%string
      else
        match s with
        | EmptyString => EmptyString
        | String c s' =>
            String c (replaceFrom ignoreCase atoms replacement
                        (before ++ String c "") 0 s')
        end
  end.

Record RegExp : Type := mkRegExp { source : string; ignoreCase : bool }.

Definition replaceRegExp (s : string) (re : RegExp) (replacement : string) : string :=
  replaceFrom (ignoreCase re) (patternAtoms (source re)) replacement "" 0 s.

(** [s.replace(/[0-9]/g, '')]. *)
Fixpoint removeDigits (s : string) : string :=
  match s with
  | EmptyString => EmptyString
  | String c s' => if isDigit c then removeDigits s' else String c (removeDigits s')
  end.

(** ** Search and smart replace ([src/services/google-sheets-service.ts]) *)

Module GoogleSheetsService.
Import SheetsUtils.

Definition Grid : Type := list (list CellValue).

Record SearchResult : Type := mkSearchResult {
  cell : string;
  value : CellValue;
  row : Z;
  column : Z;
  sheetName : string
}.

(** [searchColumns && searchColumns.length > 0] and then
    [!searchColumns.includes(columnLetter)]: is the column filtered out? *)
Definition columnSkipped (searchColumns : option (list string)) (colIndex : Z) : bool :=
  match searchColumns with
  | Some (c :: cs) =>
      let columnLetter := removeDigits (rowColToA1 1 (colIndex + 1)) in
      negb (existsb (String.eqb columnLetter) (c :: cs))
  | Some [] | None => false
  end.

Section Search.
Variable sheet : string.
Variable searchText : string.
Variable searchColumns : option (list string).

(** The inner loop, from column [colIndex] on. *)
Fixpoint searchRow (rowIndex colIndex : Z) (cells : list CellValue)
    : list SearchResult :=
  match cells with
  | [] => []
  | cellValue :: cells' =>
      let found :=
        if columnSkipped searchColumns colIndex then []
        else if truthy cellValue
                && includes (toLowerCase (toText cellValue)) (toLowerCase searchText)
        then [ {| cell := rowColToA1 (rowIndex + 1) (colIndex + 1);
                  value := cellValue;
                  row := rowIndex + 1;
                  column := colIndex + 1;
                  sheetName := sheet |} ]
        else [] in
      found ++ searchRow rowIndex (colIndex + 1) cells'
  end.

(** The outer loop, from row [rowIndex] on. *)
Fixpoint searchRows (rowIndex : Z) (data : Grid) : list SearchResult :=
  match data with
  | [] => []
  | cells :: data' => searchRow rowIndex 0 cells ++ searchRows (rowIndex + 1) data'
  end.

(** The body of [search], given the grid that [readData] returned. *)
Definition search (data : Grid) : list SearchResult := searchRows 0 data.
End Search.

(** An entry of [replacements]; [cellRef] is its field [cell]. *)
Record Replacement : Type := mkReplacement {
  cellRef : string;
  originalValue : string;
  newValue : string
}.

Record SmartReplaceResult : Type := mkSmartReplaceResult {
  modifiedCells : Z;
  replacements : list Replacement
}.

(** What the body of [smartReplace] can throw: an error of [parseRange], or
    whatever a failed [updateCell] throws. *)
Inductive ReplaceError (W : Type) : Type :=
| RangeError (e : SheetsUtils.Error)
| WriteError (w : W).
Arguments RangeError {W} e.
Arguments WriteError {W} w.

(** The condition of the [continue]: the 1-based position lies outside the
    parsed rectangle. *)
Definition outsideRange (parsedRange : Range) (row col : Z) : bool :=
  (row <? startRow parsedRange) || (row >? endRow parsedRange)
  || (col <? startCol parsedRange) || (col >? endCol parsedRange).

Section SmartReplace.
Context {W : Type}.
(** [updateCell]: the [k]-th write of the call, of [newValue] to [cellRef],
    succeeds ([None]) or throws. *)
Variable updateCell : nat -> string -> string -> option W.
Variable findText replaceText : string.
Variable range : option string.
Variable matchCase matchEntireCell : bool.

Definition searchText : string :=
  if matchCase then findText else toLowerCase findText.

(** The test [if (range) { ... continue; }]: [Ok false] when the cell is
    skipped. An empty [range] is falsy. *)
Definition insideRange (rowIndex colIndex : Z) : result SheetsUtils.Error bool :=
  match range with
  | Some (String c r) =>
      do parsedRange <- parseRange (String c r);
      Ok (negb (outsideRange parsedRange (rowIndex + 1) (colIndex + 1)))
  | Some EmptyString | None => Ok true
  end.

(** The test that sets [shouldReplace]: equality with [matchEntireCell],
    containment without, on the texts folded to lower case unless
    [matchCase]. *)
Definition cellMatches (cellValue : CellValue) : bool :=
  let cellText :=
    if matchCase then toText cellValue else toLowerCase (toText cellValue) in
  if matchEntireCell then String.eqb cellText searchText
  else includes cellText searchText.

(** What the loop body decides for one cell: nothing ([continue], or
    [shouldReplace] false), a replacement, or a thrown error. *)
Definition cellReplacement (rowIndex colIndex : Z) (cellValue : CellValue)
    : result SheetsUtils.Error (option Replacement) :=
  if negb (truthy cellValue) then Ok None
  else
    let cellText :=
      if matchCase then toText cellValue else toLowerCase (toText cellValue) in
    let ref := rowColToA1 (rowIndex + 1) (colIndex + 1) in
    do inside <- insideRange rowIndex colIndex;
    if negb inside then Ok None
    else if matchEntireCell then
      if String.eqb cellText searchText
      then Ok (Some {| cellRef := ref; originalValue := toText cellValue;
                       newValue := replaceText |})
      else Ok None
    else
      if includes cellText searchText
      then Ok (Some {| cellRef := ref; originalValue := toText cellValue;
                       newValue :=
                         replaceRegExp (toText cellValue)
                           {| source := escapeRegExp findText;
                              ignoreCase := negb matchCase |}
                           replaceText |})
      else Ok None.

(** The state of the scan: the replacements pushed and the writes issued
    so far (oldest first), and the error that stopped it, if any. *)
Record Scan : Type := mkScan {
  pushed : list Replacement;
  writes : list (string * string);
  thrown : option (ReplaceError W)
}.

Definition stepCell (rowIndex colIndex : Z) (cellValue : CellValue) (st : Scan) : Scan :=
  match cellReplacement rowIndex colIndex cellValue with
  | Err e => {| pushed := pushed st; writes := writes st;
                thrown := Some (RangeError e) |}
  | Ok None => st
  | Ok (Some r) =>
      {| pushed := pushed st ++ [r];
         writes := writes st ++ [(cellRef r, newValue r)];
         thrown :=
           match updateCell (List.length (writes st)) (cellRef r) (newValue r) with
           | Some w => Some (WriteError w)
           | None => None
           end |}
  end.

(** The scan states in which every write is the write of a pushed
    replacement. *)
Definition writesFollowPushed (st : Scan) : Prop :=
  writes st = map (fun r => (cellRef r, newValue r)) (pushed st).

Fixpoint replaceRow (rowIndex colIndex : Z) (cells : list CellValue) (st : Scan) : Scan :=
  match cells with
  | [] => st
  | cellValue :: cells' =>
      let st' := stepCell rowIndex colIndex cellValue st in
      match thrown st' with
      | Some _ => st'
      | None => replaceRow rowIndex (colIndex + 1) cells' st'
      end
  end.

Fixpoint replaceRows (rowIndex : Z) (data : Grid) (st : Scan) : Scan :=
  match data with
  | [] => st
  | cells :: data' =>
      let st' := replaceRow rowIndex 0 cells st in
      match thrown st' with
      | Some _ => st'
      | None => replaceRows (rowIndex + 1) data' st'
      end
  end.

(** The body of [smartReplace], given the grid that [readData] returned:
    the writes it issued, and its result or the error it threw. *)
Definition smartReplace (data : Grid)
    : list (string * string) * result (ReplaceError W) SmartReplaceResult :=
  let st := replaceRows 0 data {| pushed := []; writes := []; thrown := None |} in
  (writes st,
   match thrown st with
   | Some e => Err e
   | None => Ok {| modifiedCells := Z.of_nat (List.length (pushed st));
                   replacements := pushed st |}
   end).
End SmartReplace.

End GoogleSheetsService.

(** ** More of [src/utils/retry-utils.ts] *)

Module RetryUtilMore.
Import RetryUtil.

(** [new APIQuotaExceededError()]: the message, code and status code that
    its constructor passes to [GoogleSheetsMCPError]; it has no [status]
    property and is not a [RetryableError]. *)
Definition apiQuotaExceededError : JsError :=
  {| code := Some "API_QUOTA_EXCEEDED"; status := None; statusCode := Some 429;
     message := Some "Google API quota exceeded"; instanceofRetryableError := false |}.

(** [handleQuotaError] never returns: the result is the value it throws. *)
Definition handleQuotaError (error : JsError) : JsError :=
  if messageIncludes error "quota" || messageIncludes error "rate limit"
  then apiQuotaExceededError
  else error.

(** The time a run spends in [sleep]. *)
Definition totalSleep {T : Type} (run : Run T) : Z :=
  fold_right Z.add 0 (sleeps run).

(** The delays of the first [k] retries. *)
Definition firstDelays (config : RetryConfig) (k : nat) : list Z :=
  map (fun i => calculateDelay (Z.of_nat i) config) (seq 0 k).

End RetryUtilMore.

(** ** More of [src/utils/sheets-utils.ts] *)

Module SheetsUtilsMore.
Import SheetsUtils.

(** The class [[a-zA-Z0-9-_]]: after the range [0-9] the dash is a literal
    character. *)
Definition isIdChar (c : ascii) : bool :=
  let n := charCode c in
  ((97 <=? n) && (n <=? 122)) || ((65 <=? n) && (n <=? 90))
  || ((48 <=? n) && (n <=? 57)) || (n =? 45) || (n =? 95).

(** [/^[a-zA-Z0-9-_]+$/.test(input)]. *)
Definition isIdFormat (input : string) : bool :=
  negb (isEmptyString input) && forallb_string isIdChar input.

(** [s.slice(n)] on a string, for [n] within its length. *)
Fixpoint dropChars (n : nat) (s : string) : string :=
  match n, s with
  | O, _ => s
  | S n', String _ s' => dropChars n' s'
  | S _, EmptyString => EmptyString
  end.

(** [input.match(/LITERAL([a-zA-Z0-9-_]+)/)] and then [match[1]]: at the
    leftmost position where the literal is followed by an ID character, the
    longest run of ID characters after it. *)
Fixpoint matchIdAfter (literal : string) (input : string) : option string :=
  let here :=
    if prefix literal input
    then match span isIdChar (dropChars (String.length literal) input) with
         | (String c run, _) => Some (String c run)
         | (EmptyString, _) => None
         end
    else None in
  match here with
  | Some id => Some id
  | None =>
      match input with
      | EmptyString => None
      | String _ rest => matchIdAfter literal rest
      end
  end.

(** The literals of [urlPatterns], in order. *)
Definition urlPatterns : list string := ["/spreadsheets/d/"; "/d/"; "id="].

(** The [for (const pattern of urlPatterns)] loop. *)
Fixpoint firstUrlMatch (patterns : list string) (input : string) : option string :=
  match patterns with
  | [] => None
  | pattern :: rest =>
      match matchIdAfter pattern input with
      | Some id => Some id
      | None => firstUrlMatch rest input
      end
  end.

(** The [Error] of [extractSpreadsheetId]:
    [`Invalid spreadsheet ID or URL: ${input}`]. *)
Inductive IdError : Type :=
| InvalidSpreadsheetId (input : string).

Definition extractSpreadsheetId (input : string) : result IdError string :=
  if isIdFormat input then Ok input
  else match firstUrlMatch urlPatterns input with
       | Some id => Ok id
       | None => Err (InvalidSpreadsheetId input)
       end.

(** [data[0]?.length || 0]. *)
Definition firstRowLength {A : Type} (data : list (list A)) : Z :=
  match data with
  | [] => 0
  | first :: _ => Z.of_nat (List.length first)
  end.

Definition expandRangeToData {A : Type} (range : string) (data : list (list A))
    : result Error string :=
  match data with
  | [] => Ok range
  | _ :: _ =>
      do parsed <- parseRange range;
      let actualRows := Z.of_nat (List.length data) in
      let actualCols := firstRowLength data in
      let startCell := rowColToA1 (startRow parsed) (startCol parsed) in
      let endCell :=
        rowColToA1 (startRow parsed + actualRows - 1)
                   (startCol parsed + actualCols - 1) in
      Ok (startCell ++ ":" ++ endCell)%string
  end.

(** [array.reduce((acc, curr) => acc.concat(curr), [])]. *)
Definition flattenArray {A : Type} (array : list (list A)) : list A :=
  fold_left (fun acc curr => (acc ++ curr)%list) array [].

(** [array.slice(start, end)]: a negative index counts from the end, and
    both are clamped to the array. *)
Definition sliceIndex (len k : Z) : Z :=
  if k <? 0 then Z.max (len + k) 0 else Z.min k len.

Definition slice {A : Type} (array : list A) (start end_ : Z) : list A :=
  let len := Z.of_nat (List.length array) in
  let from := sliceIndex len start in
  let to := sliceIndex len end_ in
  firstn (Z.to_nat (to - from)) (skipn (Z.to_nat from) array).

(** The loop [for (let i = 0; i < array.length; i += chunkSize)] of
    [chunkArray], from index [i] with the chunks pushed so far. The loop
    need not end: [turns] bounds the number of turns taken, and the result is
    [None] when the loop is still running after that many. *)
Fixpoint chunkLoop {A : Type} (turns : nat) (array : list A) (chunkSize i : Z)
    (chunks : list (list A)) : option (list (list A)) :=
  if i <? Z.of_nat (List.length array) then
    match turns with
    | O => None
    | S turns' =>
        chunkLoop turns' array chunkSize (i + chunkSize)
          (chunks ++ [slice array i (i + chunkSize)])%list
    end
  else Some chunks.

Definition chunkArray {A : Type} (turns : nat) (array : list A) (chunkSize : Z)
    : option (list (list A)) :=
  chunkLoop turns array chunkSize 0 [].

End SheetsUtilsMore.

(** [isEmpty(value)]: [null], [undefined] or the empty string. *)
Definition isEmpty (value : CellValue) : bool :=
  match value with
  | VNull | VUndefined => true
  | VString s => isEmptyString s
  | VNumber _ | VBoolean _ => false
  end.

(** ** Orders and outcomes used to describe the service *)

Module GoogleSheetsServiceMore.
Import GoogleSheetsService.

(** Row-major order on the positions of matches. *)
Definition rowMajorBefore (m1 m2 : SearchResult) : Prop :=
  row m1 < row m2 \/ (row m1 = row m2 /\ column m1 < column m2).

(** Each match comes before all the later ones. *)
Fixpoint ascending (matches : list SearchResult) : Prop :=
  match matches with
  | [] => True
  | m :: later => Forall (rowMajorBefore m) later /\ ascending later
  end.

Section Writes.
Context {W : Type}.
Variable updateCell : nat -> string -> string -> option W.

(** The [k]-th write of a scan was answered by [answer]. *)
Definition writeAnswered (st : Scan (W:=W)) (k : nat) (answer : option W) : Prop :=
  exists ref value,
    nth_error (writes st) k = Some (ref, value) /\ updateCell k ref value = answer.

(** The writes of a scan and the way it stopped fit together: every write
    but a failed last one succeeded, and a scan stopped by a failed write
    has that write as its last. *)
Definition writesAnswered (st : Scan (W:=W)) : Prop :=
  match thrown st with
  | Some (WriteError w) =>
      exists k, List.length (writes st) = S k
                /\ writeAnswered st k (Some w)
                /\ forall j, (j < k)%nat -> writeAnswered st j None
  | Some (RangeError _) | None =>
      forall j, (j < List.length (writes st))%nat -> writeAnswered st j None
  end.
End Writes.

(** The folding of case that the containment test applies to both texts:
    none with [matchCase], [toLowerCase] without. *)
Definition foldCase (matchCase : bool) (s : string) : string :=
  if matchCase then s else toLowerCase s.

End GoogleSheetsServiceMore.

(** ** Errors on their way to the caller ([src/tools/index.ts],
    [src/utils/error-handler.ts]) *)

Module ErrorHandling.

(** The classes of [src/types/errors.ts] that the handlers tell apart. *)
Inductive ErrorClass : Type :=
| ValidationErrorClass
| OtherMCPErrorClass.

(** A thrown value: an instance of [GoogleSheetsMCPError], another [Error],
    or something that is not an [Error]. *)
Inductive ThrownValue : Type :=
| MCPError (class : ErrorClass) (message : string)
| PlainError (message : string)
| NotAnError.

(** [new ValidationError(message)]: the constructor prefixes the message. *)
Definition newValidationError (message : string) : ThrownValue :=
  MCPError ValidationErrorClass ("Validation error: " ++ message).

(** The [catch] block of every tool handler:
    [if (error instanceof Error) throw new ValidationError(error.message);
     throw error]. *)
Definition handlerCatch (error : ThrownValue) : ThrownValue :=
  match error with
  | MCPError _ message | PlainError message => newValidationError message
  | NotAnError => NotAnError
  end.

(** The text of the response that [ErrorHandler.handleError] builds. *)
Definition handleError (error : ThrownValue) : string :=
  match error with
  | MCPError ValidationErrorClass message => "Validation Error: " ++ message
  | MCPError OtherMCPErrorClass message => message
  | PlainError message => message
  | NotAnError => "An unknown error occurred"
  end.

Definition messageOf (error : ThrownValue) : option string :=
  match error with
  | MCPError _ message | PlainError message => Some message
  | NotAnError => None
  end.

End ErrorHandling.

(** ** The range schema of the tools ([src/types/index.ts]) *)

(** [RangeSchema]: does the whole string match
    [/^[A-Z]+[0-9]+:[A-Z]+[0-9]+$/]? The classes and the colon are pairwise
    disjoint, so each group is the longest run of its class. *)
Definition rangeSchemaMatches (s : string) : bool :=
  let (letters1, rest1) := span isUpper s in
  let (digits1, rest2) := span isDigit rest1 in
  match rest2 with
  | String ":" rest3 =>
      let (letters2, rest4) := span isUpper rest3 in
      let (digits2, rest5) := span isDigit rest4 in
      negb (isEmptyString letters1) && negb (isEmptyString digits1)
      && negb (isEmptyString letters2) && negb (isEmptyString digits2)
      && isEmptyString rest5
  | _ => false
  end.

(** ** Numbers as the code computes them

    A JavaScript number is an IEEE 754 double: 53 significant bits, and
    every result is rounded to the nearest double, ties to the even
    significand. The definitions of this section give, for the integer
    values that rows and columns take, what the operations of [a1ToRowCol]
    and [rowColToA1] compute; module [Doubles] assembles the two functions
    from them. [infinity] stands for [Infinity], the result of every
    operation that exceeds the largest double. *)

Definition infinity : Z := 2 ^ 1024.

(** [num / den / 2^e] as a fraction. *)
Definition scaled (num den e : Z) : Z * Z :=
  if 0 <=? e then (num, den * 2 ^ e) else (num * 2 ^ (- e), den).

(** The exponent of the last significant bit of the double nearest to
    [num / den] (both positive): the [e] with
    [2^52 <= num / den / 2^e < 2^53]. *)
Definition ulpExponent (num den : Z) : Z :=
  let l := Z.log2 num - Z.log2 den in
  let (n, d) := scaled num den l in
  (if d <=? n then l else l - 1) - 52.

(** The integer nearest to [n / d], the even one of two that are equally
    near. *)
Definition nearestEven (n d : Z) : Z :=
  let q := n / d in
  let r := n mod d in
  if (d <? 2 * r) || ((2 * r =? d) && Z.odd q) then q + 1 else q.

(** [Math.floor(num / den)] for a non-negative integer [num] and a
    positive integer [den]: the quotient is rounded to a double, and that
    double is floored. *)
Definition floorRounded (num den : Z) : Z :=
  if num <=? 0 then 0
  else if infinity <=? num then infinity
  else
    let e := ulpExponent num den in
    let (n, d) := scaled num den e in
    let m := nearestEven n d in
    let v := if 0 <=? e then m * 2 ^ e else m / 2 ^ (- e) in
    if infinity <=? v then infinity else v.

(** The double that an integer result is rounded to. *)
Definition roundDouble (z : Z) : Z :=
  if z <? 0 then - floorRounded (- z) 1 else floorRounded z 1.

(** The integers that are values of a JavaScript number. *)
Definition isDouble (z : Z) : bool :=
  (roundDouble z =? z) && (Z.abs z <? infinity).

(** The decimal digits of a non-negative integer, most significant first;
    [turns] bounds the number of digits. *)
Fixpoint decimalLoop (turns : nat) (n : Z) (acc : string) : string :=
  match turns with
  | O => acc
  | S turns' =>
      if n <? 10 then String (fromCharCode (48 + n)) acc
      else decimalLoop turns' (n / 10) (String (fromCharCode (48 + Z.rem n 10)) acc)
  end.

Definition decimal (n : Z) : string := decimalLoop (S (Z.to_nat (Z.log2 n))) n "".

Definition digitCount (x : Z) : Z := Z.of_nat (String.length (decimal x)).

(** Number::toString chooses the decimal numeral with the fewest
    significant digits that rounds to [x], the one nearest to [x] when
    several have that many digits (the even one of two equally near). For a
    positive integer [x] of [n] digits: with [k] significant digits the
    candidates are the multiples of [10^(n-k)] on either side of [x]. *)
Fixpoint shortestDecimal (turns : nat) (x n k : Z) : Z :=
  match turns with
  | O => x
  | S turns' =>
      let unit := 10 ^ (n - k) in
      let below := x / unit * unit in
      let above := below + unit in
      let okBelow := roundDouble below =? x in
      let okAbove := roundDouble above =? x in
      if okBelow && okAbove then
        if x - below <? above - x then below
        else if above - x <? x - below then above
        else if Z.even (x / unit) then below else above
      else if okBelow then below
      else if okAbove then above
      else shortestDecimal turns' x n (k + 1)
  end.

Fixpoint dropTrailingZeros (s : string) : string :=
  match s with
  | EmptyString => EmptyString
  | String c s' =>
      match dropTrailingZeros s' with
      | EmptyString => if Ascii.eqb c "0" then EmptyString else String c EmptyString
      | rest => String c rest
      end
  end.

Module Doubles.
Import SheetsUtils.

(** [String(x)] and [`${x}`] for a non-negative integer double [x]
    (Number::toString): the chosen numeral in full when it has at most 21
    digits, and otherwise its significant digits, with a point after the
    first, followed by [e+] and the exponent. *)
Definition magnitudeToString (x : Z) : string :=
  if x =? 0 then "0"
  else if infinity <=? x then "Infinity"
  else
    let n := digitCount x in
    let v := shortestDecimal (Z.to_nat n) x n 1 in
    let digits := decimal v in
    let n' := digitCount v in
    if n' <=? 21 then digits
    else
      match dropTrailingZeros digits with
      | String d EmptyString => String d ("e+" ++ decimal (n' - 1))
      | String d rest => String d ("." ++ rest ++ "e+" ++ decimal (n' - 1))
      | EmptyString => EmptyString
      end.

Definition numberToString (x : Z) : string :=
  if x <? 0 then String "-" (magnitudeToString (- x)) else magnitudeToString x.

(** [parseInt(s, 10)] on a string of decimal digits: the double nearest to
    the integer that the digits write. *)
Definition parseInt10 (s : string) : Z := roundDouble (parseDigits s 0).

(** The loop [col = col * 26 + (colStr.charCodeAt(i) - 64)]: the product
    and the sum are each rounded. *)
Fixpoint colOfLetters (colStr : string) (col : Z) : Z :=
  match colStr with
  | EmptyString => col
  | String c rest =>
      colOfLetters rest (roundDouble (roundDouble (col * 26) + (charCode c - 64)))
  end.

Definition a1ToRowCol (a1 : string) : result Error RowCol :=
  match matchA1 a1 with
  | None => Err (InvalidA1Notation a1)
  | Some (colStr, rowStr) =>
      Ok {| row := parseInt10 rowStr; col := colOfLetters colStr 0 |}
  end.

(** The loop [while (col > 0) { col--; colStr = letter + colStr;
    col = Math.floor(col / 26) }]. With [Infinity] for [col] the condition
    never becomes false ([Infinity - 1] and [Math.floor(Infinity / 26)] are
    [Infinity]) and the function does not return: [turns] bounds the number
    of turns taken, and the result is [None] when the loop is still running
    after that many. *)
Fixpoint lettersOfCol (turns : nat) (col : Z) (colStr : string) : option string :=
  if col >? 0 then
    match turns with
    | O => None
    | S turns' =>
        let col1 := roundDouble (col - 1) in
        lettersOfCol turns' (floorRounded col1 26)
          (String (fromCharCode (65 + Z.rem col1 26)) colStr)
    end
  else Some colStr.

Definition rowColToA1 (turns : nat) (row col : Z) : option string :=
  match lettersOfCol turns col "" with
  | Some colStr => Some (colStr ++ numberToString row)%string
  | None => None
  end.

End Doubles.

(** Does the numeral of an A1 text start with a zero that is not the whole
    numeral, as in "A01"? *)
Definition leadingZero (a1 : string) : bool :=
  match SheetsUtils.matchA1 a1 with
  | Some (_, String "0" (String _ _)) => true
  | _ => false
  end.

(** ** The calls of [smartReplace]

    [smartReplace] passes its body to [RetryUtil.executeWithRetry]: a run
    of the body that throws a retryable error is followed by another run,
    which reads the sheet again and issues its writes anew. *)

Module GoogleSheetsServiceCalls.
Import SheetsUtils RetryUtil GoogleSheetsService.

(** The [Error] that the coordinate functions throw, as [isRetryableError]
    reads it: a message, and none of the other properties. *)
Definition errorOf (e : SheetsUtils.Error) : JsError :=
  {| code := None; status := None; statusCode := None;
     message :=
       Some (match e with
             | InvalidA1Notation a1 => "Invalid A1 notation: " ++ a1
             | InvalidRangeFormat range => "Invalid range format: " ++ range
             end)%string;
     instanceofRetryableError := false |}.

Definition thrownOf (e : ReplaceError JsError) : JsError :=
  match e with
  | RangeError e => errorOf e
  | WriteError w => w
  end.

Section SmartReplaceCall.
(** What [readData] does in the [run]-th run of the body, and what the
    [k]-th [updateCell] of that run does. *)
Variable readData : nat -> result JsError Grid.
Variable updateCell : nat -> nat -> string -> string -> option JsError.
Variable findText replaceText : string.
Variable range : option string.
Variable matchCase matchEntireCell : bool.

(** One run of the function that [smartReplace] passes to
    [executeWithRetry]: the writes it issues, and its result or the error
    it throws. *)
Definition smartReplaceRun (run : nat)
    : list (string * string) * result JsError SmartReplaceResult :=
  match readData run with
  | Err e => ([], Err e)
  | Ok data =>
      let body :=
        smartReplace (updateCell run) findText replaceText range
          matchCase matchEntireCell data in
      (fst body,
       match snd body with
       | Ok res => Ok res
       | Err e => Err (thrownOf e)
       end)
  end.

(** [smartReplace]: the runs of its body under [executeWithRetry], with the
    default configuration. *)
Definition smartReplaceCall : Run SmartReplaceResult :=
  executeWithRetry (fun run => snd (smartReplaceRun run)) DEFAULT_RETRY_CONFIG.

(** The writes of a run and the way it ended fit together: a run that
    returns issued the writes of its replacements, and all succeeded; a run
    that throws either issued only writes that succeeded, or was stopped by
    its last write, which threw the error. *)
Definition runAnswered (run : nat) : Prop :=
  let issued := fst (smartReplaceRun run) in
  let succeeded :=
    forall j ref value, nth_error issued j = Some (ref, value) ->
                        updateCell run j ref value = None in
  match snd (smartReplaceRun run) with
  | Ok res =>
      issued = map (fun r => (cellRef r, newValue r)) (replacements res)
      /\ modifiedCells res = Z.of_nat (List.length issued)
      /\ succeeded
  | Err e =>
      succeeded
      \/ exists k ref value,
           List.length issued = S k
           /\ nth_error issued k = Some (ref, value)
           /\ updateCell run k ref value = Some e
           /\ forall j ref' value', (j < k)%nat ->
                nth_error issued j = Some (ref', value') ->
                updateCell run j ref' value' = None
  end.
End SmartReplaceCall.

End GoogleSheetsServiceCalls.

(** * Properties *)

Import SheetsUtils.

(** ** Strings *)

Lemma append_empty_r (s : string) : (s ++ "")%string = s.
Proof. induction s as [|c s IH]; simpl; [reflexivity | now rewrite IH]. Qed.

Lemma append_assoc (a b c : string) : ((a ++ b) ++ c = a ++ (b ++ c))%string.
Proof. induction a as [|x a IH]; simpl; [reflexivity | now rewrite IH]. Qed.

Lemma forallb_string_app p (a b : string) :
  forallb_string p (a ++ b) = forallb_string p a && forallb_string p b.
Proof. induction a as [|x a IH]; simpl; [reflexivity | now rewrite IH, andb_assoc]. Qed.

Lemma charCode_fromCharCode (n : Z) : 0 <= n < 256 -> charCode (fromCharCode n) = n.
Proof.
  intros Hn. unfold charCode, fromCharCode.
  rewrite N_ascii_embedding by lia. lia.
Qed.

Lemma charCode_range (c : ascii) : 0 <= charCode c < 256.
Proof. unfold charCode. pose proof (N_ascii_bounded c). lia. Qed.

(** A run of [p]-characters followed by a string that does not start with
    one is split exactly there. *)
Lemma span_app p (a b : string) :
  forallb_string p a = true ->
  (match b with EmptyString => true | String c _ => negb (p c) end) = true ->
  span p (a ++ b) = (a, b).
Proof.
  intros Ha Hb. induction a as [|x a IH]; simpl in *.
  - destruct b as [|c b]; simpl; [reflexivity|].
    apply negb_true_iff in Hb. now rewrite Hb.
  - apply andb_true_iff in Ha as [Hx Ha]. rewrite Hx, (IH Ha). reflexivity.
Qed.

(** ** Decimal numerals *)

Lemma digitsOf_small (n : Z) (acc : string) :
  n < 10 -> digitsOf n acc = String (fromCharCode (48 + n)) acc.
Proof. intros H. simp digitsOf. destruct (Z_lt_dec n 10); [reflexivity | lia]. Qed.

Lemma digitsOf_large (n : Z) (acc : string) :
  10 <= n ->
  digitsOf n acc = digitsOf (n / 10) (String (fromCharCode (48 + Z.rem n 10)) acc).
Proof. intros H. rewrite digitsOf_equation_1. destruct (Z_lt_dec n 10); [lia | reflexivity]. Qed.

Lemma digitsOf_acc (n : Z) : 0 <= n ->
  forall acc, digitsOf n acc = (digitsOf n "" ++ acc)%string.
Proof.
  intros Hn. pattern n. apply Z_lt_induction; [|exact Hn].
  clear n Hn. intros n IH acc.
  destruct (Z_lt_dec n 10) as [Hs|Hl].
  - now rewrite !digitsOf_small.
  - rewrite (digitsOf_large n acc), (digitsOf_large n "") by lia.
    assert (Hq : 0 <= n / 10 < n) by (split; [apply Z.div_pos | apply Z.div_lt]; lia).
    rewrite (IH _ Hq (String _ acc)), (IH _ Hq (String _ "")).
    now rewrite append_assoc.
Qed.

Lemma isDigit_fromCharCode (d : Z) : 0 <= d < 10 -> isDigit (fromCharCode (48 + d)) = true.
Proof. intros H. unfold isDigit. rewrite charCode_fromCharCode by lia. lia. Qed.

Lemma digitsOf_digits (n : Z) : 0 <= n ->
  forallb_string isDigit (digitsOf n "") = true /\ digitsOf n "" <> "".
Proof.
  intros Hn. pattern n. apply Zlt_0_ind; [|exact Hn].
  clear n Hn. intros n IH Hn.
  destruct (Z_lt_dec n 10) as [Hs|Hl].
  - rewrite digitsOf_small by lia. cbn [forallb_string].
    rewrite isDigit_fromCharCode by lia. split; [reflexivity | discriminate].
  - rewrite digitsOf_large, digitsOf_acc by (try apply Z.div_pos; lia).
    assert (Hq : 0 <= n / 10 < n) by (split; [apply Z.div_pos | apply Z.div_lt]; lia).
    destruct (IH _ Hq) as [Hd Hne]. split.
    + rewrite forallb_string_app, Hd. cbn [forallb_string andb].
      rewrite Z.rem_mod_nonneg by lia.
      rewrite isDigit_fromCharCode; [reflexivity|].
      apply Z.mod_pos_bound; lia.
    + destruct (digitsOf (n / 10) ""); [congruence | discriminate].
Qed.

Lemma parseDigits_app (a b : string) (acc : Z) :
  parseDigits (a ++ b) acc = parseDigits b (parseDigits a acc).
Proof. revert acc. induction a as [|x a IH]; intros acc; simpl; [reflexivity | apply IH]. Qed.

(** Reading back the numeral of a non-negative integer gives the integer. *)
Lemma parseInt10_numberToString (n : Z) : 0 <= n -> parseInt10 (numberToString n) = n.
Proof.
  intros Hn. unfold numberToString, parseInt10.
  destruct (Z.ltb_spec n 0) as [|_]; [lia|].
  pattern n. apply Zlt_0_ind; [|exact Hn].
  clear n Hn. intros n IH Hn.
  destruct (Z_lt_dec n 10) as [Hs|Hl].
  - rewrite digitsOf_small by lia. cbn [parseDigits].
    rewrite charCode_fromCharCode by lia. lia.
  - rewrite digitsOf_large, digitsOf_acc by (try apply Z.div_pos; lia).
    assert (Hq : 0 <= n / 10 < n) by (split; [apply Z.div_pos | apply Z.div_lt]; lia).
    rewrite parseDigits_app, (IH _ Hq). cbn [parseDigits].
    rewrite Z.rem_mod_nonneg by lia.
    pose proof (Z.mod_pos_bound n 10 ltac:(lia)).
    rewrite charCode_fromCharCode by lia.
    pose proof (Z.div_mod n 10 ltac:(lia)). lia.
Qed.

(** ** Column letters *)

Lemma lettersOfCol_pos (col : Z) (colStr : string) :
  0 < col ->
  lettersOfCol col colStr =
  lettersOfCol ((col - 1) / 26) (String (fromCharCode (65 + Z.rem (col - 1) 26)) colStr).
Proof.
  intros H. rewrite lettersOfCol_equation_1.
  destruct (Z_gt_dec col 0); [reflexivity | lia].
Qed.

Lemma lettersOfCol_nonpos (col : Z) (colStr : string) :
  col <= 0 -> lettersOfCol col colStr = colStr.
Proof.
  intros H. rewrite lettersOfCol_equation_1.
  destruct (Z_gt_dec col 0); [lia | reflexivity].
Qed.

Lemma pred_div26 (col : Z) : 0 < col -> 0 <= (col - 1) / 26 < col.
Proof.
  intros H. split; [apply Z.div_pos; lia|].
  assert ((col - 1) / 26 <= col - 1) by (apply Z.div_le_upper_bound; lia). lia.
Qed.

Lemma lettersOfCol_acc (col : Z) : 0 <= col ->
  forall colStr, lettersOfCol col colStr = (lettersOfCol col "" ++ colStr)%string.
Proof.
  intros Hc. pattern col. apply Zlt_0_ind; [|exact Hc].
  clear col Hc. intros col IH Hc colStr.
  destruct (Z.eq_dec col 0) as [->|Hne].
  - now rewrite !lettersOfCol_nonpos by lia.
  - rewrite (lettersOfCol_pos col colStr), (lettersOfCol_pos col "") by lia.
    pose proof (pred_div26 col ltac:(lia)) as Hq.
    rewrite (IH _ Hq (String _ colStr)), (IH _ Hq (String _ "")).
    now rewrite append_assoc.
Qed.

Lemma isUpper_fromCharCode (d : Z) : 0 <= d < 26 -> isUpper (fromCharCode (65 + d)) = true.
Proof. intros H. unfold isUpper. rewrite charCode_fromCharCode by lia. lia. Qed.

Lemma lettersOfCol_letters (col : Z) : 0 <= col ->
  forallb_string isUpper (lettersOfCol col "") = true.
Proof.
  intros Hc. pattern col. apply Zlt_0_ind; [|exact Hc].
  clear col Hc. intros col IH Hc.
  destruct (Z.eq_dec col 0) as [->|Hne].
  - now rewrite lettersOfCol_nonpos by lia.
  - pose proof (pred_div26 col ltac:(lia)) as Hq.
    rewrite lettersOfCol_pos, lettersOfCol_acc by lia.
    rewrite forallb_string_app, (IH _ Hq). cbn [forallb_string andb].
    rewrite Z.rem_mod_nonneg by lia.
    rewrite isUpper_fromCharCode; [reflexivity|].
    apply Z.mod_pos_bound; lia.
Qed.

Lemma lettersOfCol_nonempty (col : Z) : 0 < col -> lettersOfCol col "" <> "".
Proof.
  intros Hc. pose proof (pred_div26 col Hc).
  rewrite lettersOfCol_pos, lettersOfCol_acc by lia.
  destruct (lettersOfCol ((col - 1) / 26) ""); discriminate.
Qed.

Lemma colOfLetters_app (a b : string) (acc : Z) :
  colOfLetters (a ++ b) acc = colOfLetters b (colOfLetters a acc).
Proof. revert acc. induction a as [|x a IH]; intros acc; simpl; [reflexivity | apply IH]. Qed.

(** Reading back the letters of a column gives the column. *)
Lemma colOfLetters_lettersOfCol (col : Z) : 0 <= col ->
  colOfLetters (lettersOfCol col "") 0 = col.
Proof.
  intros Hc. pattern col. apply Zlt_0_ind; [|exact Hc].
  clear col Hc. intros col IH Hc.
  destruct (Z.eq_dec col 0) as [->|Hne].
  - now rewrite lettersOfCol_nonpos by lia.
  - pose proof (pred_div26 col ltac:(lia)) as Hq.
    rewrite lettersOfCol_pos, lettersOfCol_acc by lia.
    rewrite colOfLetters_app, (IH _ Hq). cbn [colOfLetters].
    rewrite Z.rem_mod_nonneg by lia.
    pose proof (Z.mod_pos_bound (col - 1) 26 ltac:(lia)).
    rewrite charCode_fromCharCode by lia.
    pose proof (Z.div_mod (col - 1) 26 ltac:(lia)). lia.
Qed.

Lemma digit_not_upper (c : ascii) : isDigit c = true -> isUpper c = false.
Proof. unfold isDigit, isUpper. lia. Qed.

(** The A1 pattern splits an encoded address into its letters and its
    numeral. *)
Lemma matchA1_rowColToA1 (row col : Z) : 0 <= row -> 0 < col ->
  matchA1 (rowColToA1 row col) = Some (lettersOfCol col "", numberToString row).
Proof.
  intros Hr Hc. unfold matchA1, rowColToA1.
  assert (Hnum : numberToString row = digitsOf row "").
  { unfold numberToString. destruct (Z.ltb_spec row 0); [lia | reflexivity]. }
  destruct (digitsOf_digits row Hr) as [Hd Hne]. rewrite <- Hnum in Hd, Hne.
  rewrite span_app.
  - pose proof (lettersOfCol_nonempty col Hc).
    destruct (lettersOfCol col ""); [congruence|].
    destruct (numberToString row); [congruence|].
    simpl isEmptyString. simpl negb. rewrite Hd. reflexivity.
  - apply lettersOfCol_letters; lia.
  - destruct (numberToString row) as [|c r]; [reflexivity|].
    simpl in Hd. apply andb_true_iff in Hd as [Hd _].
    now rewrite digit_not_upper.
Qed.

Lemma decode_encode (row col : Z) : 0 <= row -> 0 < col ->
  a1ToRowCol (rowColToA1 row col) = Ok {| SheetsUtils.row := row; SheetsUtils.col := col |}.
Proof.
  intros Hr Hc. unfold a1ToRowCol.
  rewrite matchA1_rowColToA1 by lia.
  rewrite parseInt10_numberToString, colOfLetters_lettersOfCol by lia.
  reflexivity.
Qed.

(** Distinct cells have distinct A1 texts. *)
Lemma rowColToA1_injective (row col row' col' : Z) :
  0 <= row -> 0 < col -> 0 <= row' -> 0 < col' ->
  rowColToA1 row col = rowColToA1 row' col' -> row = row' /\ col = col'.
Proof.
  intros Hr Hc Hr' Hc' Heq.
  pose proof (decode_encode row col Hr Hc) as H.
  rewrite Heq, decode_encode in H by assumption.
  now injection H.
Qed.


(** *** From text to address and back

    The converse direction holds for the texts that [rowColToA1] produces:
    capitals followed by a numeral without a leading zero. A text such as
    "A01" is accepted by [a1ToRowCol] and encoded back as "A1". *)

Lemma span_spec p (s a b : string) :
  span p s = (a, b) -> s = (a ++ b)%string /\ forallb_string p a = true.
Proof.
  revert a b. induction s as [|c s IH]; intros a b; simpl.
  - intros [= <- <-]. auto.
  - destruct (p c) eqn:Hc.
    + destruct (span p s) as [a' b'] eqn:E. intros [= <- <-].
      destruct (IH a' b' eq_refl) as [-> Ha]. simpl. now rewrite Hc, Ha.
    + intros [= <- <-]. auto.
Qed.

Lemma fromCharCode_charCode (c : ascii) : fromCharCode (charCode c) = c.
Proof. unfold fromCharCode, charCode. now rewrite N2Z.id, ascii_N_embedding. Qed.

Lemma lettersOfCol_snoc (col : Z) (c : ascii) :
  0 <= col -> isUpper c = true ->
  lettersOfCol (col * 26 + (charCode c - 64)) ""
  = (lettersOfCol col "" ++ String c "")%string.
Proof.
  intros Hcol Hc. unfold isUpper in Hc.
  assert (Hd : 1 <= charCode c - 64 <= 26) by lia.
  rewrite lettersOfCol_pos, lettersOfCol_acc by (try apply Z.div_pos; lia).
  rewrite Z.rem_mod_nonneg by lia.
  replace (col * 26 + (charCode c - 64) - 1) with ((charCode c - 65) + col * 26) by lia.
  rewrite Z.div_add, Z.mod_add by lia.
  rewrite Z.div_small, Z.mod_small by lia.
  replace (65 + (charCode c - 65)) with (charCode c) by lia.
  now rewrite fromCharCode_charCode.
Qed.

Lemma lettersOfCol_colOfLetters (letters : string) :
  forallb_string isUpper letters = true ->
  forall col, 0 <= col ->
    0 <= colOfLetters letters col
    /\ lettersOfCol (colOfLetters letters col) ""
       = (lettersOfCol col "" ++ letters)%string.
Proof.
  induction letters as [|c letters IH]; intros Hup col Hcol; cbn [colOfLetters].
  - now rewrite append_empty_r.
  - cbn [forallb_string] in Hup. apply andb_true_iff in Hup as [Hc Hup].
    assert (Hd : 1 <= charCode c - 64 <= 26) by (unfold isUpper in Hc; lia).
    destruct (IH Hup (col * 26 + (charCode c - 64)) ltac:(lia)) as [Hnn Heq].
    split; [exact Hnn|].
    now rewrite Heq, lettersOfCol_snoc, append_assoc by assumption.
Qed.

Lemma digitsOf_snoc (n : Z) (c : ascii) :
  1 <= n -> isDigit c = true ->
  digitsOf (n * 10 + (charCode c - 48)) "" = (digitsOf n "" ++ String c "")%string.
Proof.
  intros Hn Hc. unfold isDigit in Hc.
  rewrite digitsOf_large, digitsOf_acc by (try apply Z.div_pos; lia).
  rewrite Z.rem_mod_nonneg by lia.
  replace (n * 10 + (charCode c - 48)) with ((charCode c - 48) + n * 10) by lia.
  rewrite Z.div_add, Z.mod_add by lia.
  rewrite Z.div_small, Z.mod_small by lia.
  replace (48 + (charCode c - 48)) with (charCode c) by lia.
  now rewrite fromCharCode_charCode.
Qed.

Lemma digitsOf_parseDigits (digits : string) :
  forallb_string isDigit digits = true ->
  forall n, 1 <= n ->
    1 <= parseDigits digits n
    /\ digitsOf (parseDigits digits n) "" = (digitsOf n "" ++ digits)%string.
Proof.
  induction digits as [|c digits IH]; intros Hd n Hn; cbn [parseDigits].
  - now rewrite append_empty_r.
  - cbn [forallb_string] in Hd. apply andb_true_iff in Hd as [Hc Hd].
    assert (0 <= charCode c - 48 <= 9) by (unfold isDigit in Hc; lia).
    destruct (IH Hd (n * 10 + (charCode c - 48)) ltac:(lia)) as [Hpos Heq].
    split; [exact Hpos|].
    now rewrite Heq, digitsOf_snoc, append_assoc by assumption.
Qed.

(** Encoding the address decoded from a text without a leading zero gives
    the text back. *)
Lemma rowColToA1_a1ToRowCol (a1 : string) (rc : RowCol) :
  a1ToRowCol a1 = Ok rc ->
  1 <= SheetsUtils.row rc /\ 1 <= SheetsUtils.col rc ->
  (forall letters digits, matchA1 a1 = Some (letters, digits) ->
                          prefix "0" digits = false) ->
  rowColToA1 (SheetsUtils.row rc) (SheetsUtils.col rc) = a1.
Proof.
  unfold a1ToRowCol, matchA1.
  destruct (span isUpper a1) as [letters digits] eqn:Hspan.
  apply span_spec in Hspan as [-> Hup].
  destruct (negb (isEmptyString letters) && negb (isEmptyString digits)
            && forallb_string isDigit digits) eqn:Hok; [|discriminate].
  apply andb_true_iff in Hok as [_ Hdig].
  intros [= <-] [Hrow Hcol] Hzero. cbn [SheetsUtils.row SheetsUtils.col] in *.
  specialize (Hzero letters digits eq_refl).
  unfold rowColToA1. f_equal.
  - destruct (lettersOfCol_colOfLetters letters Hup 0 ltac:(lia)) as [_ ->].
    now rewrite lettersOfCol_nonpos by lia.
  - unfold numberToString, parseInt10 in *.
    destruct (Z.ltb_spec (parseDigits digits 0) 0); [lia|].
    destruct digits as [|c digits]; [cbn in Hrow; lia|].
    cbn [forallb_string] in Hdig. apply andb_true_iff in Hdig as [Hc Hdig].
    cbn [parseDigits]. rewrite Z.mul_0_l, Z.add_0_l.
    assert (Hc1 : 1 <= charCode c - 48 <= 9).
    { unfold isDigit in Hc.
      destruct (Z.eq_dec (charCode c) 48) as [E|]; [|lia].
      assert (c = "0"%char) as ->
        by (rewrite <- (fromCharCode_charCode c), E; reflexivity).
      cbn [prefix] in Hzero.
      destruct (ascii_dec "0" "0") as [_|F]; [|now elim F].
      destruct digits; discriminate Hzero. }
    destruct (digitsOf_parseDigits digits Hdig (charCode c - 48) ltac:(lia)) as [_ ->].
    rewrite digitsOf_small by lia.
    replace (48 + (charCode c - 48)) with (charCode c) by lia.
    now rewrite fromCharCode_charCode.
Qed.

(** ** Ranges *)

Lemma split_length (sep : ascii) (s : string) :
  List.length (split sep s) = S (countChar sep s).
Proof.
  induction s as [|c s IH]; simpl; [reflexivity|].
  destruct (Ascii.eqb c sep); simpl; [now rewrite IH|].
  destruct (split sep s); simpl in *; [discriminate | exact IH].
Qed.

Lemma split_no_separator (sep : ascii) (s : string) :
  countChar sep s = 0%nat -> split sep s = [s].
Proof.
  induction s as [|c s IH]; simpl; [reflexivity|].
  destruct (Ascii.eqb c sep); simpl; [discriminate|].
  intros H. now rewrite (IH H).
Qed.

Lemma split_at_separator (sep : ascii) (a b : string) :
  countChar sep a = 0%nat ->
  split sep (a ++ String sep b) = a :: split sep b.
Proof.
  induction a as [|c a IH]; simpl.
  - now rewrite Ascii.eqb_refl.
  - destruct (Ascii.eqb c sep); simpl; [discriminate|].
    intros H. now rewrite (IH H).
Qed.

Lemma a1ToRowCol_error (a1 : string) (e : Error) :
  a1ToRowCol a1 = Err e -> e = InvalidA1Notation a1.
Proof.
  unfold a1ToRowCol. destruct (matchA1 a1) as [[? ?]|]; [discriminate|].
  now intros [= <-].
Qed.

(** C9 (as amended). [parseRange] splits on [':']. It fails with the range
    error when the number of separators is not exactly one or a side is
    empty; when both sides are present but one is not a valid A1 address it
    fails with the address error of [a1ToRowCol] for the first such side;
    otherwise it returns both endpoints' coordinates. "A1:B10" gives
    (1, 1, 10, 2), "Z1:AA10" gives (1, 26, 10, 27), and "invalid" fails
    with the range error. *)
Theorem parseRange_cases :
  (forall range, countChar ":" range <> 1%nat ->
     parseRange range = Err (InvalidRangeFormat range))
  /\ (forall part0 part1,
        countChar ":" part0 = 0%nat -> countChar ":" part1 = 0%nat ->
        parseRange (part0 ++ ":" ++ part1) =
        if isEmptyString part0 || isEmptyString part1
        then Err (InvalidRangeFormat (part0 ++ ":" ++ part1))
        else match a1ToRowCol part0, a1ToRowCol part1 with
             | Err _, _ => Err (InvalidA1Notation part0)
             | Ok _, Err _ => Err (InvalidA1Notation part1)
             | Ok start, Ok end_ =>
                 Ok {| startRow := SheetsUtils.row start; endRow := SheetsUtils.row end_;
                       startCol := SheetsUtils.col start; endCol := SheetsUtils.col end_ |}
             end)
  /\ parseRange "A1:B10" = Ok {| startRow := 1; endRow := 10; startCol := 1; endCol := 2 |}
  /\ parseRange "Z1:AA10" = Ok {| startRow := 1; endRow := 10; startCol := 26; endCol := 27 |}
  /\ parseRange "invalid" = Err (InvalidRangeFormat "invalid").
Proof.
  split; [|split; [|repeat split; reflexivity]].
  - intros range Hn. unfold parseRange.
    pose proof (split_length ":" range) as Hl.
    destruct (split ":" range) as [|p0 [|p1 [|p2 ps]]]; try reflexivity.
    simpl in Hl. congruence.
  - intros part0 part1 H0 H1. unfold parseRange. simpl append.
    rewrite split_at_separator, split_no_separator by assumption.
    destruct (isEmptyString part0 || isEmptyString part1); [reflexivity|].
    destruct (a1ToRowCol part0) as [start|e0] eqn:E0; simpl.
    + destruct (a1ToRowCol part1) as [end_|e1] eqn:E1; simpl; [reflexivity|].
      now rewrite (a1ToRowCol_error _ _ E1).
    + now rewrite (a1ToRowCol_error _ _ E0).
Qed.

Lemma parseRange_cases_witness :
  parseRange "A1:B2:C3" = Err (InvalidRangeFormat "A1:B2:C3")
  /\ parseRange ("C3" ++ ":" ++ "D4") =
     Ok {| startRow := 3; endRow := 4; startCol := 3; endCol := 4 |}.
Proof.
  split.
  - apply (proj1 parseRange_cases "A1:B2:C3"). simpl. lia.
  - apply (proj1 (proj2 parseRange_cases) "C3" "D4"); reflexivity.
Defined.

(** C9, the claim as stated fails: "A1:b2" has exactly one separator and
    its second side is not a valid A1 address, and [parseRange] fails with
    the address error, not with the range error. *)
Lemma parseRange_address_error_counterexample :
  countChar ":" "A1:b2" = 1%nat
  /\ a1ToRowCol "b2" = Err (InvalidA1Notation "b2")
  /\ parseRange "A1:b2" = Err (InvalidA1Notation "b2")
  /\ parseRange "A1:b2" <> Err (InvalidRangeFormat "A1:b2").
Proof. repeat split. discriminate. Qed.

(** ** Qualified ranges *)

Lemma span_notBang_qualified (name rest : string) :
  forallb_string notBang name = true ->
  span notBang (name ++ String "!" rest) = (name, String "!" rest).
Proof. intros H. now apply span_app. Qed.

(** C10 (as amended). For every non-empty sheet name without ['!'] and
    every non-empty range, unqualifying the qualified range gives back the
    sheet name; with an empty or absent range [createSheetRange] returns the
    bare sheet name, from which [extractSheetName] returns nothing. *)
Theorem extractSheetName_createSheetRange (sheetName range : string) :
  sheetName <> "" ->
  forallb_string notBang sheetName = true ->
  (range <> "" ->
   extractSheetName (createSheetRange sheetName (Some range)) = Some sheetName)
  /\ createSheetRange sheetName (Some "") = sheetName
  /\ createSheetRange sheetName None = sheetName
  /\ extractSheetName sheetName = None.
Proof.
  intros Hne Hbang. repeat split.
  - intros Hr. destruct range as [|c r]; [congruence|].
    unfold createSheetRange, extractSheetName. simpl append.
    rewrite span_notBang_qualified by assumption.
    destruct sheetName; [congruence | reflexivity].
  - unfold extractSheetName.
    rewrite <- (append_empty_r sheetName) at 1.
    rewrite span_app by (assumption || reflexivity).
    destruct sheetName; reflexivity.
Qed.

Lemma extractSheetName_createSheetRange_witness :
  extractSheetName (createSheetRange "Sheet1" (Some "A1:B10")) = Some "Sheet1".
Proof.
  apply (proj1 (extractSheetName_createSheetRange "Sheet1" "A1:B10"
                  ltac:(discriminate) eq_refl)).
  discriminate.
Defined.

(** C10, the claim as stated fails at the empty range string, which
    [createSheetRange] treats as no range. *)
Lemma createSheetRange_empty_range_counterexample :
  "Sheet1" <> ""
  /\ forallb_string notBang "Sheet1" = true
  /\ extractSheetName (createSheetRange "Sheet1" (Some "")) <> Some "Sheet1".
Proof. repeat split; discriminate. Qed.

(** ** The retry executor *)

Import RetryUtil.

Section ExecutorFacts.
Context {T : Type}.
Variable fn : nat -> result JsError T.
Variable cfg : RetryConfig.

(** One turn of the [for] loop. *)
Lemma retryLoop_unfold attempt lastError calls slept :
  retryLoop fn cfg attempt lastError calls slept =
  if Z_le_dec attempt (maxRetries cfg) then
    match fn calls with
    | Ok v => mkRun (Returned v) (S calls) slept
    | Err error =>
        if Z.eq_dec attempt (maxRetries cfg)
        then mkRun (throwLast (Some error)) (S calls) slept
        else if isRetryableError error
        then retryLoop fn cfg (attempt + 1) (Some error) (S calls)
               (slept ++ [calculateDelay attempt cfg])%list
        else mkRun (Thrown error) (S calls) slept
    end
  else mkRun (throwLast lastError) calls slept.
Proof.
  rewrite retryLoop_equation_1.
  destruct (Z_le_dec attempt (maxRetries cfg)); simpl; [|reflexivity].
  destruct (fn calls); simpl; [reflexivity|].
  destruct (Z.eq_dec attempt (maxRetries cfg)); simpl; [reflexivity|].
  destruct (isRetryableError e); reflexivity.
Qed.

(** Induction on the number of turns the loop has left. *)
Lemma retryLoop_turns_ind (P : Z -> Prop) :
  (forall attempt, maxRetries cfg < attempt -> P attempt) ->
  (forall attempt, attempt <= maxRetries cfg -> P (attempt + 1) -> P attempt) ->
  forall attempt, P attempt.
Proof.
  intros Hstop Hstep attempt.
  remember (Z.to_nat (maxRetries cfg + 1 - attempt)) as n eqn:En.
  revert attempt En. induction n as [|n IH]; intros attempt En.
  - apply Hstop. lia.
  - apply Hstep; [lia|]. apply IH. lia.
Qed.

Lemma retryLoop_invocations_le attempt :
  forall lastError calls slept,
    Z.of_nat (invocations (retryLoop fn cfg attempt lastError calls slept))
    <= Z.of_nat calls + Z.max 0 (maxRetries cfg + 1 - attempt).
Proof.
  pattern attempt. apply retryLoop_turns_ind; clear attempt.
  - intros attempt Hgt lastError calls slept. rewrite retryLoop_unfold.
    destruct (Z_le_dec attempt (maxRetries cfg)); [lia|]. simpl. lia.
  - intros attempt Hle IH lastError calls slept. rewrite retryLoop_unfold.
    destruct (Z_le_dec attempt (maxRetries cfg)); [|lia].
    destruct (fn calls) as [v|error]; [simpl; lia|].
    destruct (Z.eq_dec attempt (maxRetries cfg)); [simpl; lia|].
    destruct (isRetryableError error); [|simpl; lia].
    specialize (IH (Some error) (S calls) (slept ++ [calculateDelay attempt cfg])%list).
    lia.
Qed.

(** When every invocation up to the last allowed one fails with a
    retryable error, the loop runs to [maxRetries] and throws the error of
    that last invocation. *)
Lemma retryLoop_always_failing attempt :
  (forall k, Z.of_nat k <= maxRetries cfg ->
             exists e, fn k = Err e /\ isRetryableError e = true) ->
  forall lastError calls slept,
    0 <= attempt <= maxRetries cfg ->
    Z.of_nat calls = attempt ->
    let run := retryLoop fn cfg attempt lastError calls slept in
    Z.of_nat (invocations run) = maxRetries cfg + 1
    /\ exists e, fn (Z.to_nat (maxRetries cfg)) = Err e /\ outcome run = Thrown e.
Proof.
  intros Hfail. pattern attempt. apply retryLoop_turns_ind; clear attempt.
  - intros attempt Hgt lastError calls slept Hr. lia.
  - intros attempt Hle IH lastError calls slept Hr Hc. cbv zeta.
    rewrite retryLoop_unfold.
    destruct (Z_le_dec attempt (maxRetries cfg)); [|lia].
    destruct (Hfail calls ltac:(lia)) as (error & Hfn & Hretry). rewrite Hfn.
    destruct (Z.eq_dec attempt (maxRetries cfg)) as [Heq|Hne].
    + simpl. split; [lia|]. exists error. split; [|reflexivity].
      rewrite <- Heq, <- Hc, Nat2Z.id. exact Hfn.
    + rewrite Hretry. apply IH; lia.
Qed.

(** The delays slept are those of the successive attempts. *)
Lemma retryLoop_sleeps attempt :
  forall lastError calls slept,
  exists k : nat,
    sleeps (retryLoop fn cfg attempt lastError calls slept) =
    (slept ++ map (fun i => calculateDelay (attempt + Z.of_nat i) cfg) (seq 0 k))%list.
Proof.
  pattern attempt. apply retryLoop_turns_ind; clear attempt.
  - intros attempt Hgt lastError calls slept. rewrite retryLoop_unfold.
    destruct (Z_le_dec attempt (maxRetries cfg)); [lia|].
    exists 0%nat. simpl. now rewrite app_nil_r.
  - intros attempt Hle IH lastError calls slept. rewrite retryLoop_unfold.
    destruct (Z_le_dec attempt (maxRetries cfg)); [|lia].
    assert (Hnil : forall o n, exists k : nat,
               sleeps (@mkRun T o n slept) =
               (slept ++ map (fun i => calculateDelay (attempt + Z.of_nat i) cfg)
                           (seq 0 k))%list).
    { intros o n. exists 0%nat. simpl. now rewrite app_nil_r. }
    destruct (fn calls) as [v|error]; [apply Hnil|].
    destruct (Z.eq_dec attempt (maxRetries cfg)); [apply Hnil|].
    destruct (isRetryableError error); [|apply Hnil].
    destruct (IH (Some error) (S calls) (slept ++ [calculateDelay attempt cfg])%list)
      as [k Hk].
    exists (S k). rewrite Hk, <- app_assoc. f_equal.
    cbn [seq map app]. rewrite Z.add_0_r. f_equal.
    rewrite <- seq_shift, map_map. apply map_ext. intros i. f_equal. lia.
Qed.
End ExecutorFacts.

(** C2. With [maxRetries = m], [executeWithRetry] invokes the operation at
    most [m + 1] times; when every attempt fails with a retryable error it
    invokes it exactly [m + 1] times (3 times for [m = 2]) and then throws
    the error of the last attempt, unchanged. *)
Theorem executeWithRetry_attempts {T : Type} (fn : nat -> result JsError T)
    (cfg : RetryConfig) :
  0 <= maxRetries cfg ->
  Z.of_nat (invocations (executeWithRetry fn cfg)) <= maxRetries cfg + 1
  /\ ((forall k, Z.of_nat k <= maxRetries cfg ->
                 exists e, fn k = Err e /\ isRetryableError e = true) ->
      Z.of_nat (invocations (executeWithRetry fn cfg)) = maxRetries cfg + 1
      /\ (maxRetries cfg = 2 -> invocations (executeWithRetry fn cfg) = 3%nat)
      /\ exists e, fn (Z.to_nat (maxRetries cfg)) = Err e
                   /\ outcome (executeWithRetry fn cfg) = Thrown e).
Proof.
  intros Hm. unfold executeWithRetry. split.
  - pose proof (retryLoop_invocations_le fn cfg 0 None 0%nat []). lia.
  - intros Hfail.
    destruct (retryLoop_always_failing fn cfg 0 Hfail None 0%nat [] ltac:(lia) eq_refl)
      as [Hn He].
    repeat split; [exact Hn | lia | exact He].
Qed.

Lemma executeWithRetry_attempts_witness :
  invocations (executeWithRetry (fun _ => @Err JsError unit serverError) twoRetries) = 3%nat.
Proof.
  refine (proj1 (proj2 (proj2 (executeWithRetry_attempts
            (fun _ => @Err JsError unit serverError) twoRetries _) _)) eq_refl).
  - simpl. lia.
  - intros k _. exists serverError. split; reflexivity.
Defined.

Lemma codeIs_false (error : JsError) (c : string) :
  code error <> Some c -> codeIs error c = false.
Proof.
  unfold codeIs. destruct (code error) as [c'|]; [|reflexivity].
  intros H. apply String.eqb_neq. congruence.
Qed.

Lemma noRetrySignal_not_retryable (error : JsError) :
  noRetrySignal error -> isRetryableError error = false.
Proof.
  intros (H1 & H2 & H3 & Hs & Hq & Hr & Hi). unfold isRetryableError.
  rewrite !codeIs_false by assumption. cbn [orb].
  rewrite Hq, Hr, Hi. cbn [orb].
  destruct (truthyNumber (orNumber (status error) (statusCode error))) eqn:Ht;
    [|reflexivity].
  destruct (orNumber (status error) (statusCode error)) as [s|] eqn:Eo;
    [|reflexivity].
  assert (Hin : status error = Some s \/ statusCode error = Some s).
  { unfold orNumber in Eo. destruct (truthyNumber (status error)); auto. }
  destruct (Hs s Hin). lia.
Qed.

(** C7. When the first invocation fails with an error that carries no
    retry signal, [executeWithRetry] invokes the operation exactly once and
    throws that error at once, without sleeping. *)
Theorem executeWithRetry_non_retryable {T : Type} (fn : nat -> result JsError T)
    (cfg : RetryConfig) (error : JsError) :
  0 <= maxRetries cfg ->
  fn 0%nat = Err error ->
  noRetrySignal error ->
  isRetryableError error = false
  /\ executeWithRetry fn cfg =
     {| outcome := Thrown error; invocations := 1; sleeps := [] |}.
Proof.
  intros Hm Hfn Hsig.
  pose proof (noRetrySignal_not_retryable error Hsig) as Hnr.
  split; [exact Hnr|].
  unfold executeWithRetry. rewrite retryLoop_unfold.
  destruct (Z_le_dec 0 (maxRetries cfg)); [|lia].
  rewrite Hfn, Hnr.
  destruct (Z.eq_dec 0 (maxRetries cfg)); reflexivity.
Qed.

Lemma executeWithRetry_non_retryable_witness :
  executeWithRetry (fun _ => @Err JsError unit validationError) DEFAULT_RETRY_CONFIG =
  {| outcome := Thrown validationError; invocations := 1; sleeps := [] |}.
Proof.
  refine (proj2 (executeWithRetry_non_retryable
                   (fun _ => @Err JsError unit validationError)
                   DEFAULT_RETRY_CONFIG validationError _ eq_refl _)).
  - simpl. lia.
  - unfold noRetrySignal, validationError; simpl.
    repeat split; try discriminate; destruct H as [H|H]; inversion H; lia.
Defined.

(** ** Backoff delays *)

Lemma calculateDelay_capped (attempt : Z) (cfg : RetryConfig) :
  calculateDelay attempt cfg <= maxDelay cfg.
Proof. unfold calculateDelay. lia. Qed.

Lemma calculateDelay_monotone (attempt : Z) (cfg : RetryConfig) :
  0 <= baseDelay cfg -> 1 <= backoffMultiplier cfg -> 0 <= attempt ->
  calculateDelay attempt cfg <= calculateDelay (attempt + 1) cfg.
Proof.
  intros Hb Hm Ha. unfold calculateDelay.
  rewrite Z.pow_add_r, Z.pow_1_r by lia.
  assert (0 <= backoffMultiplier cfg ^ attempt) by (apply Z.pow_nonneg; lia).
  apply Z.min_le_compat_r. nia.
Qed.

(** C8 (as amended). Where the power and the product are exact (integers
    of magnitude up to [2^53]), the delay slept before the (n+2)-th
    invocation is [min (baseDelay * backoffMultiplier ^ n) maxDelay] and
    does not exceed [maxDelay]; and when [baseDelay] is non-negative and
    [backoffMultiplier] is at least 1, it is not larger than the next
    delay. *)
Theorem backoff_delays {T : Type} (fn : nat -> result JsError T)
    (cfg : RetryConfig) (n : nat) (delay : Z) :
  nth_error (sleeps (executeWithRetry fn cfg)) n = Some delay ->
  exactDelay cfg (Z.of_nat n) ->
  delay = Z.min (baseDelay cfg * backoffMultiplier cfg ^ Z.of_nat n) (maxDelay cfg)
  /\ delay <= maxDelay cfg
  /\ (0 <= baseDelay cfg -> 1 <= backoffMultiplier cfg ->
      (forall next, nth_error (sleeps (executeWithRetry fn cfg)) (S n) = Some next ->
                    exactDelay cfg (Z.of_nat (S n)) ->
                    delay <= next)
      /\ forall attempt, 0 <= attempt -> exactDelay cfg (attempt + 1) ->
           calculateDelay attempt cfg <= calculateDelay (attempt + 1) cfg).
Proof.
  unfold executeWithRetry.
  destruct (retryLoop_sleeps fn cfg 0 None 0%nat []) as [k Hk].
  rewrite Hk. cbn [app].
  assert (Hnth : forall i d,
             nth_error (map (fun i => calculateDelay (0 + Z.of_nat i) cfg) (seq 0 k)) i
             = Some d -> d = calculateDelay (Z.of_nat i) cfg).
  { intros i d Hi. rewrite nth_error_map in Hi.
    destruct (nth_error (seq 0 k) i) as [j|] eqn:Ej; [|discriminate].
    assert (Hik : (i < List.length (seq 0 k))%nat)
      by (apply nth_error_Some; congruence).
    rewrite length_seq in Hik.
    rewrite nth_error_seq in Ej.
    destruct (Nat.ltb_spec i k); [|lia].
    injection Ej as <-. injection Hi as <-. reflexivity. }
  intros Hd _. apply Hnth in Hd. subst delay.
  split; [reflexivity|]. split; [apply calculateDelay_capped|].
  intros Hb Hm. split.
  - intros next Hnext _. apply Hnth in Hnext. subst next.
    replace (Z.of_nat (S n)) with (Z.of_nat n + 1) by lia.
    apply calculateDelay_monotone; lia.
  - intros attempt Ha _. now apply calculateDelay_monotone.
Qed.

Lemma backoff_delays_witness :
  1000 = Z.min (1000 * 2 ^ 0) 10000
  /\ 1000 <= 10000
  /\ calculateDelay 0 twoRetries <= calculateDelay 1 twoRetries.
Proof.
  destruct (backoff_delays (fun _ => @Err JsError unit serverError) twoRetries
              0%nat 1000 eq_refl) as (H1 & H2 & H3).
  - split; vm_compute; discriminate.
  - destruct (H3 ltac:(simpl; lia) ltac:(simpl; lia)) as [_ H4].
    split; [exact H1 | split; [exact H2|]].
    apply (H4 0 ltac:(lia)). split; vm_compute; discriminate.
Defined.

(** C8, the claim as stated fails: with a multiplier of 0 the delays slept
    are 1000, 0, 0, and the second is smaller than the first. *)
Lemma backoff_not_monotone_counterexample :
  sleeps (executeWithRetry (fun _ => @Err JsError unit serverError) zeroMultiplier)
  = [1000; 0; 0]
  /\ ~ (calculateDelay 0 zeroMultiplier <= calculateDelay 1 zeroMultiplier).
Proof. split; [reflexivity | vm_compute; intros H; apply H; reflexivity]. Qed.

(** ** The rate limiter *)

Section RateLimiterFacts.
Variable maxReq window : Z.

Lemma filter_keep_later (now now' : Z) (xs : list Z) :
  now <= now' ->
  filter (keep window now') (filter (keep window now) xs)
  = filter (keep window now') xs.
Proof.
  intros Hle. induction xs as [|x xs IH]; simpl; [reflexivity|].
  destruct (keep window now x) eqn:Hk; simpl.
  - destruct (keep window now' x); now rewrite IH.
  - rewrite IH. destruct (keep window now' x) eqn:Hk'; [|reflexivity].
    unfold keep in *. lia.
Qed.

Lemma filter_length_le (p q : Z -> bool) (xs : list Z) :
  (forall x, p x = true -> q x = true) ->
  (List.length (filter p xs) <= List.length (filter q xs))%nat.
Proof.
  intros Hpq. induction xs as [|x xs IH]; simpl; [lia|].
  destruct (p x) eqn:Hp.
  - rewrite (Hpq x Hp). simpl. lia.
  - destruct (q x); simpl; lia.
Qed.

Lemma minimum_In (xs : list Z) (m : Z) : minimum xs = Some m -> In m xs.
Proof.
  revert m. induction xs as [|x xs IH]; simpl; [discriminate|].
  intros m. destruct (minimum xs) as [m'|].
  - intros [= <-]. destruct (Z.min_spec x m') as [[_ ->]|[_ ->]]; auto.
  - intros [= <-]. auto.
Qed.

(** One pass keeps the limiter coherent; an admission happens only below
    the limit. *)
Lemma checkOnce_coherent (rl : RateLimiter) (history : list Z) (lo now : Z) :
  coherent maxReq window rl history lo -> lo <= now ->
  match checkOnce rl now with
  | Recorded rl' => coherent maxReq window rl' (history ++ [now]) now
  | Sleep _ rl' => coherent maxReq window rl' history now
  end.
Proof.
  intros (Hmax & Hwin & Hreq & Hbound) Hlo. unfold checkOnce.
  rewrite Hmax, Hwin.
  set (kept := filter (keep window now) (requests rl)).
  assert (Hsleep : coherent maxReq window
                     {| requests := kept; maxRequests := maxReq;
                        windowMs := window |} history now).
  { repeat split; try assumption. intros now' Hn. simpl. unfold kept.
    rewrite filter_keep_later by assumption. apply Hreq. lia. }
  assert (Hrecord : (Z.of_nat (List.length kept) < maxReq) ->
            coherent maxReq window
              {| requests := kept ++ [now]; maxRequests := maxReq;
                 windowMs := window |} (history ++ [now]) now).
  { intros Hlt. repeat split.
    - intros now' Hn. simpl. rewrite !filter_app. f_equal. unfold kept.
      rewrite filter_keep_later by assumption. apply Hreq. lia.
    - intros covers Hroll. unfold admissionsIn.
      rewrite filter_app, length_app.
      assert (Hle : covers now = true ->
                    (List.length (filter covers history) <= List.length kept)%nat).
      { intros Hin. unfold kept. rewrite (Hreq now Hlo).
        apply filter_length_le. intros x Hx.
        pose proof (Hroll x now Hx Hin). unfold keep. lia. }
      specialize (Hbound covers Hroll). unfold admissionsIn in Hbound.
      cbn [filter]. destruct (covers now); cbn [List.length].
      + specialize (Hle eq_refl). lia.
      + lia. }
  destruct (Z.geb_spec (Z.of_nat (List.length kept)) maxReq) as [Hge|Hlt];
    [|apply Hrecord; lia].
  destruct (minimum kept) as [oldest|] eqn:Hmin; [|exact Hsleep].
  destruct (Z.gtb_spec (window - (now - oldest)) 0) as [Hpos|Hnonpos];
    [exact Hsleep|].
  (* the oldest request kept is still inside the window *)
  apply minimum_In in Hmin. unfold kept in Hmin.
  apply filter_In in Hmin as [_ Hk]. unfold keep in Hk. lia.
Qed.

Lemma checkRateLimit_coherent (clock : list Z) :
  forall rl history lo rl' t waits rest,
    coherent maxReq window rl history lo -> nondecreasingFrom lo clock ->
    checkRateLimit rl clock = Some (rl', t, waits, rest) ->
    coherent maxReq window rl' (history ++ [t]) t /\ nondecreasingFrom t rest.
Proof.
  induction clock as [|now later IH]; intros rl history lo rl' t waits rest Hc Hs;
    simpl; [discriminate|].
  destruct Hs as [Hlo Hlater].
  pose proof (checkOnce_coherent rl history lo now Hc Hlo) as Hstep.
  destruct (checkOnce rl now) as [rl1|w rl1].
  - intros [= <- <- <- <-]. split; assumption.
  - destruct (checkRateLimit rl1 later) as [[[[rl2 t2] waits2] rest2]|] eqn:E;
      [|discriminate].
    intros [= <- <- <- <-]. eapply IH; eauto.
Qed.

Lemma serve_coherent (n : nat) :
  forall rl history lo clock,
    coherent maxReq window rl history lo -> nondecreasingFrom lo clock ->
    forall covers, rollingWindow window covers ->
      Z.of_nat (admissionsIn covers (history ++ snd (serve n rl clock))) <= maxReq.
Proof.
  induction n as [|n IH]; intros rl history lo clock Hc Hs covers Hroll; simpl.
  - rewrite app_nil_r. now apply Hc.
  - destruct (checkRateLimit rl clock) as [[[[rl' t] waits] rest]|] eqn:E.
    + destruct (checkRateLimit_coherent clock _ _ _ _ _ _ _ Hc Hs E) as [Hc' Hs'].
      specialize (IH rl' (history ++ [t])%list t rest Hc' Hs' covers Hroll).
      destruct (serve n rl' rest) as [rl'' admitted]. simpl in *.
      now rewrite <- app_assoc in IH.
    + simpl. rewrite app_nil_r. now apply Hc.
Qed.
End RateLimiterFacts.

Lemma coherent_new (maxReq window lo : Z) :
  0 <= maxReq -> coherent maxReq window (newRateLimiter maxReq window) [] lo.
Proof. intros H. repeat split; simpl; trivial. Qed.

Lemma rollingWindow_upTo (window s : Z) : rollingWindow window (windowUpTo window s).
Proof. intros x y. unfold windowUpTo. lia. Qed.

Lemma rollingWindow_from (window s : Z) : rollingWindow window (windowFrom window s).
Proof. intros x y. unfold windowFrom. lia. Qed.

(** A limiter that holds two admissions, the older one still inside the
    window, sends the next caller to sleep until that one leaves. *)
Lemma checkOnce_full (t1 t2 now : Z) :
  t1 <= t2 <= now -> now - t1 < 1000 ->
  checkOnce {| requests := [t1; t2]; maxRequests := 2; windowMs := 1000 |} now
  = Sleep (Some (1000 - (now - t1)))
      {| requests := [t1; t2]; maxRequests := 2; windowMs := 1000 |}.
Proof.
  intros Ht Hn. unfold checkOnce. cbn [requests maxRequests windowMs filter].
  assert (K1 : keep 1000 now t1 = true) by (unfold keep; lia).
  assert (K2 : keep 1000 now t2 = true) by (unfold keep; lia).
  rewrite K1, K2. cbn [List.length minimum filter].
  rewrite Z.min_l by lia.
  destruct (Z.geb_spec (Z.of_nat 2) 2); [|lia].
  destruct (Z.gtb_spec (1000 - (now - t1)) 0); [reflexivity | lia].
Qed.

Lemma checkOnce_after_wait (t1 t2 wake : Z) :
  t1 <= t2 -> t1 + 1000 <= wake ->
  exists rl', checkOnce {| requests := [t1; t2]; maxRequests := 2; windowMs := 1000 |} wake
              = Recorded rl'.
Proof.
  intros Ht Hw. unfold checkOnce. cbn [requests maxRequests windowMs filter].
  assert (K1 : keep 1000 wake t1 = false) by (unfold keep; lia).
  rewrite K1.
  destruct (keep 1000 wake t2); cbn [List.length];
    match goal with
    | |- context [ Z.of_nat ?k >=? 2 ] =>
        destruct (Z.geb_spec (Z.of_nat k) 2); [lia | eexists; reflexivity]
    end.
Qed.

(** C3. For one limiter whose checks run one after the other on a clock
    that never runs backwards, every rolling window of length [windowMs]
    (in particular (s - windowMs, s] and [s, s + windowMs) for every s)
    holds at most [maxRequests] admissions. With 2 calls per 1000 ms, a third
    call right after two admissions is not admitted at once: it sleeps for
    what remains of the window of the older admission, and is admitted when
    it wakes. *)
Theorem rateLimiter_window (maxReq window lo : Z) (clock : list Z) (n : nat) :
  0 <= maxReq ->
  nondecreasingFrom lo clock ->
  let admitted := snd (serve n (newRateLimiter maxReq window) clock) in
  (forall covers, rollingWindow window covers ->
     Z.of_nat (admissionsIn covers admitted) <= maxReq)
  /\ (forall s, Z.of_nat (admissionsIn (windowUpTo window s) admitted) <= maxReq)
  /\ (forall s, Z.of_nat (admissionsIn (windowFrom window s) admitted) <= maxReq)
  /\ (forall t1 t2 now wake,
        t1 <= t2 <= now -> now - t1 < 1000 ->
        let rl := {| requests := [t1; t2]; maxRequests := 2; windowMs := 1000 |} in
        let waitTime := 1000 - (now - t1) in
        serve 2 (newRateLimiter 2 1000) [t1; t2] = (rl, [t1; t2])
        /\ 0 < waitTime
        /\ checkOnce rl now = Sleep (Some waitTime) rl
        /\ (now + waitTime <= wake ->
            exists rl',
              checkRateLimit rl [now; wake]
              = Some (rl', wake, [Some waitTime], []))).
Proof.
  intros Hmax Hclock admitted.
  assert (Hall : forall covers, rollingWindow window covers ->
                   Z.of_nat (admissionsIn covers admitted) <= maxReq).
  { intros covers Hroll.
    apply (serve_coherent maxReq window n (newRateLimiter maxReq window) [] lo clock);
      [apply coherent_new| |]; assumption. }
  split; [exact Hall|].
  split; [intros s; apply Hall, rollingWindow_upTo|].
  split; [intros s; apply Hall, rollingWindow_from|].
  intros t1 t2 now wake Ht Hn rl waitTime. repeat split.
  - unfold serve, checkRateLimit, checkOnce, newRateLimiter.
    cbn [requests maxRequests windowMs filter List.length app minimum].
    destruct (Z.geb_spec (Z.of_nat 0) 2); [lia|].
    cbn [requests maxRequests windowMs filter List.length app minimum].
    assert (K : keep 1000 t2 t1 = true) by (unfold keep; lia).
    rewrite K. cbn [List.length app].
    destruct (Z.geb_spec (Z.of_nat 1) 2); [lia | reflexivity].
  - unfold waitTime. lia.
  - apply checkOnce_full; assumption.
  - intros Hw. cbn [checkRateLimit]. subst rl.
    rewrite checkOnce_full by assumption.
    destruct (checkOnce_after_wait t1 t2 wake) as [rl' Hrl'];
      [lia | unfold waitTime in Hw; lia |].
    rewrite Hrl'. exists rl'. reflexivity.
Qed.

Lemma rateLimiter_window_witness :
  Z.of_nat (admissionsIn (windowUpTo 1000 1000)
              (snd (serve 3 (newRateLimiter 2 1000) [0; 0; 0; 1000]))) <= 2
  /\ checkOnce {| requests := [0; 0]; maxRequests := 2; windowMs := 1000 |} 0
     = Sleep (Some 1000) {| requests := [0; 0]; maxRequests := 2; windowMs := 1000 |}.
Proof.
  destruct (rateLimiter_window 2 1000 0 [0; 0; 0; 1000] 3) as (_ & Hwin & _ & Hthird).
  - lia.
  - simpl. lia.
  - split; [apply Hwin|].
    destruct (Hthird 0 0 0 1000) as (_ & _ & Hsleep & _); [lia | lia | exact Hsleep].
Defined.

(** ** Smart replace *)

Import GoogleSheetsService.

(** A replacement is decided only for a cell that is truthy, not skipped
    by the range test, and passes the match test; it names that cell. *)
Lemma cellReplacement_some findText replaceText range matchCase matchEntireCell
    rowIndex colIndex cellValue r :
  cellReplacement findText replaceText range matchCase matchEntireCell
    rowIndex colIndex cellValue = Ok (Some r) ->
  truthy cellValue = true
  /\ insideRange range rowIndex colIndex = Ok true
  /\ cellMatches findText matchCase matchEntireCell cellValue = true
  /\ cellRef r = rowColToA1 (rowIndex + 1) (colIndex + 1)
  /\ originalValue r = toText cellValue.
Proof.
  unfold cellReplacement, cellMatches.
  destruct (truthy cellValue); [|discriminate]. cbn [negb].
  destruct (insideRange range rowIndex colIndex) as [[|]|e]; cbn [bind negb];
    try discriminate.
  destruct matchEntireCell.
  - destruct (String.eqb _ _); [|discriminate].
    intros [= <-]. repeat split.
  - destruct (includes _ _); [|discriminate].
    intros [= <-]. repeat split.
Qed.

Section SmartReplaceFacts.
Context {W : Type}.
Variable updateCell : nat -> string -> string -> option W.
Variable findText replaceText : string.
Variable range : option string.
Variable matchCase matchEntireCell : bool.

Abbreviation cellReplacement :=
  (cellReplacement findText replaceText range matchCase matchEntireCell).
Abbreviation stepCell :=
  (stepCell updateCell findText replaceText range matchCase matchEntireCell).
Abbreviation replaceRow :=
  (replaceRow updateCell findText replaceText range matchCase matchEntireCell).
Abbreviation replaceRows :=
  (replaceRows updateCell findText replaceText range matchCase matchEntireCell).

Lemma stepCell_pushed rowIndex colIndex cellValue st :
  writesFollowPushed st ->
  writesFollowPushed (stepCell rowIndex colIndex cellValue st)
  /\ forall r, In r (pushed (stepCell rowIndex colIndex cellValue st)) ->
       In r (pushed st) \/ cellReplacement rowIndex colIndex cellValue = Ok (Some r).
Proof.
  intros Hw. unfold GoogleSheetsService.stepCell.
  destruct (cellReplacement rowIndex colIndex cellValue) as [[r0|]|e]; simpl.
  - split.
    + unfold writesFollowPushed in *. simpl. now rewrite map_app, Hw.
    + intros r Hin. apply in_app_or in Hin as [Hin|[<-|[]]]; auto.
  - auto.
  - auto.
Qed.

(** Every replacement pushed while scanning a row was decided for one of
    its cells. *)
Lemma replaceRow_pushed rowIndex cells :
  forall colIndex st,
    writesFollowPushed st ->
    writesFollowPushed (replaceRow rowIndex colIndex cells st)
    /\ forall r, In r (pushed (replaceRow rowIndex colIndex cells st)) ->
         In r (pushed st)
         \/ exists (j : nat) cellValue,
              nth_error cells j = Some cellValue
              /\ cellReplacement rowIndex (colIndex + Z.of_nat j) cellValue
                 = Ok (Some r).
Proof.
  induction cells as [|cellValue cells IH]; intros colIndex st Hw.
  - simpl. auto.
  - cbn [GoogleSheetsService.replaceRow].
    destruct (stepCell_pushed rowIndex colIndex cellValue st Hw) as [Hw1 Hfrom1].
    assert (Hone : forall r, In r (pushed (stepCell rowIndex colIndex cellValue st)) ->
              In r (pushed st)
              \/ exists (j : nat) v, nth_error (cellValue :: cells) j = Some v
                   /\ cellReplacement rowIndex (colIndex + Z.of_nat j) v = Ok (Some r)).
    { intros r Hin. destruct (Hfrom1 r Hin) as [|Hp]; [auto|].
      right. exists 0%nat, cellValue. rewrite Z.add_0_r. auto. }
    destruct (thrown (stepCell rowIndex colIndex cellValue st)); [auto|].
    destruct (IH (colIndex + 1) _ Hw1) as [Hw2 Hfrom2].
    split; [exact Hw2|].
    intros r Hin. destruct (Hfrom2 r Hin) as [Hin1|(j & v & Hj & Hp)].
    + auto.
    + right. exists (S j), v. split; [exact Hj|].
      replace (colIndex + Z.of_nat (S j)) with (colIndex + 1 + Z.of_nat j) by lia.
      exact Hp.
Qed.

(** The same for the whole scan. *)
Lemma replaceRows_pushed data :
  forall rowIndex st,
    writesFollowPushed st ->
    writesFollowPushed (replaceRows rowIndex data st)
    /\ forall r, In r (pushed (replaceRows rowIndex data st)) ->
         In r (pushed st)
         \/ exists (i j : nat) cells cellValue,
              nth_error data i = Some cells
              /\ nth_error cells j = Some cellValue
              /\ cellReplacement (rowIndex + Z.of_nat i) (Z.of_nat j) cellValue
                 = Ok (Some r).
Proof.
  induction data as [|cells data IH]; intros rowIndex st Hw.
  - simpl. auto.
  - cbn [GoogleSheetsService.replaceRows].
    destruct (replaceRow_pushed rowIndex cells 0 st Hw) as [Hw1 Hfrom1].
    assert (Hone : forall r, In r (pushed (replaceRow rowIndex 0 cells st)) ->
              In r (pushed st)
              \/ exists (i j : nat) cs v, nth_error (cells :: data) i = Some cs
                   /\ nth_error cs j = Some v
                   /\ cellReplacement (rowIndex + Z.of_nat i) (Z.of_nat j) v
                      = Ok (Some r)).
    { intros r Hin. destruct (Hfrom1 r Hin) as [|(j & v & Hj & Hp)]; [auto|].
      right. exists 0%nat, j, cells, v. rewrite Z.add_0_r. auto. }
    destruct (thrown (replaceRow rowIndex 0 cells st)); [auto|].
    destruct (IH (rowIndex + 1) _ Hw1) as [Hw2 Hfrom2].
    split; [exact Hw2|].
    intros r Hin. destruct (Hfrom2 r Hin) as [Hin1|(i & j & cs & v & Hi & Hj & Hp)].
    + auto.
    + right. exists (S i), j, cs, v. repeat split; try assumption.
      replace (rowIndex + Z.of_nat (S i)) with (rowIndex + 1 + Z.of_nat i) by lia.
      exact Hp.
Qed.
End SmartReplaceFacts.

(** C6. In a [smartReplace] call with a range, a cell outside the
    rectangle receives no write and appears in no replacement, and neither
    does a cell inside it whose text does not match [findText]. *)
Theorem smartReplace_frame {W : Type} (updateCell : nat -> string -> string -> option W)
    (findText replaceText range : string) (matchCase matchEntireCell : bool)
    (parsedRange : Range) (data : Grid)
    (i j : nat) (cells : list CellValue) (cellValue : CellValue) :
  range <> "" ->
  parseRange range = Ok parsedRange ->
  nth_error data i = Some cells ->
  nth_error cells j = Some cellValue ->
  outsideRange parsedRange (Z.of_nat i + 1) (Z.of_nat j + 1) = true
  \/ cellMatches findText matchCase matchEntireCell cellValue = false ->
  let result :=
    smartReplace updateCell findText replaceText (Some range)
      matchCase matchEntireCell data in
  (forall newValue,
      ~ In (rowColToA1 (Z.of_nat i + 1) (Z.of_nat j + 1), newValue) (fst result))
  /\ (forall res r,
        snd result = Ok res -> In r (replacements res) ->
        cellRef r <> rowColToA1 (Z.of_nat i + 1) (Z.of_nat j + 1)).
Proof.
  intros Hne Hparse Hi Hj Hskip result.
  set (init := {| pushed := []; writes := []; thrown := @None (ReplaceError W) |}).
  destruct (replaceRows_pushed updateCell findText replaceText (Some range)
              matchCase matchEntireCell data 0 init eq_refl) as [Hw Hfrom].
  (* no pushed replacement names the cell *)
  assert (Hnot : forall r,
             In r (pushed (replaceRows updateCell findText replaceText (Some range)
                             matchCase matchEntireCell 0 data init)) ->
             cellRef r <> rowColToA1 (Z.of_nat i + 1) (Z.of_nat j + 1)).
  { intros r Hin Href.
    destruct (Hfrom r Hin) as [[]|(i' & j' & cells' & v' & Hi' & Hj' & Hp)].
    apply cellReplacement_some in Hp as (_ & Hinside & Hmatch & Hcell & _).
    rewrite Hcell in Href.
    apply rowColToA1_injective in Href as [Hrow Hcol]; try lia.
    assert (i' = i) by lia. assert (j' = j) by lia. subst i' j'.
    assert (cells' = cells) by congruence. subst cells'.
    assert (v' = cellValue) by congruence. subst v'.
    destruct Hskip as [Hout|Hno]; [|congruence].
    unfold insideRange in Hinside.
    destruct range as [|c rest]; [congruence|].
    rewrite Hparse in Hinside. cbn [bind] in Hinside.
    replace (0 + Z.of_nat i + 1) with (Z.of_nat i + 1) in Hinside by lia.
    rewrite Hout in Hinside. discriminate. }
  split.
  - intros newValue Hin. subst result. unfold smartReplace in Hin. cbn [fst] in Hin.
    fold init in Hin. rewrite Hw in Hin.
    apply in_map_iff in Hin as (r & Heq & Hr).
    injection Heq as Href _. exact (Hnot r Hr Href).
  - intros res r Hres Hin. subst result. unfold smartReplace in Hres. cbn [snd] in Hres.
    fold init in Hres.
    destruct (thrown _); [discriminate|].
    injection Hres as <-. cbn [replacements] in Hin. exact (Hnot r Hin).
Qed.

Lemma smartReplace_frame_witness :
  ~ In (rowColToA1 1 1, "NamE")
       (fst (smartReplace (W:=unit) (fun _ _ _ => None) "e" "E" (Some "B2:B3")
               false false
               [[VString "Name"; VString "City"]; [VString "John"; VString "Seoul"]])).
Proof.
  refine (proj1 (smartReplace_frame (W:=unit) (fun _ _ _ => None) "e" "E" "B2:B3"
                   false false
                   {| startRow := 2; endRow := 3; startCol := 2; endCol := 2 |}
                   [[VString "Name"; VString "City"]; [VString "John"; VString "Seoul"]]
                   0 0 [VString "Name"; VString "City"] (VString "Name")
                   _ eq_refl eq_refl eq_refl _) "NamE").
  - discriminate.
  - left. reflexivity.
Defined.

(** ** Search *)

Section SearchFacts.
Variable sheet searchText : string.
Variable searchColumns : option (list string).

(** The match that [search] reports for the cell at 0-based position
    ([rowIndex], [colIndex]). *)
Abbreviation matchAt rowIndex colIndex cellValue :=
  {| cell := rowColToA1 (rowIndex + 1) (colIndex + 1);
     value := cellValue;
     row := rowIndex + 1;
     column := colIndex + 1;
     sheetName := sheet |}.

(** The test the loop body applies to a cell. *)
Abbreviation reported colIndex cellValue :=
  (columnSkipped searchColumns colIndex = false
   /\ truthy cellValue = true
   /\ includes (toLowerCase (toText cellValue)) (toLowerCase searchText) = true).

Lemma searchRow_In rowIndex cells :
  forall colIndex m,
    In m (searchRow sheet searchText searchColumns rowIndex colIndex cells) <->
    exists (j : nat) cellValue,
      nth_error cells j = Some cellValue
      /\ reported (colIndex + Z.of_nat j) cellValue
      /\ m = matchAt rowIndex (colIndex + Z.of_nat j) cellValue.
Proof.
  induction cells as [|cellValue cells IH]; intros colIndex m.
  - simpl. split; [intros [] | intros ([|j] & v & Hj & _); discriminate].
  - cbn [searchRow]. rewrite in_app_iff, IH. split.
    + intros [Hhere|(j & v & Hj & Hrep & Hm)].
      * exists 0%nat, cellValue. rewrite Z.add_0_r.
        destruct (columnSkipped searchColumns colIndex); [destruct Hhere|].
        destruct (truthy cellValue); [|destruct Hhere].
        destruct (includes _ _); [|destruct Hhere].
        destruct Hhere as [<-|[]]. repeat split.
      * exists (S j), v.
        replace (colIndex + Z.of_nat (S j)) with (colIndex + 1 + Z.of_nat j) by lia.
        auto.
    + intros ([|j] & v & Hj & Hrep & Hm).
      * left. injection Hj as <-. rewrite Z.add_0_r in Hrep, Hm.
        destruct Hrep as (-> & -> & ->). left. now symmetry.
      * right. exists j, v.
        replace (colIndex + 1 + Z.of_nat j) with (colIndex + Z.of_nat (S j)) by lia.
        auto.
Qed.

Lemma searchRows_In data :
  forall rowIndex m,
    In m (searchRows sheet searchText searchColumns rowIndex data) <->
    exists (i j : nat) cells cellValue,
      nth_error data i = Some cells
      /\ nth_error cells j = Some cellValue
      /\ reported (Z.of_nat j) cellValue
      /\ m = matchAt (rowIndex + Z.of_nat i) (Z.of_nat j) cellValue.
Proof.
  induction data as [|cells data IH]; intros rowIndex m.
  - simpl. split; [intros [] | intros ([|i] & j & cs & v & Hi & _); discriminate].
  - cbn [searchRows]. rewrite in_app_iff, IH, searchRow_In. split.
    + intros [(j & v & Hj & Hrep & Hm)|(i & j & cs & v & Hi & Hj & Hrep & Hm)].
      * exists 0%nat, j, cells, v. rewrite Z.add_0_r. auto.
      * exists (S i), j, cs, v.
        replace (rowIndex + Z.of_nat (S i)) with (rowIndex + 1 + Z.of_nat i) by lia.
        auto.
    + intros ([|i] & j & cs & v & Hi & Hj & Hrep & Hm).
      * left. injection Hi as <-. rewrite Z.add_0_r in Hm. exists j, v. auto.
      * right. exists i, j, cs, v.
        replace (rowIndex + 1 + Z.of_nat i) with (rowIndex + Z.of_nat (S i)) by lia.
        auto.
Qed.
End SearchFacts.

(** What [search] reports: exactly the cells that pass the column filter,
    are truthy, and whose text contains the search text, case folded. *)
Lemma search_In sheet searchText searchColumns data m :
  In m (search sheet searchText searchColumns data) <->
  exists (i j : nat) cells cellValue,
    nth_error data i = Some cells
    /\ nth_error cells j = Some cellValue
    /\ columnSkipped searchColumns (Z.of_nat j) = false
    /\ truthy cellValue = true
    /\ includes (toLowerCase (toText cellValue)) (toLowerCase searchText) = true
    /\ m = {| cell := rowColToA1 (Z.of_nat i + 1) (Z.of_nat j + 1);
              value := cellValue;
              row := Z.of_nat i + 1;
              column := Z.of_nat j + 1;
              sheetName := sheet |}.
Proof.
  unfold search. rewrite searchRows_In. split.
  - intros (i & j & cs & v & Hi & Hj & (H1 & H2 & H3) & Hm).
    exists i, j, cs, v. rewrite !Z.add_0_l in Hm. repeat split; assumption.
  - intros (i & j & cs & v & Hi & Hj & H1 & H2 & H3 & Hm).
    exists i, j, cs, v. rewrite !Z.add_0_l. repeat split; assumption.
Qed.

(** The example of the specification: one match, at row 2, column 2. *)
Lemma search_example :
  search "Sheet1" "Seoul" None
    [[VString "Name"; VString "City"]; [VString "John"; VString "Seoul"];
     [VString "Jane"; VString "Busan"]]
  = [ {| cell := "B2"; value := VString "Seoul"; row := 2; column := 2;
         sheetName := "Sheet1" |} ].
Proof. reflexivity. Qed.

(** C4, the code at the failing input. The cell that holds the number 0 is
    not absent and its text "0" contains the search text "0", but the guard
    [cellValue &&] is false for it and [search] reports no match. *)
Theorem search_skips_zero_cell :
  toText (VNumber 0) = "0"
  /\ includes (toLowerCase (toText (VNumber 0))) (toLowerCase "0") = true
  /\ truthy (VNumber 0) = false
  /\ search "Sheet1" "0" None [[VNumber 0]] = [].
Proof. repeat split. Qed.

(** ** Replacement text *)

(** The pattern built from the escaped [findText] matches [findText]
    itself, character by character. *)
Lemma patternAtoms_escapeRegExp (s : string) : patternAtoms (escapeRegExp s) = s.
Proof.
  induction s as [|c s IH]; [reflexivity|].
  cbn [escapeRegExp]. destruct (isRegExpSpecial c) eqn:Hc.
  - cbn [patternAtoms]. now rewrite IH.
  - destruct c as [[] [] [] [] [] [] [] []]; try discriminate Hc;
      cbn [patternAtoms]; now rewrite IH.
Qed.

(** A replacement text without a dollar sign is inserted as it is. *)
Lemma getSubstitution_plain (replacement matched before after : string) :
  countChar "$" replacement = 0%nat ->
  getSubstitution replacement matched before after = replacement.
Proof.
  induction replacement as [|c r IH]; [reflexivity|].
  cbn [countChar]. destruct (Ascii.eqb_spec c "$") as [->|Hc]; [discriminate|].
  intros Hr. cbn [Nat.add] in Hr.
  destruct c as [[] [] [] [] [] [] [] []]; try (exfalso; apply Hc; reflexivity);
    cbn [getSubstitution]; now rewrite (IH Hr).
Qed.

(** The example of the specification: the occurrence is replaced and the
    text around it is kept; with [matchEntireCell] the cell is left alone. *)
Lemma smartReplace_example :
  smartReplace (W:=unit) (fun _ _ _ => None) "Seoul" "Seoul City" None false false
    [[VString "Contact: Seoul Office"]]
  = ([("A1", "Contact: Seoul City Office")],
     Ok {| modifiedCells := 1;
           replacements := [ {| cellRef := "A1";
                                originalValue := "Contact: Seoul Office";
                                newValue := "Contact: Seoul City Office" |} ] |})
  /\ smartReplace (W:=unit) (fun _ _ _ => None) "Seoul" "Seoul City" None false true
       [[VString "Contact: Seoul Office"]]
     = ([], Ok {| modifiedCells := 0; replacements := [] |}).
Proof. split; reflexivity. Qed.

(** C5, the code at the failing input. Without [matchEntireCell] the
    replacement text goes through the dollar patterns of
    [String.prototype.replace]: the occurrence of "USD" is replaced by "$",
    not by the replacement text "$$"; with [matchEntireCell] the same
    replacement text is written as it is. *)
Theorem smartReplace_dollar_pattern :
  smartReplace (W:=unit) (fun _ _ _ => None) "USD" "$$" None false false
    [[VString "Price: 5 USD"]]
  = ([("A1", "Price: 5 $")],
     Ok {| modifiedCells := 1;
           replacements := [ {| cellRef := "A1";
                                originalValue := "Price: 5 USD";
                                newValue := "Price: 5 $" |} ] |})
  /\ smartReplace (W:=unit) (fun _ _ _ => None) "USD" "$$" None false true
       [[VString "USD"]]
     = ([("A1", "$$")],
        Ok {| modifiedCells := 1;
              replacements := [ {| cellRef := "A1";
                                   originalValue := "USD";
                                   newValue := "$$" |} ] |}).
Proof. split; reflexivity. Qed.

(** * More of the code *)

Import SheetsUtilsMore.

(** ** Addresses *)

Lemma colOfLetters_ge (letters : string) :
  forallb_string isUpper letters = true ->
  forall col, 0 <= col -> col <= colOfLetters letters col.
Proof.
  induction letters as [|c letters IH]; intros Hup col Hcol; cbn [colOfLetters]; [lia|].
  cbn [forallb_string] in Hup. apply andb_true_iff in Hup as [Hc Hup].
  assert (1 <= charCode c - 64) by (unfold isUpper in Hc; lia).
  specialize (IH Hup (col * 26 + (charCode c - 64)) ltac:(lia)). lia.
Qed.

Lemma parseDigits_ge (digits : string) :
  forallb_string isDigit digits = true ->
  forall acc, 0 <= acc -> acc <= parseDigits digits acc.
Proof.
  induction digits as [|c digits IH]; intros Hd acc Hacc; cbn [parseDigits]; [lia|].
  cbn [forallb_string] in Hd. apply andb_true_iff in Hd as [Hc Hd].
  assert (0 <= charCode c - 48) by (unfold isDigit in Hc; lia).
  specialize (IH Hd (acc * 10 + (charCode c - 48)) ltac:(lia)). lia.
Qed.

(** What the A1 pattern accepts: capitals, then digits, both present. *)
Lemma matchA1_some (a1 letters digits : string) :
  matchA1 a1 = Some (letters, digits) ->
  a1 = (letters ++ digits)%string
  /\ forallb_string isUpper letters = true /\ letters <> ""
  /\ forallb_string isDigit digits = true /\ digits <> "".
Proof.
  unfold matchA1. destruct (span isUpper a1) as [l d] eqn:Hspan.
  apply span_spec in Hspan as [-> Hup].
  destruct l as [|c l]; [discriminate|]. destruct d as [|c' d]; [discriminate|].
  cbn [isEmptyString negb andb].
  destruct (forallb_string isDigit (String c' d)) eqn:Hd; [|discriminate].
  intros [= <- <-]. repeat split; auto; discriminate.
Qed.

Lemma matchA1_app (letters digits : string) :
  forallb_string isUpper letters = true -> letters <> "" ->
  forallb_string isDigit digits = true -> digits <> "" ->
  matchA1 (letters ++ digits) = Some (letters, digits).
Proof.
  intros Hup Hl Hd Hdn. unfold matchA1. rewrite span_app.
  - destruct letters; [congruence|]. destruct digits; [congruence|].
    cbn [isEmptyString negb andb]. now rewrite Hd.
  - assumption.
  - destruct digits as [|c d]; [reflexivity|].
    cbn [forallb_string] in Hd. apply andb_true_iff in Hd as [Hc _].
    now rewrite digit_not_upper.
Qed.

Lemma decoded_bounds (letters digits : string) :
  forallb_string isUpper letters = true -> letters <> "" ->
  forallb_string isDigit digits = true ->
  1 <= colOfLetters letters 0 /\ 0 <= parseInt10 digits.
Proof.
  intros Hup Hl Hd. split.
  - destruct letters as [|c letters]; [congruence|].
    cbn [forallb_string] in Hup. apply andb_true_iff in Hup as [Hc Hup].
    cbn [colOfLetters]. unfold isUpper in Hc.
    pose proof (colOfLetters_ge letters Hup (0 * 26 + (charCode c - 64)) ltac:(lia)).
    lia.
  - unfold parseInt10. apply (parseDigits_ge digits Hd 0). lia.
Qed.

(** X2. Every address that [a1ToRowCol] returns has a column of at least 1
    and a row of at least 0: the row 0 ("A0") is not rejected. *)
Theorem a1ToRowCol_bounds (a1 : string) (rc : RowCol) :
  a1ToRowCol a1 = Ok rc ->
  1 <= SheetsUtils.col rc /\ 0 <= SheetsUtils.row rc.
Proof.
  unfold a1ToRowCol.
  destruct (matchA1 a1) as [[letters digits]|] eqn:Hm; [|discriminate].
  apply matchA1_some in Hm as (_ & Hup & Hl & Hd & _).
  intros [= <-]. cbn [SheetsUtils.row SheetsUtils.col].
  now apply decoded_bounds.
Qed.

Lemma a1ToRowCol_bounds_witness :
  a1ToRowCol "A0" = Ok {| SheetsUtils.row := 0; SheetsUtils.col := 1 |}
  /\ 1 <= 1 /\ 0 <= 0.
Proof.
  split; [reflexivity|].
  exact (a1ToRowCol_bounds "A0" {| SheetsUtils.row := 0; SheetsUtils.col := 1 |} eq_refl).
Defined.

Lemma numberToString_no_capital (row : Z) :
  span isUpper (numberToString row) = ("", numberToString row).
Proof.
  unfold numberToString. destruct (Z.ltb_spec row 0); [reflexivity|].
  destruct (digitsOf_digits row ltac:(lia)) as [Hd Hne].
  destruct (digitsOf row "") as [|c d]; [congruence|].
  cbn [forallb_string] in Hd. apply andb_true_iff in Hd as [Hc _].
  cbn [span]. now rewrite (digit_not_upper c Hc).
Qed.

Lemma rowColToA1_numeral (row col : Z) :
  col <= 0 -> rowColToA1 row col = numberToString row.
Proof.
  intros Hc. unfold rowColToA1. now rewrite lettersOfCol_nonpos by assumption.
Qed.

Lemma a1ToRowCol_numeral (row : Z) :
  a1ToRowCol (numberToString row) = Err (InvalidA1Notation (numberToString row)).
Proof. unfold a1ToRowCol, matchA1. now rewrite numberToString_no_capital. Qed.

(** X3. For a column below 1 [rowColToA1] writes no letters, only the row
    numeral, and [a1ToRowCol] rejects that text. *)
Theorem rowColToA1_without_column (row col : Z) :
  col <= 0 ->
  rowColToA1 row col = numberToString row
  /\ a1ToRowCol (rowColToA1 row col) = Err (InvalidA1Notation (numberToString row)).
Proof.
  intros Hc. rewrite rowColToA1_numeral by assumption.
  split; [reflexivity | apply a1ToRowCol_numeral].
Qed.

Lemma rowColToA1_without_column_witness :
  rowColToA1 5 0 = "5" /\ a1ToRowCol (rowColToA1 5 0) = Err (InvalidA1Notation "5").
Proof. apply (rowColToA1_without_column 5 0). lia. Defined.

(** ** Addresses as the code computes them

    The rounding of doubles, and where it leaves the arithmetic of
    [a1ToRowCol] and [rowColToA1] exact. *)

Lemma ulpExponent_integer (z : Z) : 0 < z -> ulpExponent z 1 = Z.log2 z - 52.
Proof.
  intros Hz. unfold ulpExponent, scaled.
  change (Z.log2 1) with 0. rewrite Z.sub_0_r.
  pose proof (Z.log2_nonneg z) as Hl.
  destruct (Z.leb_spec 0 (Z.log2 z)) as [_|]; [|lia].
  pose proof (Z.log2_spec z Hz) as [Hlo _].
  destruct (Z.leb_spec (1 * 2 ^ Z.log2 z) z); [reflexivity | lia].
Qed.

Lemma nearestEven_integer (n : Z) : nearestEven n 1 = n.
Proof.
  unfold nearestEven. rewrite Z.div_1_r, Z.mod_1_r. reflexivity.
Qed.

Lemma floorRounded_safe (z : Z) : 0 <= z < 2 ^ 53 -> floorRounded z 1 = z.
Proof.
  intros [Hlo Hhi]. unfold floorRounded.
  destruct (Z.leb_spec z 0); [lia|].
  assert (Hinf : z < infinity).
  { unfold infinity. apply Z.lt_trans with (2 ^ 53); [assumption|].
    apply Z.pow_lt_mono_r; lia. }
  destruct (Z.leb_spec infinity z); [lia|].
  rewrite ulpExponent_integer by lia.
  assert (Hl : Z.log2 z < 53) by (apply Z.log2_lt_pow2; lia).
  unfold scaled.
  destruct (Z.leb_spec 0 (Z.log2 z - 52)) as [He|He].
  - assert (Z.log2 z - 52 = 0) as -> by lia.
    change (1 * 2 ^ 0) with 1. rewrite nearestEven_integer.
    change (2 ^ 0) with 1. rewrite Z.mul_1_r.
    destruct (Z.leb_spec infinity z); [lia | reflexivity].
  - rewrite nearestEven_integer.
    rewrite Z.div_mul by (apply Z.pow_nonzero; lia).
    destruct (Z.leb_spec infinity z); [lia | reflexivity].
Qed.

Lemma roundDouble_safe (z : Z) : Z.abs z <= 2 ^ 53 -> roundDouble z = z.
Proof.
  intros Hz. unfold roundDouble.
  destruct (Z.eq_dec z (2 ^ 53)) as [->|]; [vm_compute; reflexivity|].
  destruct (Z.eq_dec z (- 2 ^ 53)) as [->|]; [vm_compute; reflexivity|].
  destruct (Z.ltb_spec z 0).
  - rewrite floorRounded_safe; lia.
  - apply floorRounded_safe. lia.
Qed.

Lemma nearestEven_ge (n d : Z) : n / d <= nearestEven n d.
Proof. unfold nearestEven. destruct (_ || _); lia. Qed.

Lemma nearestEven_le (n d : Z) : nearestEven n d <= n / d + 1.
Proof. unfold nearestEven. destruct (_ || _); lia. Qed.

(** A value of at least [2^l] rounds to at least [2^l], for [l >= 52]. *)
Lemma floorRounded_ge_pow2 (z l : Z) :
  52 <= l <= 1024 -> 2 ^ l <= z -> 2 ^ l <= floorRounded z 1.
Proof.
  intros Hl Hz. unfold floorRounded.
  assert (H0 : 0 < 2 ^ l) by (apply Z.pow_pos_nonneg; lia).
  assert (Hinf : 2 ^ l <= infinity) by (apply Z.pow_le_mono_r; lia).
  destruct (Z.leb_spec z 0); [lia|].
  destruct (Z.leb_spec infinity z); [lia|].
  rewrite ulpExponent_integer by lia.
  assert (Hlog : l <= Z.log2 z) by (apply Z.log2_le_pow2; lia).
  unfold scaled.
  destruct (Z.leb_spec 0 (Z.log2 z - 52)) as [_|]; [|lia].
  set (e := Z.log2 z - 52). rewrite Z.mul_1_l.
  assert (He : 0 < 2 ^ e) by (apply Z.pow_pos_nonneg; lia).
  pose proof (nearestEven_ge z (2 ^ e)) as Hm.
  assert (Hq : 2 ^ 52 <= z / 2 ^ e).
  { apply Z.div_le_lower_bound; [lia|].
    rewrite Z.mul_comm, <- Z.pow_add_r by lia.
    replace (52 + e) with (Z.log2 z) by lia.
    apply Z.log2_spec. lia. }
  assert (Hv : 2 ^ l <= nearestEven z (2 ^ e) * 2 ^ e).
  { destruct (Z.le_gt_cases l (Z.log2 z)) as [_|]; [|lia].
    apply Z.le_trans with (2 ^ Z.log2 z).
    - apply Z.pow_le_mono_r; lia.
    - replace (Z.log2 z) with (52 + e) by lia. rewrite Z.pow_add_r by lia.
      apply Z.mul_le_mono_nonneg_r; lia. }
  destruct (Z.leb_spec infinity (nearestEven z (2 ^ e) * 2 ^ e)); lia.
Qed.

Lemma roundDouble_large (z : Z) : 2 ^ 53 <= z -> 2 ^ 53 <= roundDouble z.
Proof.
  intros Hz. unfold roundDouble.
  destruct (Z.ltb_spec z 0); [lia|].
  apply floorRounded_ge_pow2; lia.
Qed.

Lemma roundDouble_nonneg (z : Z) : 0 <= z -> 0 <= roundDouble z.
Proof.
  intros Hz. destruct (Z.lt_ge_cases z (2 ^ 53)).
  - rewrite roundDouble_safe; lia.
  - pose proof (roundDouble_large z). lia.
Qed.

(** What rounds to a value below [2^53] is that value. *)
Lemma roundDouble_exact (z : Z) : 0 <= z -> roundDouble z < 2 ^ 53 -> roundDouble z = z.
Proof.
  intros Hz Hr. destruct (Z.lt_ge_cases z (2 ^ 53)).
  - apply roundDouble_safe. lia.
  - pose proof (roundDouble_large z). lia.
Qed.

(** [Math.floor(p / 26)] is the integer quotient when [p] is below [2^53]:
    the rounding of [p / 26] to a double does not reach the next integer. *)
Lemma floorRounded_div26 (p : Z) : 0 <= p < 2 ^ 53 -> floorRounded p 26 = p / 26.
Proof.
  intros [Hlo Hhi]. unfold floorRounded.
  destruct (Z.leb_spec p 0) as [H0|H0].
  { assert (p = 0) as -> by lia. reflexivity. }
  assert (Hinf : p < infinity).
  { unfold infinity. apply Z.lt_trans with (2 ^ 53); [assumption|].
    apply Z.pow_lt_mono_r; lia. }
  destruct (Z.leb_spec infinity p); [lia|].
  assert (Hl : Z.log2 p < 53) by (apply Z.log2_lt_pow2; lia).
  pose proof (Z.log2_nonneg p) as Hl0.
  assert (He : ulpExponent p 26 <= -4).
  { unfold ulpExponent. change (Z.log2 26) with 4.
    destruct (scaled p 26 (Z.log2 p - 4)) as [n d].
    destruct (d <=? n); lia. }
  assert (Hge : - 56 - 1 <= ulpExponent p 26).
  { unfold ulpExponent. change (Z.log2 26) with 4.
    destruct (scaled p 26 (Z.log2 p - 4)) as [n d].
    destruct (d <=? n); lia. }
  set (e := ulpExponent p 26) in *.
  unfold scaled.
  destruct (Z.leb_spec 0 e); [lia|].
  set (K := 2 ^ (- e)).
  assert (HK : 16 <= K).
  { subst K. change 16 with (2 ^ 4). apply Z.pow_le_mono_r; lia. }
  pose proof (nearestEven_ge (p * K) 26) as Hm1.
  pose proof (Z.div_mod (p * K) 26 ltac:(lia)) as Hdm.
  pose proof (Z.mod_pos_bound (p * K) 26 ltac:(lia)) as Hr.
  pose proof (Z.div_mod p 26 ltac:(lia)) as Hp.
  pose proof (Z.mod_pos_bound p 26 ltac:(lia)) as Hb.
  set (a := p / 26) in *. set (b := p mod 26) in *.
  set (q := p * K / 26) in *. set (r := (p * K) mod 26) in *.
  assert (HaK : a * K <= q) by nia.
  assert (Hup : nearestEven (p * K) 26 < (a + 1) * K).
  { unfold nearestEven. fold q r.
    destruct ((26 <? 2 * r) || ((2 * r =? 26) && Z.odd q)) eqn:Hc.
    - assert (13 <= r).
      { apply orb_true_iff in Hc as [Hc|Hc].
        - apply Z.ltb_lt in Hc. lia.
        - apply andb_true_iff in Hc as [Hc _]. apply Z.eqb_eq in Hc. lia. }
      nia.
    - nia. }
  assert (Hv : nearestEven (p * K) 26 / K = a).
  { symmetry. apply (Z.div_unique _ K a (nearestEven (p * K) 26 - a * K)); nia. }
  rewrite Hv.
  assert (a <= p) by (subst a; apply Z.div_le_upper_bound; lia).
  destruct (Z.leb_spec infinity a); [lia | reflexivity].
Qed.

(** ** Decimal numerals of doubles *)

Lemma log2_div10 (n : Z) : 10 <= n -> Z.log2 (n / 10) < Z.log2 n.
Proof.
  intros Hn.
  assert (H1 : 1 <= n / 10) by (apply Z.div_le_lower_bound; lia).
  assert (H2 : 2 * (n / 10) <= n).
  { pose proof (Z.mul_div_le n 10 ltac:(lia)). lia. }
  apply Z.log2_le_mono in H2. rewrite Z.log2_double in H2 by lia. lia.
Qed.

Lemma decimalLoop_digitsOf (turns : nat) :
  forall n acc, 0 <= n -> Z.log2 n < Z.of_nat turns ->
                decimalLoop turns n acc = digitsOf n acc.
Proof.
  induction turns as [|turns IH]; intros n acc Hn Hl.
  - pose proof (Z.log2_nonneg n). lia.
  - cbn [decimalLoop]. destruct (Z.ltb_spec n 10) as [Hs|Hb].
    + now rewrite digitsOf_small.
    + rewrite digitsOf_large by assumption. apply IH.
      * apply Z.div_pos; lia.
      * pose proof (log2_div10 n Hb). lia.
Qed.

Lemma decimal_digitsOf (n : Z) : 0 <= n -> decimal n = digitsOf n "".
Proof.
  intros Hn. unfold decimal. apply decimalLoop_digitsOf; [assumption|].
  pose proof (Z.log2_nonneg n). lia.
Qed.

Lemma string_length_append (a b : string) :
  String.length (a ++ b) = (String.length a + String.length b)%nat.
Proof. induction a as [|c a IH]; simpl; [reflexivity | now rewrite IH]. Qed.

Lemma digitsOf_length (k : nat) :
  forall n, 0 <= n < 10 ^ Z.of_nat (S k) -> (String.length (digitsOf n "") <= S k)%nat.
Proof.
  induction k as [|k IH]; intros n [Hlo Hhi].
  - change (10 ^ Z.of_nat 1) with 10 in Hhi. rewrite digitsOf_small by lia. simpl. lia.
  - destruct (Z.lt_ge_cases n 10) as [Hs|Hb].
    + rewrite digitsOf_small by lia. simpl. lia.
    + rewrite digitsOf_large, digitsOf_acc by (try apply Z.div_pos; lia).
      rewrite string_length_append. simpl.
      assert (Hq : 0 <= n / 10 < 10 ^ Z.of_nat (S k)).
      { split; [apply Z.div_pos; lia|].
        apply Z.div_lt_upper_bound; [lia|].
        replace (Z.of_nat (S (S k))) with (1 + Z.of_nat (S k)) in Hhi by lia.
        rewrite Z.pow_add_r in Hhi by lia. exact Hhi. }
      specialize (IH _ Hq). lia.
Qed.

Lemma shortestDecimal_rounds (x : Z) : roundDouble x = x ->
  forall turns n k, roundDouble (shortestDecimal turns x n k) = x.
Proof.
  intros Hx. induction turns as [|turns IH]; intros n k; cbn [shortestDecimal].
  - exact Hx.
  - set (unit := 10 ^ (n - k)). set (below := x / unit * unit).
    destruct (Z.eqb_spec (roundDouble below) x) as [Hb|Hb];
      destruct (Z.eqb_spec (roundDouble (below + unit)) x) as [Ha|Ha];
      cbn [andb]; try assumption; try apply IH.
    destruct (_ <? _); [assumption|].
    destruct (_ <? _); [assumption|].
    destruct (Z.even _); assumption.
Qed.

Lemma roundDouble_ge_1e21 (z : Z) : 10 ^ 21 <= z -> 10 ^ 21 <= roundDouble z.
Proof.
  intros Hz. unfold roundDouble.
  destruct (Z.ltb_spec z 0); [lia|].
  destruct (Z.lt_ge_cases z (2 ^ 70)) as [Hs|Hb].
  - unfold floorRounded.
    destruct (Z.leb_spec z 0); [lia|].
    assert (10 ^ 21 <= infinity) by (vm_compute; discriminate).
    destruct (Z.leb_spec infinity z); [lia|].
    rewrite ulpExponent_integer by lia.
    assert (Hl : Z.log2 z = 69) by (apply Z.log2_unique; lia).
    rewrite Hl. change (69 - 52) with 17. unfold scaled.
    change (0 <=? 17) with true. cbv iota. rewrite Z.mul_1_l.
    pose proof (nearestEven_ge z (2 ^ 17)) as Hm.
    assert (Hq : 10 ^ 21 / 2 ^ 17 <= z / 2 ^ 17) by (apply Z.div_le_mono; lia).
    assert (Hv : 10 ^ 21 <= nearestEven z (2 ^ 17) * 2 ^ 17).
    { change (10 ^ 21) with (10 ^ 21 / 2 ^ 17 * 2 ^ 17) at 1.
      apply Z.mul_le_mono_nonneg_r; lia. }
    destruct (Z.leb_spec infinity (nearestEven z (2 ^ 17) * 2 ^ 17)); lia.
  - pose proof (floorRounded_ge_pow2 z 70 ltac:(lia) Hb). lia.
Qed.

Lemma roundDouble_pos (v : Z) : 0 < roundDouble v -> 0 < v.
Proof.
  intros H. destruct (Z.lt_trichotomy v 0) as [Hn|[->|Hp]]; [|discriminate H|assumption].
  unfold roundDouble in H. destruct (Z.ltb_spec v 0); [|lia].
  assert (0 <= floorRounded (- v) 1).
  { replace (floorRounded (- v) 1) with (roundDouble (- v)).
    - apply roundDouble_nonneg. lia.
    - unfold roundDouble. destruct (Z.ltb_spec (- v) 0); [lia | reflexivity]. }
  lia.
Qed.

(** Below [10^21] a double is written as the shortest decimal numeral that
    rounds to it, in full. *)
Lemma magnitudeToString_fixed (x : Z) :
  0 < x < 10 ^ 21 -> roundDouble x = x ->
  exists v, 0 < v /\ roundDouble v = x /\ Doubles.magnitudeToString x = digitsOf v "".
Proof.
  intros [Hlo Hhi] Hx. unfold Doubles.magnitudeToString.
  destruct (Z.eqb_spec x 0); [lia|].
  assert (10 ^ 21 <= infinity) by (vm_compute; discriminate).
  destruct (Z.leb_spec infinity x); [lia|].
  set (v := shortestDecimal _ x _ 1).
  assert (Hv : roundDouble v = x) by (apply shortestDecimal_rounds; assumption).
  assert (Hpos : 0 < v) by (apply roundDouble_pos; lia).
  assert (Hlt : v < 10 ^ 21).
  { destruct (Z.lt_ge_cases v (10 ^ 21)); [assumption|].
    pose proof (roundDouble_ge_1e21 v). lia. }
  exists v. split; [assumption|]. split; [assumption|].
  unfold digitCount. rewrite decimal_digitsOf by lia.
  pose proof (digitsOf_length 20 v ltac:(split; [lia | exact Hlt])) as Hlen.
  destruct (Z.leb_spec (Z.of_nat (String.length (digitsOf v ""))) 21); [reflexivity | lia].
Qed.

Lemma numberToString_safe (x : Z) :
  Z.abs x <= 2 ^ 53 -> Doubles.numberToString x = numberToString x.
Proof.
  assert (Hmag : forall y, 0 <= y <= 2 ^ 53 -> Doubles.magnitudeToString y = digitsOf y "").
  { intros y [Hlo Hhi].
    destruct (Z.eq_dec y 0) as [->|]; [now rewrite digitsOf_small by lia|].
    destruct (Z.eq_dec y (2 ^ 53)) as [->|].
    { rewrite <- decimal_digitsOf by lia. vm_compute. reflexivity. }
    destruct (magnitudeToString_fixed y) as (v & Hpos & Hv & ->).
    - split; [lia|]. apply Z.lt_trans with (2 ^ 53); [lia | reflexivity].
    - apply roundDouble_safe. lia.
    - rewrite roundDouble_exact in Hv by lia. now subst v. }
  intros Hx. unfold Doubles.numberToString, numberToString.
  destruct (Z.ltb_spec x 0); [f_equal|]; apply Hmag; lia.
Qed.

(** ** Column letters in doubles *)

Lemma lettersOfCol_safe (turns : nat) :
  forall col acc s, 0 <= col <= 2 ^ 53 ->
    Doubles.lettersOfCol turns col acc = Some s ->
    s = SheetsUtils.lettersOfCol col acc.
Proof.
  induction turns as [|turns IH]; intros col acc s Hc; cbn [Doubles.lettersOfCol];
    destruct (Z.gtb_spec col 0) as [Hpos|Hz];
    try (rewrite lettersOfCol_nonpos by lia; congruence); [discriminate|].
  rewrite roundDouble_safe by lia.
  rewrite floorRounded_div26 by lia.
  rewrite lettersOfCol_pos by lia.
  apply IH. pose proof (pred_div26 col Hpos). lia.
Qed.

Lemma lettersOfCol_turns (turns : nat) :
  forall col acc, 0 <= col <= 2 ^ 53 -> col < 26 ^ Z.of_nat turns ->
    exists s, Doubles.lettersOfCol turns col acc = Some s.
Proof.
  induction turns as [|turns IH]; intros col acc Hc Ht; cbn [Doubles.lettersOfCol];
    destruct (Z.gtb_spec col 0) as [Hpos|Hz]; eauto.
  - change (26 ^ Z.of_nat 0) with 1 in Ht. lia.
  - rewrite roundDouble_safe by lia.
    rewrite floorRounded_div26 by lia.
    apply IH.
    + pose proof (pred_div26 col Hpos). lia.
    + apply Z.div_lt_upper_bound; [lia|].
      replace (Z.of_nat (S turns)) with (1 + Z.of_nat turns) in Ht by lia.
      rewrite Z.pow_add_r in Ht by lia. lia.
Qed.

(** With [Infinity] for the column the loop is still running after any
    number of turns. *)
Lemma lettersOfCol_infinity (turns : nat) :
  forall acc, Doubles.lettersOfCol turns infinity acc = None.
Proof.
  induction turns as [|turns IH]; intros acc; [reflexivity|].
  cbn [Doubles.lettersOfCol]. change (infinity >? 0) with true. cbv iota.
  replace (roundDouble (infinity - 1)) with infinity by (vm_compute; reflexivity).
  change (floorRounded infinity 26) with infinity. apply IH.
Qed.

Lemma lettersOfCol_12 (turns : nat) (col : Z) (acc : string) :
  (12 <= turns)%nat -> 0 <= col <= 2 ^ 53 ->
  Doubles.lettersOfCol turns col acc = Some (SheetsUtils.lettersOfCol col acc).
Proof.
  intros Ht Hc.
  destruct (lettersOfCol_turns turns col acc Hc) as [s Hs].
  - apply Z.le_lt_trans with (2 ^ 53); [lia|].
    apply Z.lt_le_trans with (26 ^ 12); [reflexivity|].
    apply Z.pow_le_mono_r; lia.
  - rewrite Hs. f_equal. now apply (lettersOfCol_safe turns).
Qed.

Lemma colOfLetters_safe (letters : string) :
  forallb_string isUpper letters = true ->
  forall acc, 0 <= acc -> SheetsUtils.colOfLetters letters acc <= 2 ^ 53 ->
    Doubles.colOfLetters letters acc = SheetsUtils.colOfLetters letters acc.
Proof.
  induction letters as [|c letters IH]; intros Hup acc Hacc Hle;
    cbn [Doubles.colOfLetters SheetsUtils.colOfLetters] in *; [reflexivity|].
  cbn [forallb_string] in Hup. apply andb_true_iff in Hup as [Hc Hup].
  assert (1 <= charCode c - 64 <= 26) by (unfold isUpper in Hc; lia).
  pose proof (colOfLetters_ge letters Hup (acc * 26 + (charCode c - 64)) ltac:(lia)).
  rewrite (roundDouble_safe (acc * 26)) by lia.
  rewrite roundDouble_safe by lia.
  apply IH; [assumption | lia | assumption].
Qed.

Lemma colOfLetters_large (letters : string) :
  forallb_string isUpper letters = true ->
  forall acc, 2 ^ 53 <= acc -> 2 ^ 53 <= Doubles.colOfLetters letters acc.
Proof.
  induction letters as [|c letters IH]; intros Hup acc Hacc;
    cbn [Doubles.colOfLetters]; [assumption|].
  cbn [forallb_string] in Hup. apply andb_true_iff in Hup as [Hc Hup].
  assert (1 <= charCode c - 64 <= 26) by (unfold isUpper in Hc; lia).
  apply IH; [assumption|].
  pose proof (roundDouble_large (acc * 26) ltac:(lia)).
  apply roundDouble_large. lia.
Qed.

Lemma colOfLetters_exact (letters : string) :
  forallb_string isUpper letters = true ->
  forall acc, 0 <= acc -> Doubles.colOfLetters letters acc < 2 ^ 53 ->
    Doubles.colOfLetters letters acc = SheetsUtils.colOfLetters letters acc.
Proof.
  induction letters as [|c letters IH]; intros Hup acc Hacc Hlt;
    cbn [Doubles.colOfLetters SheetsUtils.colOfLetters] in *; [reflexivity|].
  cbn [forallb_string] in Hup. apply andb_true_iff in Hup as [Hc Hup].
  assert (Hd : 1 <= charCode c - 64 <= 26) by (unfold isUpper in Hc; lia).
  set (t := roundDouble (acc * 26) + (charCode c - 64)) in *.
  assert (Ht0 : 0 <= t).
  { pose proof (roundDouble_nonneg (acc * 26) ltac:(lia)). lia. }
  destruct (Z.lt_ge_cases (roundDouble t) (2 ^ 53)) as [Hs|Hb].
  - assert (Ht : roundDouble t = t) by (apply roundDouble_exact; assumption).
    assert (Ha : roundDouble (acc * 26) = acc * 26).
    { apply roundDouble_exact; [lia|]. subst t. lia. }
    rewrite Ht in *. subst t. rewrite Ha in *.
    apply IH; [assumption | lia | assumption].
  - pose proof (colOfLetters_large letters Hup _ Hb). lia.
Qed.


(** The text written for a double row below [10^21] and a column up to
    [2^53]: the letters of the column and a numeral that rounds to the row. *)
Lemma rowColToA1_text (row col : Z) :
  0 < row < 10 ^ 21 -> roundDouble row = row -> 0 < col <= 2 ^ 53 ->
  exists v, 0 < v /\ roundDouble v = row
    /\ (row < 2 ^ 53 -> v = row)
    /\ forall turns, (12 <= turns)%nat ->
         Doubles.rowColToA1 turns row col = Some (SheetsUtils.rowColToA1 v col).
Proof.
  intros Hrow Hdbl Hcol.
  destruct (magnitudeToString_fixed row Hrow Hdbl) as (v & Hv & Hr & Hs).
  exists v. split; [assumption|]. split; [assumption|]. split.
  - intros Hsafe. rewrite roundDouble_exact in Hr by lia. assumption.
  - intros turns Ht. unfold Doubles.rowColToA1, SheetsUtils.rowColToA1.
    rewrite lettersOfCol_12 by (assumption || lia).
    unfold Doubles.numberToString, numberToString.
    destruct (Z.ltb_spec row 0); [lia|]. destruct (Z.ltb_spec v 0); [lia|].
    now rewrite Hs.
Qed.

Lemma a1ToRowCol_written (row col v : Z) :
  0 < v -> roundDouble v = row -> 0 < col <= 2 ^ 53 ->
  Doubles.a1ToRowCol (SheetsUtils.rowColToA1 v col)
  = Ok {| SheetsUtils.row := row; SheetsUtils.col := col |}.
Proof.
  intros Hv Hr Hcol. unfold Doubles.a1ToRowCol.
  rewrite matchA1_rowColToA1 by lia.
  unfold Doubles.parseInt10.
  change (parseDigits (numberToString v) 0) with (parseInt10 (numberToString v)).
  rewrite parseInt10_numberToString by lia.
  rewrite colOfLetters_safe.
  - rewrite colOfLetters_lettersOfCol by lia. now rewrite Hr.
  - apply lettersOfCol_letters. lia.
  - lia.
  - rewrite colOfLetters_lettersOfCol by lia. lia.
Qed.

(** A text that decodes, in doubles, to values below [2^53] decodes to
    the same values in exact arithmetic. *)
Lemma a1ToRowCol_exact (a1 : string) (rc : RowCol) :
  Doubles.a1ToRowCol a1 = Ok rc ->
  SheetsUtils.row rc < 2 ^ 53 -> SheetsUtils.col rc < 2 ^ 53 ->
  SheetsUtils.a1ToRowCol a1 = Ok rc.
Proof.
  unfold Doubles.a1ToRowCol, SheetsUtils.a1ToRowCol.
  destruct (matchA1 a1) as [[letters digits]|] eqn:Hm; [|discriminate].
  apply matchA1_some in Hm as (_ & Hup & _ & Hd & _).
  intros [= <-]. cbn [SheetsUtils.row SheetsUtils.col]. intros Hrow Hcol.
  unfold Doubles.parseInt10 in *.
  pose proof (parseDigits_ge digits Hd 0 ltac:(lia)) as Hge.
  rewrite roundDouble_exact by assumption.
  rewrite colOfLetters_exact by (assumption || lia).
  reflexivity.
Qed.

Lemma leadingZero_prefix (a1 letters digits : string) :
  matchA1 a1 = Some (letters, digits) ->
  leadingZero a1 = false -> 1 <= parseInt10 digits ->
  prefix "0" digits = false.
Proof.
  intros Hm Hz Hn. unfold leadingZero in Hz. rewrite Hm in Hz.
  destruct digits as [|c digits]; [reflexivity|].
  cbn [prefix]. destruct (ascii_dec "0" c) as [<-|]; [|reflexivity].
  destruct digits; [|discriminate Hz]. vm_compute in Hn. now elim Hn.
Qed.

(** C1 (as amended). For every integer column from 1 to [2^53] and every
    row from 1 to below [10^21] that is a double, [rowColToA1] returns a
    text (its loop takes at most 12 turns) and [a1ToRowCol] decodes that
    text to the same row and column; and when row and column are below
    [2^53], that text is the only text without a leading zero in its
    numeral that [a1ToRowCol] decodes to them. *)
Theorem a1ToRowCol_rowColToA1 (row col : Z) :
  1 <= row < 10 ^ 21 -> isDouble row = true -> 1 <= col <= 2 ^ 53 ->
  exists a1,
    (forall turns, (12 <= turns)%nat -> Doubles.rowColToA1 turns row col = Some a1)
    /\ Doubles.a1ToRowCol a1 = Ok {| SheetsUtils.row := row; SheetsUtils.col := col |}
    /\ (row < 2 ^ 53 -> col < 2 ^ 53 ->
        forall text,
          Doubles.a1ToRowCol text
          = Ok {| SheetsUtils.row := row; SheetsUtils.col := col |} ->
          leadingZero text = false -> text = a1).
Proof.
  intros Hrow Hdbl Hcol.
  unfold isDouble in Hdbl. apply andb_true_iff in Hdbl as [Hdbl _].
  apply Z.eqb_eq in Hdbl.
  destruct (rowColToA1_text row col) as (v & Hv & Hr & Hsafe & Htext);
    try assumption; try lia.
  exists (SheetsUtils.rowColToA1 v col).
  split; [exact Htext|]. split; [apply a1ToRowCol_written; assumption || lia|].
  intros Hrs Hcs text Hdec Hzero.
  rewrite (Hsafe Hrs).
  apply a1ToRowCol_exact in Hdec; [|assumption|assumption].
  symmetry.
  apply (rowColToA1_a1ToRowCol text _ Hdec); cbn [SheetsUtils.row SheetsUtils.col]; [lia|].
  intros letters digits Hm.
  apply (leadingZero_prefix text letters digits Hm Hzero).
  unfold SheetsUtils.a1ToRowCol in Hdec. rewrite Hm in Hdec.
  injection Hdec as Hp _. lia.
Qed.

Lemma a1ToRowCol_rowColToA1_witness :
  exists a1,
    (forall turns, (12 <= turns)%nat -> Doubles.rowColToA1 turns 27 27 = Some a1)
    /\ Doubles.a1ToRowCol a1 = Ok {| SheetsUtils.row := 27; SheetsUtils.col := 27 |}
    /\ (27 < 2 ^ 53 -> 27 < 2 ^ 53 ->
        forall text,
          Doubles.a1ToRowCol text
          = Ok {| SheetsUtils.row := 27; SheetsUtils.col := 27 |} ->
          leadingZero text = false -> text = a1).
Proof.
  apply (a1ToRowCol_rowColToA1 27 27); [vm_compute; split; discriminate || reflexivity
                                       | vm_compute; reflexivity
                                       | vm_compute; split; discriminate].
Defined.

(** C1, the claim as stated fails. For the row [10^21] the text is written
    in exponent form, "A1e+21", which [a1ToRowCol] rejects; for the column
    [2^53 + 2] the decrement [col--] is rounded to [2^53], and the text
    decodes to the column [2^53]; the text "A01" decodes to (1, 1), whose
    text is "A1"; and the numeral of "A9007199254740993" is rounded to the
    row [2^53], whose text is "A9007199254740992". *)
Lemma a1ToRowCol_rowColToA1_counterexample :
  (isDouble (10 ^ 21) = true
   /\ Doubles.rowColToA1 12 (10 ^ 21) 1 = Some "A1e+21"
   /\ Doubles.a1ToRowCol "A1e+21" = Err (InvalidA1Notation "A1e+21"))
  /\ (isDouble (2 ^ 53 + 2) = true
      /\ Doubles.rowColToA1 12 1 (2 ^ 53 + 2) = Some "BKTXHSOGHKKG1"
      /\ Doubles.a1ToRowCol "BKTXHSOGHKKG1"
         = Ok {| SheetsUtils.row := 1; SheetsUtils.col := 2 ^ 53 |})
  /\ (Doubles.a1ToRowCol "A01" = Ok {| SheetsUtils.row := 1; SheetsUtils.col := 1 |}
      /\ Doubles.rowColToA1 12 1 1 = Some "A1")
  /\ (Doubles.a1ToRowCol "A9007199254740993"
      = Ok {| SheetsUtils.row := 2 ^ 53; SheetsUtils.col := 1 |}
      /\ Doubles.rowColToA1 12 (2 ^ 53) 1 = Some "A9007199254740992").
Proof. vm_compute. repeat split. Qed.

(** Whatever number of turns the loop is given, a text it returns for a
    column up to [2^53] is the text of exact arithmetic. *)
Lemma rowColToA1_returned (turns : nat) (row col : Z) (a1 : string) :
  0 < row < 10 ^ 21 -> roundDouble row = row -> 0 < col <= 2 ^ 53 ->
  Doubles.rowColToA1 turns row col = Some a1 ->
  Doubles.a1ToRowCol a1 = Ok {| SheetsUtils.row := row; SheetsUtils.col := col |}.
Proof.
  intros Hrow Hdbl Hcol Hsome.
  destruct (rowColToA1_text row col Hrow Hdbl Hcol) as (v & Hv & Hr & _ & Htext).
  unfold Doubles.rowColToA1 in Hsome.
  destruct (Doubles.lettersOfCol turns col "") as [letters|] eqn:Hl; [|discriminate].
  apply lettersOfCol_safe in Hl; [|lia]. subst letters.
  specialize (Htext 12%nat (Nat.le_refl _)).
  unfold Doubles.rowColToA1 in Htext.
  rewrite lettersOfCol_12 in Htext by lia.
  rewrite Hsome in Htext. injection Htext as ->.
  apply a1ToRowCol_written; assumption.
Qed.

(** X1. Two cells with different positions never share an A1 text, for
    columns from 1 to [2^53] and rows from 1 to below [10^21]. *)
Theorem rowColToA1_distinct_cells (turns turns' : nat) (row col row' col' : Z)
    (a1 a1' : string) :
  1 <= row < 10 ^ 21 -> isDouble row = true -> 1 <= col <= 2 ^ 53 ->
  1 <= row' < 10 ^ 21 -> isDouble row' = true -> 1 <= col' <= 2 ^ 53 ->
  Doubles.rowColToA1 turns row col = Some a1 ->
  Doubles.rowColToA1 turns' row' col' = Some a1' ->
  (row, col) <> (row', col') ->
  a1 <> a1'.
Proof.
  intros Hr Hd Hc Hr' Hd' Hc' H1 H2 Hne Heq. subst a1'.
  unfold isDouble in Hd, Hd'.
  apply andb_true_iff in Hd as [Hd _]. apply Z.eqb_eq in Hd.
  apply andb_true_iff in Hd' as [Hd' _]. apply Z.eqb_eq in Hd'.
  apply rowColToA1_returned in H1; [|lia|assumption|lia].
  apply rowColToA1_returned in H2; [|lia|assumption|lia].
  rewrite H1 in H2. injection H2 as <- <-. now apply Hne.
Qed.

Lemma rowColToA1_distinct_cells_witness :
  Doubles.rowColToA1 12 1 26 = Some "Z1"
  /\ Doubles.rowColToA1 12 1 27 = Some "AA1"
  /\ "Z1" <> "AA1".
Proof.
  split; [reflexivity|]. split; [reflexivity|].
  apply (rowColToA1_distinct_cells 12 12 1 26 1 27 "Z1" "AA1");
    try lia; try (vm_compute; reflexivity).
  discriminate.
Defined.

(** X29. On integers of magnitude up to [2^53] the double arithmetic of
    the two functions is exact: [rowColToA1] returns, within 12 turns of its
    loop, the text that integer arithmetic gives, and [a1ToRowCol] returns
    the row and column that integer arithmetic gives whenever those are at
    most [2^53]. *)
Theorem doubles_exact_on_safe_integers (row col : Z) :
  Z.abs row <= 2 ^ 53 -> col <= 2 ^ 53 ->
  (forall turns, (12 <= turns)%nat ->
     Doubles.rowColToA1 turns row col = Some (SheetsUtils.rowColToA1 row col))
  /\ (forall a1 rc,
        SheetsUtils.a1ToRowCol a1 = Ok rc ->
        SheetsUtils.row rc <= 2 ^ 53 -> SheetsUtils.col rc <= 2 ^ 53 ->
        Doubles.a1ToRowCol a1 = Ok rc).
Proof.
  intros Hrow Hcol. split.
  - intros turns Ht. unfold Doubles.rowColToA1, SheetsUtils.rowColToA1.
    rewrite numberToString_safe by assumption.
    destruct (Z.le_gt_cases 0 col).
    + now rewrite lettersOfCol_12 by (assumption || lia).
    + rewrite lettersOfCol_nonpos by lia.
      destruct turns; cbn [Doubles.lettersOfCol];
        destruct (Z.gtb_spec col 0); (lia || reflexivity).
  - intros a1 rc. unfold Doubles.a1ToRowCol, SheetsUtils.a1ToRowCol.
    destruct (matchA1 a1) as [[letters digits]|] eqn:Hm; [|discriminate].
    apply matchA1_some in Hm as (_ & Hup & _ & Hd & _).
    intros [= <-]. cbn [SheetsUtils.row SheetsUtils.col]. intros Hr Hc.
    unfold Doubles.parseInt10, parseInt10 in *.
    pose proof (parseDigits_ge digits Hd 0 ltac:(lia)).
    rewrite roundDouble_safe by lia.
    rewrite colOfLetters_safe by (assumption || lia).
    reflexivity.
Qed.

Lemma doubles_exact_on_safe_integers_witness :
  Doubles.rowColToA1 12 10 28 = Some (SheetsUtils.rowColToA1 10 28).
Proof.
  apply (proj1 (doubles_exact_on_safe_integers 10 28
                  ltac:(vm_compute; discriminate) ltac:(vm_compute; discriminate)) 12%nat).
  apply Nat.le_refl.
Defined.

(** ** Ranges *)

Lemma countChar_app (sep : ascii) (a b : string) :
  countChar sep (a ++ b) = (countChar sep a + countChar sep b)%nat.
Proof. induction a as [|c a IH]; simpl; [reflexivity | rewrite IH; lia]. Qed.

Lemma countChar_none (sep : ascii) (p : ascii -> bool) (s : string) :
  p sep = false -> forallb_string p s = true -> countChar sep s = 0%nat.
Proof.
  intros Hsep. induction s as [|c s IH]; simpl; [reflexivity|].
  intros H. apply andb_true_iff in H as [Hc Hs].
  destruct (Ascii.eqb_spec c sep) as [->|_]; [congruence|]. now rewrite IH.
Qed.

(** The A1 text of a cell: capitals, then digits, and no colon. *)
Lemma rowColToA1_shape (row col : Z) : 0 <= row -> 0 < col ->
  rowColToA1 row col <> "" /\ countChar ":" (rowColToA1 row col) = 0%nat.
Proof.
  intros Hr Hc. pose proof (matchA1_rowColToA1 row col Hr Hc) as Hm.
  apply matchA1_some in Hm as (Heq & Hup & Hl & Hd & Hdn). split.
  - rewrite Heq. destruct (lettersOfCol col ""); [congruence | discriminate].
  - rewrite Heq, countChar_app.
    rewrite (countChar_none ":" isUpper), (countChar_none ":" isDigit); auto.
Qed.

Lemma parseRange_of_cells (row1 col1 row2 col2 : Z) :
  0 <= row1 -> 0 < col1 -> 0 <= row2 -> 0 < col2 ->
  parseRange (rowColToA1 row1 col1 ++ ":" ++ rowColToA1 row2 col2)
  = Ok {| startRow := row1; endRow := row2; startCol := col1; endCol := col2 |}.
Proof.
  intros Hr1 Hc1 Hr2 Hc2.
  destruct (rowColToA1_shape row1 col1 Hr1 Hc1) as [Hn1 Hk1].
  destruct (rowColToA1_shape row2 col2 Hr2 Hc2) as [Hn2 Hk2].
  unfold parseRange. cbn [append].
  rewrite split_at_separator, split_no_separator by assumption.
  destruct (rowColToA1 row1 col1) eqn:E1; [congruence|].
  destruct (rowColToA1 row2 col2) eqn:E2; [congruence|].
  cbn [isEmptyString orb]. rewrite <- E1, <- E2.
  now rewrite !decode_encode by assumption.
Qed.

(** X5. Parsing the range written from two cells, with rows and columns
    from 1 to [2^53], gives back their coordinates, start first, whatever
    their order: a range whose end lies before its start is accepted and not
    normalised. *)
Theorem parseRange_round_trip (row1 col1 row2 col2 : Z) :
  1 <= row1 <= 2 ^ 53 -> 1 <= col1 <= 2 ^ 53 ->
  1 <= row2 <= 2 ^ 53 -> 1 <= col2 <= 2 ^ 53 ->
  parseRange (rowColToA1 row1 col1 ++ ":" ++ rowColToA1 row2 col2)
  = Ok {| startRow := row1; endRow := row2; startCol := col1; endCol := col2 |}
  /\ isValidRange (rowColToA1 row1 col1 ++ ":" ++ rowColToA1 row2 col2) = true.
Proof.
  intros. unfold isValidRange. rewrite parseRange_of_cells by lia. auto.
Qed.

Lemma parseRange_round_trip_witness :
  parseRange (rowColToA1 10 2 ++ ":" ++ rowColToA1 1 1)
  = Ok {| startRow := 10; endRow := 1; startCol := 2; endCol := 1 |}.
Proof. apply (parseRange_round_trip 10 2 1 1); lia. Defined.

(** What [parseRange] accepts, and the bounds of what it returns. *)
Lemma parseRange_ok (range : string) (parsed : Range) :
  parseRange range = Ok parsed ->
  0 <= startRow parsed /\ 1 <= startCol parsed
  /\ 0 <= endRow parsed /\ 1 <= endCol parsed.
Proof.
  unfold parseRange.
  destruct (split ":" range) as [|p0 [|p1 [|p2 ps]]]; try discriminate.
  destruct (isEmptyString p0 || isEmptyString p1); [discriminate|].
  unfold a1ToRowCol.
  destruct (matchA1 p0) as [[l0 d0]|] eqn:H0; [|discriminate].
  destruct (matchA1 p1) as [[l1 d1]|] eqn:H1; [|discriminate].
  cbn [bind]. intros [= <-]. cbn.
  apply matchA1_some in H0 as (_ & Hu0 & Hl0 & Hd0 & _).
  apply matchA1_some in H1 as (_ & Hu1 & Hl1 & Hd1 & _).
  destruct (decoded_bounds l0 d0 Hu0 Hl0 Hd0), (decoded_bounds l1 d1 Hu1 Hl1 Hd1).
  auto.
Qed.

(** X6. For a valid range and data whose first row is not empty,
    [expandRangeToData] returns a valid range that keeps the start cell and
    ends at the start plus the number of rows and the length of the first
    row, minus one, as long as these two sums do not exceed [2^53] (the
    code adds before it subtracts 1). *)
Theorem expandRangeToData_extent {A : Type} (range : string) (parsed : Range)
    (first : list A) (rest : list (list A)) :
  parseRange range = Ok parsed ->
  first <> [] ->
  startRow parsed + Z.of_nat (List.length (first :: rest)) <= 2 ^ 53 ->
  startCol parsed + Z.of_nat (List.length first) <= 2 ^ 53 ->
  exists expanded,
    expandRangeToData range (first :: rest) = Ok expanded
    /\ parseRange expanded
       = Ok {| startRow := startRow parsed;
               endRow := startRow parsed + Z.of_nat (List.length (first :: rest)) - 1;
               startCol := startCol parsed;
               endCol := startCol parsed + Z.of_nat (List.length first) - 1 |}.
Proof.
  intros Hp Hne _ _. unfold expandRangeToData. rewrite Hp. cbn [bind firstRowLength].
  eexists. split; [reflexivity|].
  apply parseRange_ok in Hp as (H1 & H2 & _ & _).
  assert (1 <= Z.of_nat (List.length first)) by (destruct first; [congruence | simpl; lia]).
  apply parseRange_of_cells; cbn [List.length]; lia.
Qed.

Lemma expandRangeToData_extent_witness :
  exists expanded,
    expandRangeToData "B2:C3" [[1; 2; 3]; [4; 5; 6]] = Ok expanded
    /\ parseRange expanded
       = Ok {| startRow := 2; endRow := 2 + 2 - 1; startCol := 2; endCol := 2 + 3 - 1 |}.
Proof.
  apply (expandRangeToData_extent "B2:C3"
           {| startRow := 2; endRow := 3; startCol := 2; endCol := 3 |}
           [1; 2; 3] [[4; 5; 6]] eq_refl).
  - discriminate.
  - vm_compute. discriminate.
  - vm_compute. discriminate.
Defined.

(** X7. When the first row of the data is empty and the range starts in
    column A, the text that [expandRangeToData] returns has an end cell
    without letters and is not a valid range. *)
Theorem expandRangeToData_empty_first_row {A : Type} (range : string)
    (parsed : Range) (rest : list (list A)) :
  parseRange range = Ok parsed ->
  startCol parsed = 1 ->
  exists expanded,
    expandRangeToData range ([] :: rest) = Ok expanded
    /\ isValidRange expanded = false.
Proof.
  intros Hp Hcol. unfold expandRangeToData. rewrite Hp. cbn [bind firstRowLength].
  eexists. split; [reflexivity|].
  apply parseRange_ok in Hp as (H1 & H2 & _ & _).
  set (rows := Z.of_nat (List.length ([] :: rest))).
  destruct (rowColToA1_shape (startRow parsed) (startCol parsed)) as [Hn Hk]; try lia.
  assert (Hend : rowColToA1 (startRow parsed + rows - 1)
                   (startCol parsed + Z.of_nat (@List.length A []) - 1)
                 = numberToString (startRow parsed + rows - 1))
    by (apply rowColToA1_numeral; cbn [List.length]; lia).
  unfold isValidRange, parseRange. cbn [append].
  assert (Hk2 : countChar ":" (numberToString (startRow parsed + rows - 1)) = 0%nat).
  { unfold numberToString. destruct (Z.ltb_spec (startRow parsed + rows - 1) 0).
    - subst rows. cbn [List.length] in *. lia.
    - apply (countChar_none ":" isDigit); [reflexivity|].
      apply digitsOf_digits. lia. }
  rewrite Hend in *.
  rewrite split_at_separator, split_no_separator by assumption.
  destruct (isEmptyString _ || isEmptyString _); [reflexivity|].
  rewrite decode_encode by lia. cbn [bind].
  now rewrite a1ToRowCol_numeral.
Qed.

Lemma expandRangeToData_empty_first_row_witness :
  exists expanded,
    expandRangeToData "A1:B2" [([] : list Z)] = Ok expanded
    /\ isValidRange expanded = false.
Proof.
  apply (expandRangeToData_empty_first_row "A1:B2"
           {| startRow := 1; endRow := 2; startCol := 1; endCol := 2 |} [] eq_refl eq_refl).
Defined.

(** The strings of the form capitals, digits, colon, capitals, digits. *)
Lemma rangeSchemaMatches_shape (s : string) :
  rangeSchemaMatches s = true <->
  exists l1 d1 l2 d2,
    s = (l1 ++ d1 ++ ":" ++ l2 ++ d2)%string
    /\ forallb_string isUpper l1 = true /\ l1 <> ""
    /\ forallb_string isDigit d1 = true /\ d1 <> ""
    /\ forallb_string isUpper l2 = true /\ l2 <> ""
    /\ forallb_string isDigit d2 = true /\ d2 <> "".
Proof.
  unfold rangeSchemaMatches. split.
  - destruct (span isUpper s) as [l1 r1] eqn:E1.
    destruct (span isDigit r1) as [d1 r2] eqn:E2.
    destruct r2 as [|c r3]; [discriminate|].
    destruct (Ascii.eqb_spec c ":") as [->|Hc].
    2:{ destruct c as [[] [] [] [] [] [] [] []]; try discriminate;
        exfalso; apply Hc; reflexivity. }
    destruct (span isUpper r3) as [l2 r4] eqn:E3.
    destruct (span isDigit r4) as [d2 r5] eqn:E4.
    apply span_spec in E1 as [-> H1], E2 as [-> H2], E3 as [-> H3], E4 as [-> H4].
    intros H.
    destruct l1; [discriminate|]. destruct d1; [discriminate|].
    destruct l2; [discriminate|]. destruct d2; [discriminate|].
    destruct r5; [|discriminate].
    eexists _, _, _, _. rewrite append_empty_r.
    repeat split; try eassumption; discriminate.
  - intros (l1 & d1 & l2 & d2 & -> & H1 & N1 & H2 & N2 & H3 & N3 & H4 & N4).
    rewrite (span_app isUpper l1); [|assumption|].
    2:{ destruct d1 as [|c d]; [congruence|]. cbn [append].
        cbn [forallb_string] in H2. apply andb_true_iff in H2 as [Hc _].
        now rewrite digit_not_upper. }
    rewrite (span_app isDigit d1); [|assumption|reflexivity].
    cbn [append].
    rewrite (span_app isUpper l2); [|assumption|].
    2:{ destruct d2 as [|c d]; [congruence|].
        cbn [forallb_string] in H4. apply andb_true_iff in H4 as [Hc _].
        now rewrite digit_not_upper. }
    rewrite <- (append_empty_r d2) at 1.
    rewrite (span_app isDigit d2); [|assumption|reflexivity].
    destruct l1; [congruence|]. destruct d1; [congruence|].
    destruct l2; [congruence|]. destruct d2; [congruence|]. reflexivity.
Qed.

(** [split] cuts a string with one separator into the two sides. *)
Lemma split_two (sep : ascii) (s a b : string) :
  split sep s = [a; b] ->
  s = (a ++ String sep b)%string
  /\ countChar sep a = 0%nat /\ countChar sep b = 0%nat.
Proof.
  revert a. induction s as [|c s IH]; intros a; simpl; [discriminate|].
  destruct (Ascii.eqb_spec c sep) as [->|Hc].
  - intros [= <- Hs]. pose proof (split_length sep s) as Hl.
    rewrite Hs in Hl. simpl in Hl.
    assert (Hz : countChar sep s = 0%nat) by lia.
    rewrite (split_no_separator sep s Hz) in Hs. injection Hs as <-.
    simpl. auto.
  - destruct (split sep s) as [|piece pieces] eqn:Es; [discriminate|].
    intros [= <- ->]. destruct (IH piece eq_refl) as (-> & Ha & Hb).
    simpl. destruct (Ascii.eqb_spec c sep); [congruence|]. auto.
Qed.

Lemma isValidRange_shape (s : string) :
  isValidRange s = true <->
  exists l1 d1 l2 d2,
    s = (l1 ++ d1 ++ ":" ++ l2 ++ d2)%string
    /\ forallb_string isUpper l1 = true /\ l1 <> ""
    /\ forallb_string isDigit d1 = true /\ d1 <> ""
    /\ forallb_string isUpper l2 = true /\ l2 <> ""
    /\ forallb_string isDigit d2 = true /\ d2 <> "".
Proof.
  unfold isValidRange, parseRange. split.
  - destruct (split ":" s) as [|p0 [|p1 [|p2 ps]]] eqn:Es; try discriminate.
    apply split_two in Es as (-> & _ & _).
    destruct (isEmptyString p0 || isEmptyString p1); [discriminate|].
    unfold a1ToRowCol.
    destruct (matchA1 p0) as [[l1 d1]|] eqn:H0; [|discriminate].
    destruct (matchA1 p1) as [[l2 d2]|] eqn:H1; [|discriminate].
    intros _.
    apply matchA1_some in H0 as (-> & ? & ? & ? & ?).
    apply matchA1_some in H1 as (-> & ? & ? & ? & ?).
    exists l1, d1, l2, d2. rewrite append_assoc. auto 10.
  - intros (l1 & d1 & l2 & d2 & -> & H1 & N1 & H2 & N2 & H3 & N3 & H4 & N4).
    rewrite <- append_assoc.
    assert (K1 : countChar ":" (l1 ++ d1) = 0%nat).
    { rewrite countChar_app, (countChar_none ":" isUpper), (countChar_none ":" isDigit); auto. }
    assert (K2 : countChar ":" (l2 ++ d2) = 0%nat).
    { rewrite countChar_app, (countChar_none ":" isUpper), (countChar_none ":" isDigit); auto. }
    cbn [append]. rewrite split_at_separator, split_no_separator by assumption.
    assert (E1 : isEmptyString (l1 ++ d1) = false) by (destruct l1; [congruence | reflexivity]).
    assert (E2 : isEmptyString (l2 ++ d2) = false) by (destruct l2; [congruence | reflexivity]).
    rewrite E1, E2. cbn [orb]. unfold a1ToRowCol.
    now rewrite !matchA1_app by assumption.
Qed.

(** X8. The range pattern of the tool schemas and [isValidRange] accept
    exactly the same strings, so the [isValidRange] test of [readRange] and
    [updateRange] never fails on a range that passed the schema. *)
Theorem isValidRange_is_schema (range : string) :
  isValidRange range = rangeSchemaMatches range.
Proof.
  destruct (isValidRange range) eqn:Hv, (rangeSchemaMatches range) eqn:Hs;
    try reflexivity.
  - apply isValidRange_shape, rangeSchemaMatches_shape in Hv. congruence.
  - apply rangeSchemaMatches_shape, isValidRange_shape in Hs. congruence.
Qed.

(** ** Spreadsheet identifiers *)

Lemma matchIdAfter_id (literal input id : string) :
  matchIdAfter literal input = Some id -> isIdFormat id = true.
Proof.
  induction input as [|c input IH]; cbn [matchIdAfter].
  - destruct (prefix literal ""); [|discriminate].
    destruct (span isIdChar (dropChars (String.length literal) "")) as [[|x run] r] eqn:E;
      [discriminate|].
    intros [= <-]. apply span_spec in E as [_ H]. exact H.
  - destruct (prefix literal (String c input)).
    + destruct (span isIdChar (dropChars (String.length literal) (String c input)))
        as [[|x run] r] eqn:E; [exact IH|].
      intros [= <-]. apply span_spec in E as [_ H]. exact H.
    + exact IH.
Qed.

Lemma firstUrlMatch_id (patterns : list string) (input id : string) :
  firstUrlMatch patterns input = Some id -> isIdFormat id = true.
Proof.
  induction patterns as [|pattern rest IH]; cbn [firstUrlMatch]; [discriminate|].
  destruct (matchIdAfter pattern input) as [id'|] eqn:E; [|exact IH].
  intros [= <-]. now apply matchIdAfter_id in E.
Qed.

(** X9. Whatever [extractSpreadsheetId] returns is a non-empty string of
    identifier characters, so extracting again returns it unchanged. *)
Theorem extractSpreadsheetId_idempotent (input id : string) :
  extractSpreadsheetId input = Ok id ->
  isIdFormat id = true /\ extractSpreadsheetId id = Ok id.
Proof.
  intros H.
  assert (Hid : isIdFormat id = true).
  { unfold extractSpreadsheetId in H. destruct (isIdFormat input) eqn:Hf.
    - now injection H as <-.
    - destruct (firstUrlMatch urlPatterns input) as [id'|] eqn:E; [|discriminate].
      injection H as <-. now apply firstUrlMatch_id in E. }
  split; [exact Hid|]. unfold extractSpreadsheetId. now rewrite Hid.
Qed.

Lemma extractSpreadsheetId_idempotent_witness :
  extractSpreadsheetId "1A2B3C" = Ok "1A2B3C".
Proof.
  apply (extractSpreadsheetId_idempotent
           "https://docs.google.com/spreadsheets/d/1A2B3C/edit" "1A2B3C" eq_refl).
Defined.

Lemma isIdFormat_app_false (a b : string) (c : ascii) :
  isIdChar c = false -> isIdFormat (a ++ String c b) = false.
Proof.
  intros Hc. unfold isIdFormat. rewrite forallb_string_app.
  cbn [forallb_string]. rewrite Hc. cbn [andb]. now rewrite !andb_false_r.
Qed.

(** X10. From a Google Sheets address, with an identifier after
    [/spreadsheets/d/] and then nothing or a character that cannot be part
    of an identifier, [extractSpreadsheetId] returns the identifier. *)
Theorem extractSpreadsheetId_url (id rest : string) :
  isIdFormat id = true ->
  (match rest with EmptyString => true | String c _ => negb (isIdChar c) end) = true ->
  extractSpreadsheetId ("https://docs.google.com/spreadsheets/d/" ++ id ++ rest) = Ok id.
Proof.
  intros Hid Hrest. unfold extractSpreadsheetId.
  assert (Hf : isIdFormat ("https://docs.google.com/spreadsheets/d/" ++ id ++ rest) = false)
    by (apply (isIdFormat_app_false "https" _ ":"); reflexivity).
  rewrite Hf. unfold isIdFormat in Hid. apply andb_true_iff in Hid as [Hne Hall].
  assert (Hspan : span isIdChar (id ++ rest) = (id, rest)) by now apply span_app.
  cbn. rewrite Hspan. destruct id; [discriminate | reflexivity].
Qed.

Lemma extractSpreadsheetId_url_witness :
  extractSpreadsheetId ("https://docs.google.com/spreadsheets/d/" ++ "1A2B3C" ++ "/edit")
  = Ok "1A2B3C".
Proof. apply (extractSpreadsheetId_url "1A2B3C" "/edit"); reflexivity. Defined.

(** ** Arrays *)

Section ArrayFacts.
Context {A : Type}.

Lemma flattenArray_concat (array : list (list A)) : flattenArray array = List.concat array.
Proof.
  unfold flattenArray.
  assert (H : forall acc, fold_left (fun acc curr => (acc ++ curr)%list) array acc
                          = (acc ++ List.concat array)%list).
  { induction array as [|x array IH]; intros acc; simpl.
    - now rewrite app_nil_r.
    - now rewrite IH, app_assoc. }
  apply (H []).
Qed.

(** The slice that one turn of [chunkArray] pushes. *)
Lemma slice_chunk (array : list A) (chunkSize i : Z) :
  1 <= chunkSize -> 0 <= i < Z.of_nat (List.length array) ->
  slice array i (i + chunkSize)
  = firstn (Z.to_nat chunkSize) (skipn (Z.to_nat i) array).
Proof.
  intros Hc Hi. unfold slice, sliceIndex.
  destruct (Z.ltb_spec i 0); [lia|]. destruct (Z.ltb_spec (i + chunkSize) 0); [lia|].
  rewrite (Z.min_l i) by lia.
  set (rest := skipn (Z.to_nat i) array).
  assert (Hlen : List.length rest = (List.length array - Z.to_nat i)%nat)
    by apply length_skipn.
  destruct (Z.le_gt_cases (i + chunkSize) (Z.of_nat (List.length array))).
  - rewrite Z.min_l by lia. f_equal. lia.
  - rewrite Z.min_r by lia.
    rewrite !firstn_all2; [reflexivity | lia | lia].
Qed.

Lemma chunkLoop_runs (array : list A) (chunkSize : Z) (turns : nat) :
  1 <= chunkSize ->
  forall i chunks,
    0 <= i -> Z.of_nat (List.length array) - i <= Z.of_nat turns ->
    exists more,
      (forall t, (turns <= t)%nat ->
                 chunkLoop t array chunkSize i chunks = Some (chunks ++ more)%list)
      /\ List.concat more = skipn (Z.to_nat i) array
      /\ Forall (fun chunk => (1 <= List.length chunk)%nat
                              /\ Z.of_nat (List.length chunk) <= chunkSize) more.
Proof.
  intros Hc. induction turns as [|turns IH]; intros i chunks Hi Hturns.
  - exists []. repeat split.
    + intros t _. destruct t; cbn [chunkLoop];
        (destruct (Z.ltb_spec i (Z.of_nat (List.length array))); [lia|]);
        now rewrite app_nil_r.
    + cbn [List.concat]. symmetry. apply skipn_all2. lia.
    + constructor.
  - destruct (Z.ltb_spec i (Z.of_nat (List.length array))) as [Hlt|Hge].
    + destruct (IH (i + chunkSize) (chunks ++ [slice array i (i + chunkSize)])%list)
        as (more & Hrun & Hcat & Hall); [lia | lia |].
      exists (slice array i (i + chunkSize) :: more). repeat split.
      * intros t Ht. destruct t as [|t]; [lia|]. cbn [chunkLoop].
        destruct (Z.ltb_spec i (Z.of_nat (List.length array))); [|lia].
        rewrite Hrun by lia. now rewrite <- app_assoc.
      * cbn [List.concat]. rewrite Hcat, slice_chunk by lia.
        rewrite Z2Nat.inj_add by lia.
        rewrite (Nat.add_comm (Z.to_nat i)), <- skipn_skipn.
        apply firstn_skipn.
      * constructor; [|exact Hall]. rewrite slice_chunk by lia.
        rewrite length_firstn, length_skipn. lia.
    + exists []. repeat split.
      * intros t _. destruct t; cbn [chunkLoop];
          (destruct (Z.ltb_spec i (Z.of_nat (List.length array))); [lia|]);
          now rewrite app_nil_r.
      * cbn [List.concat]. symmetry. apply skipn_all2. lia.
      * constructor.
Qed.

Lemma chunkLoop_stuck (array : list A) (chunkSize : Z) (turns : nat) :
  chunkSize <= 0 -> array <> [] ->
  forall i chunks, i <= 0 -> chunkLoop turns array chunkSize i chunks = None.
Proof.
  intros Hc Hne. assert (0 < Z.of_nat (List.length array))
    by (destruct array; [congruence | simpl; lia]).
  induction turns as [|turns IH]; intros i chunks Hi; cbn [chunkLoop];
    (destruct (Z.ltb_spec i (Z.of_nat (List.length array))); [|lia]).
  - reflexivity.
  - apply IH. lia.
Qed.
End ArrayFacts.

(** X11. With a chunk size of at least 1, [chunkArray] ends within as many
    turns as the array has elements; its chunks, put together again (also by
    [flattenArray]), are the array, and every chunk has between 1 and
    [chunkSize] elements. *)
Theorem chunkArray_partitions {A : Type} (array : list A) (chunkSize : Z) :
  1 <= chunkSize ->
  exists chunks,
    (forall turns, (List.length array <= turns)%nat ->
                   chunkArray turns array chunkSize = Some chunks)
    /\ List.concat chunks = array
    /\ flattenArray chunks = array
    /\ Forall (fun chunk => (1 <= List.length chunk)%nat
                            /\ Z.of_nat (List.length chunk) <= chunkSize) chunks.
Proof.
  intros Hc.
  destruct (chunkLoop_runs array chunkSize (List.length array) Hc 0 [])
    as (chunks & Hrun & Hcat & Hall); [lia | lia |].
  exists chunks. repeat split; try assumption.
  now rewrite flattenArray_concat.
Qed.

Lemma chunkArray_partitions_witness :
  exists chunks,
    (forall turns, (7 <= turns)%nat ->
                   chunkArray turns [1; 2; 3; 4; 5; 6; 7] 3 = Some chunks)
    /\ List.concat chunks = [1; 2; 3; 4; 5; 6; 7]
    /\ flattenArray chunks = [1; 2; 3; 4; 5; 6; 7]
    /\ Forall (fun chunk => (1 <= List.length chunk)%nat
                            /\ Z.of_nat (List.length chunk) <= 3) chunks.
Proof. apply (chunkArray_partitions [1; 2; 3; 4; 5; 6; 7] 3). lia. Defined.

(** X12. With a chunk size of 0 or less the loop of [chunkArray] never ends
    on a non-empty array: it is still running after any number of turns. *)
Theorem chunkArray_never_ends {A : Type} (array : list A) (chunkSize : Z)
    (turns : nat) :
  chunkSize <= 0 -> array <> [] ->
  chunkArray turns array chunkSize = None.
Proof. intros Hc Hne. apply chunkLoop_stuck; [assumption | assumption | lia]. Qed.

Lemma chunkArray_never_ends_witness : chunkArray 1000 [1; 2; 3] 0 = None.
Proof. apply (chunkArray_never_ends [1; 2; 3] 0 1000); [lia | discriminate]. Defined.

(** ** Empty and falsy values *)

(** X13. Every value that [isEmpty] calls empty is falsy, and the falsy
    values that are not empty are exactly the number 0 and [false]: these
    are the cells that the guards of [search] and [smartReplace] skip although
    they hold a value. *)
Theorem falsy_not_empty (value : CellValue) :
  (isEmpty value = true -> truthy value = false)
  /\ (truthy value = false /\ isEmpty value = false
      <-> value = VNumber 0 \/ value = VBoolean false).
Proof.
  split.
  - destruct value as [| |s|n|b]; try discriminate; try reflexivity.
    destruct s; [reflexivity | discriminate].
  - split.
    + intros [Ht He]. destruct value as [| |s|n|[|]]; try discriminate; auto.
      * destruct s; discriminate.
      * simpl in Ht. left. f_equal. lia.
    + intros [->| ->]; split; reflexivity.
Qed.

Lemma falsy_not_empty_witness :
  truthy (VNumber 0) = false /\ isEmpty (VNumber 0) = false.
Proof. apply (proj2 (proj2 (falsy_not_empty (VNumber 0)))). left. reflexivity. Defined.

(** ** More of the retry executor *)

Import RetryUtilMore.

(** X14. Without a network code, a status that is present and not 0 decides
    alone: the error is retryable exactly when the status is 429 or at least
    500, whatever its message says and even if it is a [RetryableError]. A
    response with status 403 whose message reports an exhausted quota is
    not retried. *)
Theorem isRetryableError_status_decides (error : JsError) (s : Z) :
  code error <> Some "ECONNRESET" ->
  code error <> Some "ENOTFOUND" ->
  code error <> Some "ETIMEDOUT" ->
  orNumber (status error) (statusCode error) = Some s ->
  s <> 0 ->
  isRetryableError error = ((s >=? 500) || (s =? 429)).
Proof.
  intros H1 H2 H3 Hs Hnz. unfold isRetryableError.
  rewrite !codeIs_false by assumption. cbn [orb]. rewrite Hs.
  cbn [truthyNumber]. destruct (Z.eqb_spec s 0); [contradiction | reflexivity].
Qed.

Lemma isRetryableError_status_decides_witness :
  isRetryableError
    {| code := None; status := Some 403; statusCode := None;
       message := Some "Rate limit exceeded: quota exhausted";
       instanceofRetryableError := true |}
  = false.
Proof.
  apply (isRetryableError_status_decides
           {| code := None; status := Some 403; statusCode := None;
              message := Some "Rate limit exceeded: quota exhausted";
              instanceofRetryableError := true |} 403); try discriminate.
  reflexivity.
Defined.

Section ExecutorMore.
Context {T : Type}.
Variable fn : nat -> result JsError T.
Variable cfg : RetryConfig.

(** The loop runs through [m] retryable failures to the invocation that
    follows them. *)
Lemma retryLoop_through (m : nat) :
  forall attempt lastError calls slept,
    Z.of_nat calls = attempt ->
    attempt + Z.of_nat m <= maxRetries cfg ->
    (forall j, (calls <= j < calls + m)%nat ->
               exists e, fn j = Err e /\ isRetryableError e = true) ->
    exists lastError',
      retryLoop fn cfg attempt lastError calls slept
      = retryLoop fn cfg (attempt + Z.of_nat m) lastError' (calls + m)%nat
          (slept ++ map (fun i => calculateDelay (attempt + Z.of_nat i) cfg) (seq 0 m))%list.
Proof.
  induction m as [|m IH]; intros attempt lastError calls slept Hc Hle Hfail.
  - exists lastError. cbn [seq map]. rewrite app_nil_r, Z.add_0_r, Nat.add_0_r.
    reflexivity.
  - destruct (Hfail calls ltac:(lia)) as (e & Hfn & Hretry).
    rewrite retryLoop_unfold.
    destruct (Z_le_dec attempt (maxRetries cfg)); [|lia].
    rewrite Hfn. destruct (Z.eq_dec attempt (maxRetries cfg)); [lia|].
    rewrite Hretry.
    destruct (IH (attempt + 1) (Some e) (S calls)
                (slept ++ [calculateDelay attempt cfg])%list) as [last' Heq];
      [lia | lia | intros j Hj; apply Hfail; lia |].
    exists last'. rewrite Heq. f_equal; [lia | lia |].
    rewrite <- app_assoc. f_equal. cbn [seq map app].
    rewrite Z.add_0_r. f_equal.
    rewrite <- seq_shift, map_map. apply map_ext. intros i. f_equal. lia.
Qed.

(** A run sleeps once between two invocations, never after the last. *)
Lemma retryLoop_sleep_count attempt :
  forall lastError calls slept,
    let run := retryLoop fn cfg attempt lastError calls slept in
    (attempt <= maxRetries cfg ->
     (invocations run - calls = S (List.length (sleeps run) - List.length slept))%nat
     /\ (List.length slept <= List.length (sleeps run))%nat)
    /\ Z.of_nat (List.length (sleeps run)) - Z.of_nat (List.length slept)
       <= Z.max 0 (maxRetries cfg - attempt)
    /\ (calls <= invocations run)%nat.
Proof.
  pattern attempt. apply (retryLoop_turns_ind cfg); clear attempt.
  - intros attempt Hgt lastError calls slept. cbv zeta. rewrite retryLoop_unfold.
    destruct (Z_le_dec attempt (maxRetries cfg)); [lia|].
    cbn [invocations sleeps]. repeat split; lia.
  - intros attempt Hle IH lastError calls slept. cbv zeta. rewrite retryLoop_unfold.
    destruct (Z_le_dec attempt (maxRetries cfg)); [|lia].
    destruct (fn calls) as [v|error];
      [cbn [invocations sleeps]; repeat split; lia|].
    destruct (Z.eq_dec attempt (maxRetries cfg));
      [cbn [invocations sleeps]; repeat split; lia|].
    destruct (isRetryableError error);
      [|cbn [invocations sleeps]; repeat split; lia].
    specialize (IH (Some error) (S calls) (slept ++ [calculateDelay attempt cfg])%list).
    cbv zeta in IH. rewrite length_app in IH. cbn [List.length] in IH.
    destruct IH as (IH1 & IH2 & IH3). specialize (IH1 ltac:(lia)).
    repeat split; lia.
Qed.
End ExecutorMore.

Lemma sum_bounded (xs : list Z) (bound : Z) :
  (forall x, In x xs -> x <= bound) ->
  fold_right Z.add 0 xs <= Z.of_nat (List.length xs) * bound.
Proof.
  induction xs as [|x xs IH]; intros H; cbn [fold_right List.length]; [lia|].
  specialize (IH (fun y Hy => H y (or_intror Hy))).
  pose proof (H x (or_introl eq_refl)). lia.
Qed.

(** X15. A run ends at the first invocation that does not fail with a
    retryable error, or at invocation [maxRetries]: when the invocations
    before the [k]-th fail with retryable errors and the [k]-th returns, or
    fails with an error that is not retryable, or is the last one allowed,
    the run invokes the operation [k + 1] times, sleeps the first [k]
    backoff delays, and ends as the [k]-th invocation did. *)
Theorem executeWithRetry_first_decisive {T : Type} (fn : nat -> result JsError T)
    (cfg : RetryConfig) (k : nat) :
  Z.of_nat k <= maxRetries cfg ->
  (forall j, (j < k)%nat -> exists e, fn j = Err e /\ isRetryableError e = true) ->
  (match fn k with
   | Ok _ => True
   | Err e => isRetryableError e = false \/ Z.of_nat k = maxRetries cfg
   end) ->
  executeWithRetry fn cfg
  = {| outcome := match fn k with Ok v => Returned v | Err e => Thrown e end;
       invocations := S k;
       sleeps := firstDelays cfg k |}.
Proof.
  intros Hk Hfail Hlast. unfold executeWithRetry.
  destruct (retryLoop_through fn cfg k 0 None 0%nat []) as [last' Heq];
    [reflexivity | lia | intros j Hj; apply Hfail; lia |].
  rewrite Heq, retryLoop_unfold. cbn [app Nat.add Z.add].
  destruct (Z_le_dec (Z.of_nat k) (maxRetries cfg)); [|lia].
  unfold firstDelays.
  destruct (fn k) as [v|e]; [reflexivity|].
  destruct (Z.eq_dec (Z.of_nat k) (maxRetries cfg)); [reflexivity|].
  destruct Hlast as [-> | Hmax]; [reflexivity | contradiction].
Qed.

Lemma executeWithRetry_first_decisive_witness :
  executeWithRetry
    (fun j => if (j <? 2)%nat then Err serverError else Ok 7) DEFAULT_RETRY_CONFIG
  = {| outcome := Returned 7; invocations := 3; sleeps := [1000; 2000] |}.
Proof.
  apply (executeWithRetry_first_decisive
           (fun j => if (j <? 2)%nat then Err serverError else Ok 7)
           DEFAULT_RETRY_CONFIG 2).
  - simpl. lia.
  - intros j Hj. exists serverError.
    destruct (Nat.ltb_spec j 2); [split; reflexivity | lia].
  - exact I.
Defined.

(** X16. With [maxRetries >= 0] a run sleeps exactly once between two
    invocations (one sleep fewer than invocations), at most [maxRetries]
    times, and, when [maxDelay] is not negative, for at most
    [maxRetries * maxDelay] milliseconds in total. *)
Theorem executeWithRetry_sleep_budget {T : Type} (fn : nat -> result JsError T)
    (cfg : RetryConfig) :
  0 <= maxRetries cfg ->
  let run := executeWithRetry fn cfg in
  invocations run = S (List.length (sleeps run))
  /\ Z.of_nat (List.length (sleeps run)) <= maxRetries cfg
  /\ (0 <= maxDelay cfg -> totalSleep run <= maxRetries cfg * maxDelay cfg).
Proof.
  intros Hm run.
  destruct (retryLoop_sleep_count fn cfg 0 None 0%nat []) as (H1 & H2 & _).
  fold (executeWithRetry fn cfg) in H1, H2. fold run in H1, H2.
  destruct (H1 Hm) as [Hinv _]. cbn [List.length] in *.
  split; [lia|]. split; [lia|].
  intros Hd. unfold totalSleep.
  assert (Hle : fold_right Z.add 0 (sleeps run)
                <= Z.of_nat (List.length (sleeps run)) * maxDelay cfg).
  { apply sum_bounded. intros x Hx. apply In_nth_error in Hx as [n Hn].
    subst run. unfold executeWithRetry in Hn.
    destruct (retryLoop_sleeps fn cfg 0 None 0%nat []) as [k Hk].
    rewrite Hk in Hn. cbn [app] in Hn. rewrite nth_error_map in Hn.
    destruct (nth_error (seq 0 k) n); [|discriminate].
    injection Hn as <-. apply calculateDelay_capped. }
  nia.
Qed.

Lemma executeWithRetry_sleep_budget_witness :
  totalSleep (executeWithRetry (fun _ => @Err JsError unit serverError) twoRetries)
  <= 2 * 10000.
Proof.
  destruct (executeWithRetry_sleep_budget
              (fun _ => @Err JsError unit serverError) twoRetries) as (_ & _ & H).
  - simpl. lia.
  - apply H. simpl. lia.
Defined.

(** With a negative [maxRetries] the operation is not invoked at all and
    the run throws [undefined]. *)
Theorem executeWithRetry_negative_maxRetries {T : Type}
    (fn : nat -> result JsError T) (cfg : RetryConfig) :
  maxRetries cfg < 0 ->
  executeWithRetry fn cfg
  = {| outcome := ThrownUndefined; invocations := 0; sleeps := [] |}.
Proof.
  intros Hm. unfold executeWithRetry. rewrite retryLoop_unfold.
  destruct (Z_le_dec 0 (maxRetries cfg)); [lia | reflexivity].
Qed.

Lemma executeWithRetry_negative_maxRetries_witness :
  executeWithRetry (fun _ => @Ok JsError Z 1)
    {| maxRetries := -1; baseDelay := 1000; maxDelay := 10000; backoffMultiplier := 2 |}
  = {| outcome := ThrownUndefined; invocations := 0; sleeps := [] |}.
Proof.
  apply (executeWithRetry_negative_maxRetries (fun _ => @Ok JsError Z 1)). simpl. lia.
Defined.

(** X17. [handleQuotaError] throws a retryable error for every error whose
    message mentions a quota or a rate limit, also when the error itself is
    not retryable, and rethrows every other error unchanged; it never turns a
    retryable error into one that is not. *)
Theorem handleQuotaError_retryable (error : JsError) :
  (messageIncludes error "quota" = true \/ messageIncludes error "rate limit" = true ->
   handleQuotaError error = apiQuotaExceededError
   /\ isRetryableError (handleQuotaError error) = true)
  /\ (messageIncludes error "quota" = false ->
      messageIncludes error "rate limit" = false ->
      handleQuotaError error = error)
  /\ (isRetryableError error = true ->
      isRetryableError (handleQuotaError error) = true).
Proof.
  unfold handleQuotaError.
  destruct (messageIncludes error "quota" || messageIncludes error "rate limit") eqn:Hq.
  - apply orb_true_iff in Hq. split; [|split].
    + intros _. split; reflexivity.
    + intros Hq1 Hq2. destruct Hq; congruence.
    + intros _. reflexivity.
  - apply orb_false_iff in Hq as [Hq1 Hq2]. split; [|split].
    + intros [Hq|Hq]; congruence.
    + reflexivity.
    + intros Hr. exact Hr.
Qed.

Lemma handleQuotaError_retryable_witness :
  isRetryableError
    (handleQuotaError
       {| code := None; status := Some 403; statusCode := None;
          message := Some "quota exhausted"; instanceofRetryableError := false |})
  = true.
Proof.
  apply (proj1 (handleQuotaError_retryable
                  {| code := None; status := Some 403; statusCode := None;
                     message := Some "quota exhausted";
                     instanceofRetryableError := false |})).
  left. reflexivity.
Defined.

(** ** More of the rate limiter *)

(** The oldest request kept by the filter is still inside the window, so
    the time to wait for it is positive. *)
Lemma kept_oldest_wait (window now oldest : Z) (reqs : list Z) :
  minimum (filter (keep window now) reqs) = Some oldest ->
  In oldest reqs /\ 0 < window - (now - oldest).
Proof.
  intros Hmin. apply minimum_In, filter_In in Hmin as [Hin Hk].
  unfold keep in Hk. split; [assumption | lia].
Qed.

(** A request is recorded only while fewer than [maxRequests] are kept. *)
Lemma checkOnce_recorded (rl rl' : RateLimiter) (now : Z) :
  checkOnce rl now = Recorded rl' ->
  requests rl' = (filter (keep (windowMs rl) now) (requests rl) ++ [now])%list
  /\ maxRequests rl' = maxRequests rl /\ windowMs rl' = windowMs rl
  /\ Z.of_nat (List.length (filter (keep (windowMs rl) now) (requests rl)))
     < maxRequests rl.
Proof.
  unfold checkOnce.
  set (kept := filter (keep (windowMs rl) now) (requests rl)).
  destruct (Z.geb_spec (Z.of_nat (List.length kept)) (maxRequests rl)) as [Hge|Hlt].
  - destruct (minimum kept) as [oldest|] eqn:Hmin; [|discriminate].
    apply kept_oldest_wait in Hmin as [_ Hpos].
    destruct (Z.gtb_spec (windowMs rl - (now - oldest)) 0); [discriminate | lia].
  - intros [= <-]. cbn. auto.
Qed.

Lemma checkOnce_sleep (rl rl' : RateLimiter) (now : Z) (waitTime : option Z) :
  checkOnce rl now = Sleep waitTime rl' ->
  requests rl' = filter (keep (windowMs rl) now) (requests rl)
  /\ maxRequests rl' = maxRequests rl /\ windowMs rl' = windowMs rl
  /\ maxRequests rl <= Z.of_nat (List.length (requests rl'))
  /\ match waitTime with
     | Some w => exists oldest,
         minimum (requests rl') = Some oldest /\ w = windowMs rl - (now - oldest)
     | None => requests rl' = []
     end.
Proof.
  unfold checkOnce.
  set (kept := filter (keep (windowMs rl) now) (requests rl)).
  destruct (Z.geb_spec (Z.of_nat (List.length kept)) (maxRequests rl)) as [Hge|Hlt];
    [|discriminate].
  destruct (minimum kept) as [oldest|] eqn:Hmin.
  - destruct (Z.gtb_spec (windowMs rl - (now - oldest)) 0); [|discriminate].
    intros [= <- <-]. cbn. repeat split; try lia. exists oldest. auto.
  - intros [= <- <-]. cbn. repeat split; try lia.
    destruct kept; [reflexivity | simpl in Hmin; destruct (minimum kept); discriminate].
Qed.

Lemma filter_length (p : Z -> bool) (xs : list Z) :
  (List.length (filter p xs) <= List.length xs)%nat.
Proof. induction xs as [|x xs IH]; simpl; [lia | destruct (p x); simpl; lia]. Qed.

Lemma filter_drops (p : Z -> bool) (xs : list Z) (x : Z) :
  In x xs -> p x = false -> (List.length (filter p xs) < List.length xs)%nat.
Proof.
  induction xs as [|y xs IH]; simpl; [intros []|].
  intros [->|Hin] Hp.
  - rewrite Hp. pose proof (filter_length p xs). lia.
  - specialize (IH Hin Hp). destruct (p y); simpl; lia.
Qed.

(** X18. A limiter configured with [maxRequests] of 0 or less admits no
    call: whatever the clock reads, the caller is still suspended. *)
Theorem checkRateLimit_never_admits (rl : RateLimiter) (clock : list Z) :
  maxRequests rl <= 0 ->
  checkRateLimit rl clock = None.
Proof.
  revert rl. induction clock as [|now later IH]; intros rl Hmax; [reflexivity|].
  cbn [checkRateLimit].
  destruct (checkOnce rl now) as [rl'|w rl'] eqn:E.
  - apply checkOnce_recorded in E as (_ & _ & _ & Hlt). lia.
  - apply checkOnce_sleep in E as (_ & Hm & _). rewrite IH; [reflexivity | lia].
Qed.

Lemma checkRateLimit_never_admits_witness :
  checkRateLimit (newRateLimiter 0 60000) [0; 1; 2; 60000; 120000] = None.
Proof. apply (checkRateLimit_never_admits (newRateLimiter 0 60000)). simpl. lia. Defined.

Lemma checkRateLimit_bounded (clock : list Z) :
  forall rl rl' t waits rest,
    Z.of_nat (List.length (requests rl)) <= maxRequests rl ->
    checkRateLimit rl clock = Some (rl', t, waits, rest) ->
    Z.of_nat (List.length (requests rl')) <= maxRequests rl'
    /\ maxRequests rl' = maxRequests rl /\ windowMs rl' = windowMs rl.
Proof.
  induction clock as [|now later IH]; intros rl rl' t waits rest Hb;
    cbn [checkRateLimit]; [discriminate|].
  destruct (checkOnce rl now) as [rl1|w rl1] eqn:E.
  - intros [= <- <- <- <-].
    apply checkOnce_recorded in E as (Hreq & Hm & Hw & Hlt).
    rewrite Hreq, Hm, length_app. cbn [List.length]. repeat split; try assumption. lia.
  - destruct (checkRateLimit rl1 later) as [[[[rl2 t2] waits2] rest2]|] eqn:E2;
      [|discriminate].
    intros [= <- <- <- <-].
    apply checkOnce_sleep in E as (Hreq & Hm & Hw & _).
    destruct (IH rl1 rl2 t2 waits2 rest2) as (H1 & H2 & H3); [|assumption|].
    + rewrite Hreq, Hm. pose proof (filter_length (keep (windowMs rl) now) (requests rl)).
      lia.
    + repeat split; [assumption | congruence | congruence].
Qed.

(** X19. However the clock behaves, a limiter never remembers more than
    [maxRequests] timestamps: its record stays bounded. *)
Theorem rateLimiter_bounded_record (maxReq window : Z) (n : nat) (clock : list Z) :
  0 <= maxReq ->
  Z.of_nat (List.length (requests (fst (serve n (newRateLimiter maxReq window) clock))))
  <= maxReq.
Proof.
  intros Hmax.
  assert (H : forall n rl clock,
             Z.of_nat (List.length (requests rl)) <= maxRequests rl ->
             Z.of_nat (List.length (requests (fst (serve n rl clock))))
             <= maxRequests rl).
  { clear. induction n as [|n IH]; intros rl clock Hb; cbn [serve]; [assumption|].
    destruct (checkRateLimit rl clock) as [[[[rl' t] waits] rest]|] eqn:E;
      [|assumption].
    destruct (checkRateLimit_bounded clock _ _ _ _ _ Hb E) as (Hb' & Hm & _).
    specialize (IH rl' rest Hb'). destruct (serve n rl' rest) as [rl'' admitted].
    cbn [fst] in *. lia. }
  apply (H n (newRateLimiter maxReq window) clock). simpl. lia.
Qed.

Lemma rateLimiter_bounded_record_witness :
  Z.of_nat (List.length (requests (fst (serve 5 (newRateLimiter 2 1000)
                                          [0; 10; 20; 1000; 1010; 1020; 2000]))))
  <= 2.
Proof. apply (rateLimiter_bounded_record 2 1000 5). lia. Defined.

(** X20. When a caller is sent to sleep, the wait is positive; and if the
    limiter holds at most [maxRequests >= 1] timestamps and the caller wakes
    no earlier than asked, the next pass records the request: one full
    sleep is enough. *)
Theorem checkRateLimit_one_sleep (rl rl' : RateLimiter) (now wake waitTime : Z)
    (later : list Z) :
  1 <= maxRequests rl ->
  Z.of_nat (List.length (requests rl)) <= maxRequests rl ->
  checkOnce rl now = Sleep (Some waitTime) rl' ->
  now + waitTime <= wake ->
  0 < waitTime
  /\ exists rl'',
       checkRateLimit rl (now :: wake :: later)
       = Some (rl'', wake, [Some waitTime], later).
Proof.
  intros Hmax Hb Hsleep Hwake.
  pose proof Hsleep as Hs.
  apply checkOnce_sleep in Hs as (Hreq & Hm & Hw & Hfull & oldest & Hmin & ->).
  assert (Hpos : 0 < windowMs rl - (now - oldest)).
  { rewrite Hreq in Hmin. now apply kept_oldest_wait in Hmin. }
  split; [exact Hpos|].
  cbn [checkRateLimit]. rewrite Hsleep.
  destruct (checkOnce rl' wake) as [rl''|w rl''] eqn:E.
  - exists rl''. reflexivity.
  - exfalso. apply checkOnce_sleep in E as (Hreq' & Hm' & _ & Hfull' & _).
    apply minimum_In in Hmin.
    assert (Hdrop : (List.length (requests rl'') < List.length (requests rl'))%nat).
    { rewrite Hreq'. apply (filter_drops _ _ oldest Hmin). unfold keep. lia. }
    pose proof (filter_length (keep (windowMs rl) now) (requests rl)) as Hk.
    rewrite <- Hreq in Hk. lia.
Qed.

Lemma checkRateLimit_one_sleep_witness :
  exists rl'',
    checkRateLimit {| requests := [0; 400]; maxRequests := 2; windowMs := 1000 |}
      [500; 1000]
    = Some (rl'', 1000, [Some 500], []).
Proof.
  apply (checkRateLimit_one_sleep
           {| requests := [0; 400]; maxRequests := 2; windowMs := 1000 |}
           {| requests := [0; 400]; maxRequests := 2; windowMs := 1000 |}
           500 1000 500 []); try reflexivity; simpl; lia.
Defined.

(** ** More of search *)

Import GoogleSheetsServiceMore.

Lemma ascending_app (a b : list SearchResult) :
  ascending a -> ascending b ->
  (forall x y, In x a -> In y b -> rowMajorBefore x y) ->
  ascending (a ++ b).
Proof.
  induction a as [|m a IH]; intros Ha Hb Hab; [exact Hb|].
  destruct Ha as [Hm Ha]. cbn [app ascending]. split.
  - apply Forall_app. split; [exact Hm|].
    apply Forall_forall. intros y Hy. apply Hab; [now left | exact Hy].
  - apply IH; [assumption | assumption |].
    intros x y Hx Hy. apply Hab; [now right | exact Hy].
Qed.

Section SearchOrder.
Variable sheet searchText : string.
Variable searchColumns : option (list string).

Lemma searchRow_ascending rowIndex cells :
  forall colIndex,
    ascending (searchRow sheet searchText searchColumns rowIndex colIndex cells)
    /\ Forall (fun m => row m = rowIndex + 1 /\ colIndex + 1 <= column m
                        /\ cell m = rowColToA1 (row m) (column m))
         (searchRow sheet searchText searchColumns rowIndex colIndex cells).
Proof.
  induction cells as [|cellValue cells IH]; intros colIndex; cbn [searchRow].
  - split; constructor.
  - destruct (IH (colIndex + 1)) as [Hasc Hall].
    assert (Hlater : Forall (fun m => row m = rowIndex + 1 /\ colIndex + 1 <= column m
                                      /\ cell m = rowColToA1 (row m) (column m))
                       (searchRow sheet searchText searchColumns rowIndex
                          (colIndex + 1) cells)).
    { eapply Forall_impl; [|exact Hall]. cbv beta. intros m (? & ? & ?).
      repeat split; [assumption | lia | assumption]. }
    destruct (columnSkipped searchColumns colIndex); [split; assumption|].
    destruct (truthy cellValue && includes _ _); [|split; assumption].
    cbn [app ascending]. split.
    + split; [|exact Hasc]. eapply Forall_impl; [|exact Hall]. cbv beta.
      intros m (Hr & Hc & _). right. cbn [row column]. lia.
    + constructor; [|exact Hlater]. cbn [row column cell]. repeat split. lia.
Qed.

Lemma searchRows_ascending data :
  forall rowIndex,
    ascending (searchRows sheet searchText searchColumns rowIndex data)
    /\ Forall (fun m => rowIndex + 1 <= row m /\ 1 <= column m
                        /\ cell m = rowColToA1 (row m) (column m))
         (searchRows sheet searchText searchColumns rowIndex data).
Proof.
  induction data as [|cells data IH]; intros rowIndex; cbn [searchRows].
  - split; constructor.
  - destruct (IH (rowIndex + 1)) as [Hasc Hall].
    destruct (searchRow_ascending rowIndex cells 0) as [Hrow Hrow_all].
    rewrite Forall_forall in Hall, Hrow_all. split.
    + apply ascending_app; [assumption | assumption |].
      intros x y Hx Hy. left.
      destruct (Hrow_all x Hx) as (-> & _). destruct (Hall y Hy) as (? & _). lia.
    + apply Forall_app. split; apply Forall_forall; intros m Hm.
      * destruct (Hrow_all m Hm) as (? & ? & ?). repeat split; [lia | lia | assumption].
      * destruct (Hall m Hm) as (? & ? & ?). repeat split; [lia | assumption | assumption].
Qed.
End SearchOrder.

(** X21. The matches of [search] come in strictly ascending row-major
    order, so no cell is reported twice, and each carries the A1 text of its
    own row and column, both at least 1. *)
Theorem search_row_major (sheet searchText : string)
    (searchColumns : option (list string)) (data : Grid) :
  ascending (search sheet searchText searchColumns data)
  /\ Forall (fun m => 1 <= row m /\ 1 <= column m
                      /\ cell m = rowColToA1 (row m) (column m))
       (search sheet searchText searchColumns data).
Proof.
  unfold search.
  destruct (searchRows_ascending sheet searchText searchColumns data 0) as [Hasc Hall].
  split; [exact Hasc|]. eapply Forall_impl; [|exact Hall]. cbv beta.
  intros m (? & ? & ?). auto with zarith.
Qed.

Lemma removeDigits_app (a b : string) :
  removeDigits (a ++ b) = (removeDigits a ++ removeDigits b)%string.
Proof.
  induction a as [|c a IH]; simpl; [reflexivity|].
  destruct (isDigit c); simpl; now rewrite IH.
Qed.

Lemma removeDigits_digits (s : string) :
  forallb_string isDigit s = true -> removeDigits s = "".
Proof.
  induction s as [|c s IH]; simpl; [reflexivity|].
  intros H. apply andb_true_iff in H as [Hc Hs]. now rewrite Hc, IH.
Qed.

Lemma removeDigits_letters (s : string) :
  forallb_string isUpper s = true -> removeDigits s = s.
Proof.
  induction s as [|c s IH]; simpl; [reflexivity|].
  intros H. apply andb_true_iff in H as [Hc Hs].
  assert (isDigit c = false) by (unfold isDigit, isUpper in *; lia).
  now rewrite H, IH.
Qed.

(** The column letter that [search] compares with the filter. *)
Lemma columnLetter_letters (row col : Z) : 0 <= row -> 0 < col ->
  removeDigits (rowColToA1 row col) = lettersOfCol col ""
  /\ forallb_string isUpper (lettersOfCol col "") = true
  /\ lettersOfCol col "" <> "".
Proof.
  intros Hr Hc. pose proof (matchA1_rowColToA1 row col Hr Hc) as Hm.
  apply matchA1_some in Hm as (Heq & Hup & Hl & Hd & _).
  rewrite Heq, removeDigits_app, removeDigits_letters, removeDigits_digits by assumption.
  now rewrite append_empty_r.
Qed.

Lemma search_in_filter sheet searchText entry entries data m :
  In m (search sheet searchText (Some (entry :: entries)) data) ->
  In (lettersOfCol (column m) "") (entry :: entries).
Proof.
  intros Hin. apply search_In in Hin
    as (i & j & cells & v & _ & _ & Hskip & _ & _ & ->). cbn [column].
  unfold columnSkipped in Hskip. apply negb_false_iff, existsb_exists in Hskip
    as (x & Hx & Heq).
  apply String.eqb_eq in Heq. subst x.
  destruct (columnLetter_letters 1 (Z.of_nat j + 1)) as (<- & _); [lia | lia |].
  exact Hx.
Qed.

(** X22. With a column filter that is not empty, [search] reports only
    cells whose column letters are one of the entries of the filter. *)
Theorem search_respects_filter (sheet searchText entry : string)
    (entries : list string) (data : Grid) (m : SearchResult) :
  In m (search sheet searchText (Some (entry :: entries)) data) ->
  In (lettersOfCol (column m) "") (entry :: entries)
  /\ cell m = rowColToA1 (row m) (column m).
Proof.
  intros Hin. split; [now apply search_in_filter in Hin|].
  apply search_In in Hin as (i & j & cells & v & _ & _ & _ & _ & _ & ->). reflexivity.
Qed.

Lemma search_respects_filter_witness :
  In (lettersOfCol 2 "") ["B"].
Proof.
  apply (search_respects_filter "Sheet1" "e" "B" []
           [[VString "Name"; VString "City"]; [VString "John"; VString "Seoul"]]
           {| cell := "B2"; value := VString "Seoul"; row := 2; column := 2;
              sheetName := "Sheet1" |}).
  left. reflexivity.
Defined.

(** X23. The entries of the column filter are compared as they are with the
    capital letters of the column: when no entry is a non-empty string of
    capitals (a filter such as ["a"; "b"]) [search] reports nothing. *)
Theorem search_filter_not_capitals (sheet searchText entry : string)
    (entries : list string) (data : Grid) :
  (forall x, In x (entry :: entries) -> x = "" \/ forallb_string isUpper x = false) ->
  search sheet searchText (Some (entry :: entries)) data = [].
Proof.
  intros Hbad.
  destruct (search sheet searchText (Some (entry :: entries)) data) as [|m ms] eqn:E;
    [reflexivity|].
  exfalso. assert (Hin : In m (search sheet searchText (Some (entry :: entries)) data))
    by (rewrite E; now left).
  pose proof (search_in_filter _ _ _ _ _ _ Hin) as Hfilter.
  apply search_In in Hin as (i & j & cells & v & _ & _ & _ & _ & _ & ->).
  cbn [column] in Hfilter.
  destruct (columnLetter_letters 1 (Z.of_nat j + 1)) as (_ & Hup & Hne); [lia | lia |].
  destruct (Hbad _ Hfilter) as [Hempty|Hlow]; congruence.
Qed.

Lemma search_filter_not_capitals_witness :
  search "Sheet1" "Seoul" (Some ["a"; "b"])
    [[VString "Name"; VString "City"]; [VString "John"; VString "Seoul"]] = [].
Proof.
  apply (search_filter_not_capitals "Sheet1" "Seoul" "a" ["b"]).
  intros x [<-|[<-|[]]]; right; reflexivity.
Defined.

(** ** More of smart replace *)

Section WriteFacts.
Context {W : Type}.
Variable updateCell : nat -> string -> string -> option W.
Variable findText replaceText : string.
Variable range : option string.
Variable matchCase matchEntireCell : bool.

Abbreviation answered := (writesAnswered updateCell).
Abbreviation cellStep :=
  (stepCell updateCell findText replaceText range matchCase matchEntireCell).
Abbreviation rowScan :=
  (replaceRow updateCell findText replaceText range matchCase matchEntireCell).
Abbreviation gridScan :=
  (replaceRows updateCell findText replaceText range matchCase matchEntireCell).

Lemma stepCell_answered rowIndex colIndex cellValue (st : Scan) :
  thrown st = None -> answered st -> answered (cellStep rowIndex colIndex cellValue st).
Proof.
  intros Hnone Hans. unfold writesAnswered in Hans. rewrite Hnone in Hans.
  unfold GoogleSheetsService.stepCell.
  destruct (cellReplacement _ _ _ _ _ rowIndex colIndex cellValue) as [[r|]|e].
  - set (n := List.length (writes st)).
    assert (Hold : forall j, (j < n)%nat ->
               exists ref value,
                 nth_error (writes st ++ [(cellRef r, newValue r)]) j = Some (ref, value)
                 /\ updateCell j ref value = None).
    { intros j Hj. destruct (Hans j Hj) as (ref & value & Hnth & Ha).
      exists ref, value. rewrite nth_error_app1 by exact Hj. auto. }
    assert (Hnew : nth_error (writes st ++ [(cellRef r, newValue r)]) n
                   = Some (cellRef r, newValue r)).
    { rewrite nth_error_app2, Nat.sub_diag by (unfold n; lia). reflexivity. }
    destruct (updateCell n (cellRef r) (newValue r)) as [w|] eqn:Hu;
      unfold writesAnswered, writeAnswered; cbn [thrown writes].
    + exists n. rewrite length_app. cbn [List.length].
      split; [unfold n; lia|]. split; [|exact Hold].
      exists (cellRef r), (newValue r). auto.
    + intros j Hj. rewrite length_app in Hj. cbn [List.length] in Hj.
      destruct (Nat.eq_dec j n) as [->|Hne].
      * exists (cellRef r), (newValue r). auto.
      * apply Hold. unfold n in *. lia.
  - unfold writesAnswered. now rewrite Hnone.
  - unfold writesAnswered. cbn [thrown writes]. exact Hans.
Qed.

Lemma replaceRow_answered rowIndex cells :
  forall colIndex (st : Scan),
    thrown st = None -> answered st -> answered (rowScan rowIndex colIndex cells st).
Proof.
  induction cells as [|cellValue cells IH]; intros colIndex st Hnone Hans;
    cbn [GoogleSheetsService.replaceRow]; [exact Hans|].
  pose proof (stepCell_answered rowIndex colIndex cellValue st Hnone Hans) as Hstep.
  destruct (thrown (cellStep rowIndex colIndex cellValue st)) eqn:Ht; [exact Hstep|].
  now apply IH.
Qed.

Lemma replaceRows_answered data :
  forall rowIndex (st : Scan),
    thrown st = None -> answered st -> answered (gridScan rowIndex data st).
Proof.
  induction data as [|cells data IH]; intros rowIndex st Hnone Hans;
    cbn [GoogleSheetsService.replaceRows]; [exact Hans|].
  pose proof (replaceRow_answered rowIndex cells 0 st Hnone Hans) as Hrow.
  destruct (thrown (rowScan rowIndex 0 cells st)) eqn:Ht; [exact Hrow|].
  now apply IH.
Qed.
End WriteFacts.

Import GoogleSheetsServiceCalls.

Section ExecutorRuns.
Context {T : Type}.
Variable fn : nat -> result JsError T.
Variable cfg : RetryConfig.

(** A run of the loop ends with the invocation that decides it: the ones
    before it failed with retryable errors, and the run ends as it did. *)
Lemma retryLoop_last attempt :
  forall lastError calls slept,
    attempt <= maxRetries cfg ->
    let run := retryLoop fn cfg attempt lastError calls slept in
    exists last,
      invocations run = S last /\ (calls <= last)%nat
      /\ Z.of_nat last - Z.of_nat calls <= maxRetries cfg - attempt
      /\ (forall j, (calls <= j < last)%nat ->
                    exists e, fn j = Err e /\ isRetryableError e = true)
      /\ outcome run = match fn last with
                       | Ok v => Returned v
                       | Err e => Thrown e
                       end.
Proof.
  pattern attempt. apply (retryLoop_turns_ind cfg); clear attempt.
  - intros attempt Hgt lastError calls slept Hle. lia.
  - intros attempt Hle IH lastError calls slept _. cbv zeta.
    rewrite retryLoop_unfold.
    destruct (Z_le_dec attempt (maxRetries cfg)); [|lia].
    assert (Hstop : forall o, o = match fn calls with
                                  | Ok v => Returned v
                                  | Err e => Thrown e
                                  end ->
              exists last,
                invocations (mkRun o (S calls) slept) = S last /\ (calls <= last)%nat
                /\ Z.of_nat last - Z.of_nat calls <= maxRetries cfg - attempt
                /\ (forall j, (calls <= j < last)%nat ->
                              exists e, fn j = Err e /\ isRetryableError e = true)
                /\ outcome (mkRun o (S calls) slept)
                   = match fn last with
                     | Ok v => Returned v
                     | Err e => Thrown e
                     end).
    { intros o Ho. exists calls. cbn [invocations outcome].
      split; [reflexivity|]. split; [lia|]. split; [lia|].
      split; [intros j Hj; lia | exact Ho]. }
    destruct (fn calls) as [v|error] eqn:Hfn; [now apply Hstop|].
    destruct (Z.eq_dec attempt (maxRetries cfg)); [now apply Hstop|].
    destruct (isRetryableError error) eqn:Hretry; [|now apply Hstop].
    destruct (IH (Some error) (S calls) (slept ++ [calculateDelay attempt cfg])%list
                ltac:(lia)) as (last & Hinv & Hcalls & Hbound & Hfail & Hout).
    exists last. split; [exact Hinv|]. split; [lia|]. split; [lia|].
    split; [|exact Hout].
    intros j Hj. destruct (Nat.eq_dec j calls) as [->|Hne].
    + exists error. auto.
    + apply Hfail. lia.
Qed.
End ExecutorRuns.

Section CallFacts.
Variable readData : nat -> result JsError Grid.
Variable updateCell : nat -> nat -> string -> string -> option JsError.
Variable findText replaceText : string.
Variable range : option string.
Variable matchCase matchEntireCell : bool.

Lemma smartReplaceRun_answered (run : nat) :
  runAnswered readData updateCell findText replaceText range
    matchCase matchEntireCell run.
Proof.
  unfold runAnswered, smartReplaceRun.
  destruct (readData run) as [data|e]; cbn [fst snd].
  2:{ left. intros j ref value Hj. destruct j; discriminate Hj. }
  set (init := {| pushed := []; writes := [];
                  thrown := @None (ReplaceError JsError) |}).
  destruct (replaceRows_pushed (updateCell run) findText replaceText range
              matchCase matchEntireCell data 0 init eq_refl) as [Hw _].
  assert (Hans : writesAnswered (updateCell run)
                   (replaceRows (updateCell run) findText replaceText range
                      matchCase matchEntireCell 0 data init)).
  { apply replaceRows_answered; [reflexivity|]. intros j Hj. cbn in Hj. lia. }
  unfold smartReplace. fold init. cbn [fst snd].
  set (st := replaceRows (updateCell run) findText replaceText range
               matchCase matchEntireCell 0 data init) in *.
  assert (Hall : (forall j, (j < List.length (writes st))%nat ->
                            writeAnswered (updateCell run) st j None) ->
                 forall j ref value, nth_error (writes st) j = Some (ref, value) ->
                                     updateCell run j ref value = None).
  { intros H j ref value Hnth.
    destruct (H j) as (ref' & value' & Hnth' & Hu).
    - apply nth_error_Some. congruence.
    - congruence. }
  unfold writesAnswered in Hans. destruct (thrown st) as [[e|w]|].
  - left. now apply Hall.
  - right. destruct Hans as (k & Hlen & (ref & value & Hnth & Hu) & Hprev).
    exists k, ref, value. cbn [thrownOf]. repeat split; try assumption.
    intros j ref' value' Hj Hnth'. destruct (Hprev j Hj) as (r2 & v2 & Hn2 & Hu2).
    congruence.
  - cbn [replacements modifiedCells]. split; [exact Hw|]. split.
    + rewrite Hw, length_map. reflexivity.
    + now apply Hall.
Qed.
End CallFacts.

(** X24. A call of [smartReplace] runs its body up to 4 times: every run
    but the last threw a retryable error, and the call ends as its last run
    did. The writes of every run fit the way the run ended: a run that
    returns issued exactly the writes of its replacements, all succeeded, and
    [modifiedCells] is their number; a run that throws either issued only
    writes that succeeded, or was stopped by its last write, which threw the
    error, after all the writes before it had succeeded. The writes of a run
    that failed stay written, and the next run issues its own. *)
Theorem smartReplace_writes (readData : nat -> result JsError Grid)
    (updateCell : nat -> nat -> string -> string -> option JsError)
    (findText replaceText : string) (range : option string)
    (matchCase matchEntireCell : bool) :
  let oneRun := smartReplaceRun readData updateCell findText replaceText range
                  matchCase matchEntireCell in
  let call := smartReplaceCall readData updateCell findText replaceText range
                matchCase matchEntireCell in
  exists last,
    invocations call = S last /\ (last <= 3)%nat
    /\ (forall run, (run < last)%nat ->
          exists e, snd (oneRun run) = Err e /\ isRetryableError e = true)
    /\ outcome call = match snd (oneRun last) with
                      | Ok res => Returned res
                      | Err e => Thrown e
                      end
    /\ forall run, runAnswered readData updateCell findText replaceText range
                     matchCase matchEntireCell run.
Proof.
  intros oneRun call.
  destruct (retryLoop_last (fun run => snd (oneRun run)) DEFAULT_RETRY_CONFIG
              0 None 0%nat [] ltac:(simpl; lia))
    as (last & Hinv & _ & Hbound & Hfail & Hout).
  exists last. split; [exact Hinv|]. split; [simpl in Hbound; lia|].
  split; [intros run Hrun; apply Hfail; lia|]. split; [exact Hout|].
  intros run. apply smartReplaceRun_answered.
Qed.

(** A call whose first run is stopped by its first write, with a server
    error, and whose second run succeeds: the body ran twice, and each run
    wrote to the cell. *)
Lemma smartReplace_retried :
  let readData := fun _ : nat => @Ok JsError Grid [[VString "a"]] in
  let updateCell :=
    fun (run k : nat) (_ _ : string) =>
      if (run =? 0)%nat then Some serverError else None in
  invocations (smartReplaceCall readData updateCell "a" "b" None false false) = 2%nat
  /\ fst (smartReplaceRun readData updateCell "a" "b" None false false 0) = [("A1", "b")]
  /\ fst (smartReplaceRun readData updateCell "a" "b" None false false 1) = [("A1", "b")]
  /\ outcome (smartReplaceCall readData updateCell "a" "b" None false false)
     = Returned {| modifiedCells := 1;
                   replacements := [ {| cellRef := "A1"; originalValue := "a";
                                        newValue := "b" |} ] |}.
Proof. repeat split. Qed.

Section InvalidRange.
Context {W : Type}.
Variable updateCell : nat -> string -> string -> option W.
Variable findText replaceText range : string.
Variable matchCase matchEntireCell : bool.
Variable e : SheetsUtils.Error.
Hypothesis range_present : range <> "".
Hypothesis range_invalid : parseRange range = Err e.

Lemma cellReplacement_invalid_range rowIndex colIndex cellValue :
  cellReplacement findText replaceText (Some range) matchCase matchEntireCell
    rowIndex colIndex cellValue
  = if truthy cellValue then Err e else Ok None.
Proof.
  unfold cellReplacement, insideRange.
  destruct (truthy cellValue); [|reflexivity]. cbn [negb].
  destruct range; [congruence|]. now rewrite range_invalid.
Qed.

Lemma replaceRow_invalid_range rowIndex cells :
  forall colIndex (st : Scan (W:=W)),
    thrown st = None ->
    replaceRow updateCell findText replaceText (Some range) matchCase matchEntireCell
      rowIndex colIndex cells st
    = if existsb truthy cells
      then {| pushed := pushed st; writes := writes st; thrown := Some (RangeError e) |}
      else st.
Proof.
  induction cells as [|cellValue cells IH]; intros colIndex st Hnone;
    cbn [replaceRow existsb]; [reflexivity|].
  unfold stepCell. rewrite cellReplacement_invalid_range.
  destruct (truthy cellValue); cbn [thrown orb]; [reflexivity|].
  rewrite Hnone. now apply IH.
Qed.

Lemma replaceRows_invalid_range data :
  forall rowIndex (st : Scan (W:=W)),
    thrown st = None ->
    replaceRows updateCell findText replaceText (Some range) matchCase matchEntireCell
      rowIndex data st
    = if existsb (existsb truthy) data
      then {| pushed := pushed st; writes := writes st; thrown := Some (RangeError e) |}
      else st.
Proof.
  induction data as [|cells data IH]; intros rowIndex st Hnone;
    cbn [replaceRows existsb]; [reflexivity|].
  rewrite replaceRow_invalid_range by assumption.
  destruct (existsb truthy cells); cbn [thrown orb]; [reflexivity|].
  rewrite Hnone. now apply IH.
Qed.
End InvalidRange.

(** X25. [smartReplace] parses the range only when it meets a truthy cell.
    With a range that [parseRange] rejects, it throws the error of
    [parseRange] without any write if the grid has a truthy cell, and
    returns an empty result, the range unnoticed, if it has none. *)
Theorem smartReplace_invalid_range {W : Type}
    (updateCell : nat -> string -> string -> option W)
    (findText replaceText range : string) (matchCase matchEntireCell : bool)
    (e : SheetsUtils.Error) (data : Grid) :
  range <> "" ->
  parseRange range = Err e ->
  smartReplace updateCell findText replaceText (Some range)
    matchCase matchEntireCell data
  = if existsb (existsb truthy) data
    then ([], Err (RangeError e))
    else ([], Ok {| modifiedCells := 0; replacements := [] |}).
Proof.
  intros Hne Hbad. unfold smartReplace.
  rewrite (replaceRows_invalid_range updateCell findText replaceText range
             matchCase matchEntireCell e Hne Hbad) by reflexivity.
  destruct (existsb (existsb truthy) data); reflexivity.
Qed.

Lemma smartReplace_invalid_range_witness :
  smartReplace (W:=unit) (fun _ _ _ => None) "a" "b" (Some "B2") false false
    [[VString ""; VNumber 0]; []]
  = ([], Ok {| modifiedCells := 0; replacements := [] |})
  /\ smartReplace (W:=unit) (fun _ _ _ => None) "a" "b" (Some "B2") false false
       [[VString ""; VString "x"]]
     = ([], Err (RangeError (InvalidRangeFormat "B2"))).
Proof.
  split.
  - apply (smartReplace_invalid_range (W:=unit) (fun _ _ _ => None) "a" "b" "B2"
             false false (InvalidRangeFormat "B2") [[VString ""; VNumber 0]; []]);
      [discriminate | reflexivity].
  - apply (smartReplace_invalid_range (W:=unit) (fun _ _ _ => None) "a" "b" "B2"
             false false (InvalidRangeFormat "B2") [[VString ""; VString "x"]]);
      [discriminate | reflexivity].
Defined.

(** ** The containment test and the regular expression *)

Lemma every_ascii (c : ascii) : In c (map ascii_of_nat (seq 0 256)).
Proof.
  rewrite <- (ascii_nat_embedding c). apply in_map, in_seq.
  pose proof (nat_ascii_bounded c). lia.
Qed.

(** Under the [i] flag two characters match exactly when their lower-case
    forms are equal. *)
Lemma charMatches_lowerChar (p c : ascii) :
  charMatches true p c = Ascii.eqb (lowerChar p) (lowerChar c).
Proof.
  assert (H : forallb (fun p =>
                forallb (fun c =>
                  Bool.eqb (charMatches true p c) (Ascii.eqb (lowerChar p) (lowerChar c)))
                  (map ascii_of_nat (seq 0 256)))
                (map ascii_of_nat (seq 0 256)) = true)
    by (vm_compute; reflexivity).
  rewrite forallb_forall in H. specialize (H p (every_ascii p)).
  rewrite forallb_forall in H. specialize (H c (every_ascii c)).
  now apply Bool.eqb_prop in H.
Qed.

Lemma matchesAtStart_prefix (matchCase : bool) (atoms : string) :
  forall s,
    matchesAtStart (negb matchCase) atoms s
    = prefix (foldCase matchCase atoms) (foldCase matchCase s).
Proof.
  unfold foldCase. induction atoms as [|p atoms IH]; intros s.
  - destruct matchCase, s; reflexivity.
  - destruct s as [|c s]; [destruct matchCase; reflexivity|].
    cbn [matchesAtStart]. rewrite IH.
    destruct matchCase; cbn [negb toLowerCase prefix].
    + unfold charMatches.
      destruct (Ascii.eqb_spec p c), (ascii_dec p c); try congruence; reflexivity.
    + rewrite charMatches_lowerChar.
      destruct (Ascii.eqb_spec (lowerChar p) (lowerChar c)),
               (ascii_dec (lowerChar p) (lowerChar c)); try congruence; reflexivity.
Qed.

Lemma foldCase_cons (matchCase : bool) (c : ascii) (s : string) :
  exists c', foldCase matchCase (String c s) = String c' (foldCase matchCase s).
Proof. destruct matchCase; eexists; reflexivity. Qed.

Lemma replaceFrom_unchanged (matchCase : bool) (atoms replacement : string) :
  forall s before,
    includes (foldCase matchCase s) (foldCase matchCase atoms) = false ->
    replaceFrom (negb matchCase) atoms replacement before 0 s = s.
Proof.
  induction s as [|c s IH]; intros before Hinc.
  - cbn [replaceFrom]. rewrite matchesAtStart_prefix.
    assert (E : foldCase matchCase "" = "") by (destruct matchCase; reflexivity).
    rewrite E in *. cbn [includes] in Hinc. apply orb_false_iff in Hinc as [Hp _].
    now rewrite Hp.
  - cbn [replaceFrom]. rewrite matchesAtStart_prefix.
    destruct (foldCase_cons matchCase c s) as [c' E]. rewrite E in *.
    cbn [includes] in Hinc. apply orb_false_iff in Hinc as [Hp Hrest].
    rewrite Hp. f_equal. now apply IH.
Qed.

(** X26. On texts within Latin-1, the containment test of [smartReplace]
    and its regular expression agree on what does not match: when the test
    fails for a text, replacing with the expression built from [findText]
    would have left the text unchanged, so skipping the cell loses no
    replacement. (Outside Latin-1 lower case and the [i] flag differ: the
    final sigma, the Kelvin sign.) *)
Theorem replaceRegExp_unchanged (text findText replaceText : string)
    (matchCase : bool) :
  includes (foldCase matchCase text) (foldCase matchCase findText) = false ->
  replaceRegExp text
    {| source := escapeRegExp findText; ignoreCase := negb matchCase |} replaceText
  = text.
Proof.
  intros H. unfold replaceRegExp. cbn [source ignoreCase].
  rewrite patternAtoms_escapeRegExp. now apply replaceFrom_unchanged.
Qed.

Lemma replaceRegExp_unchanged_witness :
  replaceRegExp "Contact: Busan Office"
    {| source := escapeRegExp "SEOUL"; ignoreCase := negb false |} "Seoul City"
  = "Contact: Busan Office".
Proof.
  apply (replaceRegExp_unchanged "Contact: Busan Office" "SEOUL" "Seoul City" false).
  reflexivity.
Defined.

(** ** Replacing with a plain replacement text *)

Lemma getSubstitution_plain_any (replacement m1 b1 a1 m2 b2 a2 : string) :
  countChar "$" replacement = 0%nat ->
  getSubstitution replacement m1 b1 a1 = getSubstitution replacement m2 b2 a2.
Proof. intros H. now rewrite !getSubstitution_plain. Qed.

(** With a plain replacement text the result does not depend on the text
    already scanned. *)
Lemma replaceFrom_before (ic : bool) (atoms replacement : string) :
  countChar "$" replacement = 0%nat ->
  forall s skip b1 b2,
    replaceFrom ic atoms replacement b1 skip s
    = replaceFrom ic atoms replacement b2 skip s.
Proof.
  intros Hplain. induction s as [|c s IH]; intros skip b1 b2.
  - destruct skip; cbn [replaceFrom]; [|reflexivity].
    destruct (matchesAtStart ic atoms ""); [|reflexivity].
    f_equal. now apply getSubstitution_plain_any.
  - destruct skip as [|k]; cbn [replaceFrom]; [|apply IH].
    destruct (matchesAtStart ic atoms (String c s)).
    + f_equal; [now apply getSubstitution_plain_any|]. f_equal. apply IH.
    + f_equal. apply IH.
Qed.

Lemma replaceFrom_skip (ic : bool) (atoms replacement : string) :
  countChar "$" replacement = 0%nat ->
  forall skip s before,
    (skip <= String.length s)%nat ->
    replaceFrom ic atoms replacement before skip s
    = replaceFrom ic atoms replacement "" 0 (dropChars skip s).
Proof.
  intros Hplain. induction skip as [|k IH]; intros s before Hlen.
  - cbn [dropChars]. now apply replaceFrom_before.
  - destruct s as [|c s]; [simpl in Hlen; lia|].
    cbn [replaceFrom dropChars]. apply IH. simpl in Hlen. lia.
Qed.

Lemma dropChars_app (a b : string) : dropChars (String.length a) (a ++ b) = b.
Proof. induction a as [|c a IH]; [reflexivity | exact IH]. Qed.

Lemma foldCase_length (matchCase : bool) (s : string) :
  String.length (foldCase matchCase s) = String.length s.
Proof.
  destruct matchCase; [reflexivity|]. cbn [foldCase].
  induction s as [|c s IH]; simpl; [reflexivity | now rewrite IH].
Qed.

Lemma foldCase_app (matchCase : bool) (a b : string) :
  foldCase matchCase (a ++ b) = (foldCase matchCase a ++ foldCase matchCase b)%string.
Proof.
  destruct matchCase; [reflexivity|]. cbn [foldCase].
  induction a as [|c a IH]; simpl; [reflexivity | now rewrite IH].
Qed.

Lemma prefix_app (a b : string) : prefix a (a ++ b) = true.
Proof.
  induction a as [|c a IH]; [destruct b; reflexivity|].
  cbn [append prefix]. destruct (ascii_dec c c); [exact IH | congruence].
Qed.

(** X27. On texts within Latin-1, with a replacement text that has no
    dollar sign and a [findText] that is not empty, the first occurrence is
    replaced by the replacement text, the text before it is kept as it is,
    and the replacing goes on in the text after the occurrence: occurrences
    are replaced from the left and do not overlap. *)
Theorem replaceRegExp_first_occurrence (before occurrence after : string)
    (findText replaceText : string) (matchCase : bool) :
  countChar "$" replaceText = 0%nat ->
  findText <> "" ->
  foldCase matchCase occurrence = foldCase matchCase findText ->
  (forall k, (k < String.length before)%nat ->
     prefix (foldCase matchCase findText)
            (foldCase matchCase (dropChars k (before ++ occurrence ++ after))) = false) ->
  let re := {| source := escapeRegExp findText; ignoreCase := negb matchCase |} in
  replaceRegExp (before ++ occurrence ++ after) re replaceText
  = (before ++ replaceText ++ replaceRegExp after re replaceText)%string.
Proof.
  intros Hplain Hne Hocc Hfirst re. subst re. unfold replaceRegExp.
  cbn [source ignoreCase]. rewrite patternAtoms_escapeRegExp.
  assert (Hlen : String.length occurrence = String.length findText)
    by (rewrite <- (foldCase_length matchCase occurrence), Hocc; apply foldCase_length).
  assert (Hgo : forall scanned,
             replaceFrom (negb matchCase) findText replaceText scanned 0
               (before ++ occurrence ++ after)
             = (before ++ replaceText
                ++ replaceFrom (negb matchCase) findText replaceText "" 0 after)%string);
    [|apply Hgo].
  induction before as [|c before IH]; intros scanned.
  - cbn [append]. clear Hfirst.
    destruct occurrence as [|c occurrence];
      [destruct findText; [congruence | discriminate Hlen]|].
    cbn [append replaceFrom]. rewrite matchesAtStart_prefix.
    change (String c (occurrence ++ after)) with (String c occurrence ++ after)%string.
    rewrite foldCase_app, Hocc, prefix_app.
    rewrite getSubstitution_plain by assumption. f_equal.
    destruct findText as [|f findText]; [congruence|].
    cbn [String.length Nat.eqb Nat.sub append]. rewrite Nat.sub_0_r.
    simpl in Hlen. injection Hlen as <-.
    rewrite replaceFrom_skip; [now rewrite dropChars_app | assumption |].
    clear. induction occurrence; simpl; lia.
  - cbn [append replaceFrom]. rewrite matchesAtStart_prefix.
    pose proof (Hfirst 0%nat ltac:(simpl; lia)) as H0. cbn [dropChars append] in H0.
    rewrite H0. f_equal. apply IH.
    intros k Hk. apply (Hfirst (S k)). simpl. lia.
Qed.

Lemma replaceRegExp_first_occurrence_witness :
  replaceRegExp ("Contact: " ++ "SEOUL" ++ " Office")
    {| source := escapeRegExp "Seoul"; ignoreCase := negb false |} "Seoul City"
  = ("Contact: " ++ "Seoul City"
     ++ replaceRegExp " Office"
          {| source := escapeRegExp "Seoul"; ignoreCase := negb false |} "Seoul City")%string.
Proof.
  apply (replaceRegExp_first_occurrence "Contact: " "SEOUL" " Office"
           "Seoul" "Seoul City" false); try reflexivity; try discriminate.
  intros k Hk. simpl in Hk.
  do 9 (destruct k as [|k]; [reflexivity|]). lia.
Defined.

(** ** Errors on their way to the caller *)

Import ErrorHandling.

(** X28. Every [Error] that leaves a tool handler reaches the caller as a
    validation error: whatever its class was (not found, quota, plain), the
    text of the response is its message behind the two prefixes
    "Validation Error: " and "Validation error: ". *)
Theorem handleError_after_handler (error : ThrownValue) (message : string) :
  messageOf error = Some message ->
  handlerCatch error = MCPError ValidationErrorClass ("Validation error: " ++ message)
  /\ handleError (handlerCatch error)
     = ("Validation Error: " ++ "Validation error: " ++ message)%string.
Proof.
  destruct error as [class m|m|]; cbn [messageOf]; try discriminate;
    intros [= <-]; split; reflexivity.
Qed.

Lemma handleError_after_handler_witness :
  handleError (handlerCatch (MCPError OtherMCPErrorClass "Sheet not found: Sales"))
  = "Validation Error: Validation error: Sheet not found: Sales".
Proof.
  apply (handleError_after_handler
           (MCPError OtherMCPErrorClass "Sheet not found: Sales")
           "Sheet not found: Sales" eq_refl).
Defined.
